(** * cordova-config: the config.xml mutation engine of [src/index.js]

    A shallow embedding of the [Config] object of [src/index.js] and of the
    part of the element tree it relies on, followed by the properties of
    the specification that were checked against it. *)

From Stdlib Require Import ZArith Ascii String List Bool Lia.
From stdpp Require Import base option list strings gmap fin_maps.

Local Open Scope string_scope.
Local Open Scope list_scope.
Set Warnings "-register-all".

(** ** JavaScript strings

    A string is a sequence of code units; the model keeps the code units
    0..255 ([ascii]).  The three primitives of [String.prototype] that the
    module calls are written out below. *)

Module JsString.

(** The double quote as a one-character string. *)
Definition dquote : string := String "034"%char EmptyString.

(** [startsWith pat s]: [pat] occurs in [s] at position 0. *)
Fixpoint startsWith (pat s : string) : bool :=
  match pat, s with
  | EmptyString, _ => true
  | String a pat', String b s' => if Ascii.eqb a b then startsWith pat' s' else false
  | String _ _, EmptyString => false
  end.

(** [skip n s]: [s] without its first [n] code units. *)
Fixpoint skip (n : nat) (s : string) : string :=
  match n, s with
  | O, _ => s
  | S n', String _ s' => skip n' s'
  | S _, EmptyString => EmptyString
  end.

(** [s.indexOf(pat)]: position of the first occurrence, [-1] when there
    is none. *)
Fixpoint indexOf (s pat : string) : Z :=
  if startsWith pat s then 0%Z
  else match s with
       | EmptyString => (-1)%Z
       | String _ s' =>
           let i := indexOf s' pat in
           if (i <? 0)%Z then (-1)%Z else (i + 1)%Z
       end.

(** [s.replace(pat, rep)] with a string pattern: the first occurrence of
    [pat] is replaced.  ([rep] is taken literally; the module only passes
    ['.'], which holds no [$] pattern.) *)
Fixpoint replace (s pat rep : string) : string :=
  if startsWith pat s then rep +:+ skip (String.length pat) s
  else match s with
       | EmptyString => EmptyString
       | String c s' => String c (replace s' pat rep)
       end.

(** [s.substring(start)]: a negative [start] counts as 0. *)
Definition substring (s : string) (start : Z) : string :=
  skip (Z.to_nat start) s.

(** Truthiness of a possibly absent string: [undefined] and [''] are
    falsy. *)
Definition truthy (s : option string) : bool :=
  match s with
  | Some (String _ _) => true
  | _ => false
  end.

End JsString.

(** ** Regular expressions

    [new RegExp(text)] compiles the VALUE of a string: the escapes of the
    string literal are processed first, those of the pattern afterwards.
    Both steps are modelled, so that every setter below can be written with
    the literal of the source. *)

Module RegExp.

(** *** String literals

    [literal src] is the value of the single-quoted literal whose source
    text is [src]: a backslash followed by one of [n t r b f v 0] denotes
    a control character, and followed by any other character it denotes
    that character (the escapes [\x] and [\u] do not occur in the
    module). *)
Definition unescape (c : ascii) : ascii :=
  match c with
  | "n" => "010" | "t" => "009" | "r" => "013" | "b" => "008"
  | "f" => "012" | "v" => "011" | "0" => "000"
  | _ => c
  end%char.

Fixpoint literal (src : string) : string :=
  match src with
  | EmptyString => EmptyString
  | String "\" (String c rest) => String (unescape c) (literal rest)
  | String c rest => String c (literal rest)
  end.

(** *** Patterns *)

Inductive item : Type :=
| Chr (c : ascii)
| Rng (lo hi : ascii).

Inductive re : Type :=
| Fail                                  (* no string at all *)
| Eps                                   (* the empty string *)
| Any                                   (* any one code unit *)
| Dot                                   (* [.]: any but a line terminator *)
| Lit (c : ascii)
| Cls (neg : bool) (items : list item)  (* [[...]] and [[^...]] *)
| Seq (r1 r2 : re)
| Alt (r1 r2 : re)
| Star (r : re).

Definition plus (r : re) : re := Seq r (Star r).
Definition opt (r : re) : re := Alt r Eps.

(** [times n r] is [r{n}], [upto n r] is [r{0,n}]. *)
Fixpoint times (n : nat) (r : re) : re :=
  match n with
  | O => Eps
  | S n' => Seq r (times n' r)
  end.

Fixpoint upto (n : nat) (r : re) : re :=
  match n with
  | O => Eps
  | S n' => opt (Seq r (upto n' r))
  end.

(** [r{lo,hi}]; [hi = None] is [r{lo,}]. *)
Definition repeat (lo : nat) (hi : option nat) (r : re) : re :=
  match hi with
  | None => Seq (times lo r) (Star r)
  | Some h => if (h <? lo)%nat then Fail else Seq (times lo r) (upto (h - lo) r)
  end.

Definition code (c : ascii) : N := N_of_ascii c.

Definition item_has (c : ascii) (i : item) : bool :=
  match i with
  | Chr a => Ascii.eqb a c
  | Rng lo hi => (code lo <=? code c)%N && (code c <=? code hi)%N
  end.

Definition line_terminator (c : ascii) : bool :=
  Ascii.eqb c "010"%char || Ascii.eqb c "013"%char.

(** *** Matching, by derivatives *)

Fixpoint nullable (r : re) : bool :=
  match r with
  | Fail | Any | Dot | Lit _ | Cls _ _ => false
  | Eps | Star _ => true
  | Seq r1 r2 => nullable r1 && nullable r2
  | Alt r1 r2 => nullable r1 || nullable r2
  end.

Definition accepts1 (b : bool) : re := if b then Eps else Fail.

Fixpoint deriv (c : ascii) (r : re) : re :=
  match r with
  | Fail | Eps => Fail
  | Any => Eps
  | Dot => accepts1 (negb (line_terminator c))
  | Lit a => accepts1 (Ascii.eqb a c)
  | Cls neg items => accepts1 (xorb neg (existsb (item_has c) items))
  | Seq r1 r2 =>
      if nullable r1 then Alt (Seq (deriv c r1) r2) (deriv c r2)
      else Seq (deriv c r1) r2
  | Alt r1 r2 => Alt (deriv c r1) (deriv c r2)
  | Star r1 => Seq (deriv c r1) (Star r1)
  end.

Fixpoint matches (r : re) (s : string) : bool :=
  match s with
  | EmptyString => nullable r
  | String c s' => matches (deriv c r) s'
  end.

(** The strings a pattern denotes. *)
Inductive lang : re → string → Prop :=
| lang_eps : lang Eps ""
| lang_any c : lang Any (String c "")
| lang_dot c : line_terminator c = false → lang Dot (String c "")
| lang_lit c : lang (Lit c) (String c "")
| lang_cls neg items c :
    xorb neg (existsb (item_has c) items) = true → lang (Cls neg items) (String c "")
| lang_seq r1 r2 s1 s2 : lang r1 s1 → lang r2 s2 → lang (Seq r1 r2) (s1 +:+ s2)
| lang_alt_l r1 r2 s : lang r1 s → lang (Alt r1 r2) s
| lang_alt_r r1 r2 s : lang r2 s → lang (Alt r1 r2) s
| lang_star_nil r : lang (Star r) ""
| lang_star_app r s1 s2 : lang r s1 → lang (Star r) s2 → lang (Star r) (s1 +:+ s2).

(** *** Compiling a pattern

    The pattern text is read left to right by a small machine: a stack of
    open groups, the alternatives and terms of the innermost group, and a
    mode for what is being read.  The syntax covered is the one the
    module uses: [^] at the start, [$] at the end, groups, [|], the
    quantifiers [* + ? {n} {n,} {n,m}], [.], bracket classes with ranges,
    and a backslash before a punctuation character.  Anything else is
    refused ([None]). *)

Record regexp : Type := mkRegexp {
  anchor_start : bool;
  anchor_end : bool;
  body : re }.

(** The terms of the alternative being read are kept latest first. *)
Record frame : Type := Frame { alts : list re; terms : list re }.

Inductive mode : Type :=
| Term
| Escape
| ClassStart
| InClass (neg : bool) (items : list item) (dash : bool)
| ClassEscape (neg : bool) (items : list item) (dash : bool)
| Min (n : nat) (seen : bool)
| Max (lo : nat) (hi : option nat)
| Done.

Record machine : Type := Machine {
  from_start : bool;
  stack : list frame;
  cur : frame;
  md : mode }.

Fixpoint seq_of (ts : list re) : re :=
  match ts with
  | [] => Eps
  | [t] => t
  | t :: ts' => Seq t (seq_of ts')
  end.

Fixpoint alt_of (rs : list re) : re :=
  match rs with
  | [] => Fail
  | [r] => r
  | r :: rs' => Alt r (alt_of rs')
  end.

Definition close (f : frame) : re := alt_of (alts f ++ [seq_of (rev (terms f))]).

Definition between (lo hi c : ascii) : bool :=
  (code lo <=? code c)%N && (code c <=? code hi)%N.

Definition is_digit (c : ascii) : bool := between "0" "9" c.

Definition is_word (c : ascii) : bool :=
  between "a" "z" c || between "A" "Z" c || is_digit c || Ascii.eqb c "_".

Definition digit_value (c : ascii) : nat := N.to_nat (code c - code "0").

Definition push (t : re) (m : machine) : option machine :=
  Some (Machine (from_start m) (stack m)
                (Frame (alts (cur m)) (t :: terms (cur m))) Term).

Definition quantify (q : re → re) (m : machine) : option machine :=
  match terms (cur m) with
  | t :: ts => Some (Machine (from_start m) (stack m)
                             (Frame (alts (cur m)) (q t :: ts)) Term)
  | [] => None
  end.

Definition with_mode (d : mode) (m : machine) : option machine :=
  Some (Machine (from_start m) (stack m) (cur m) d).

(** One more atom inside a bracket class. *)
Definition class_atom (neg : bool) (items : list item) (dash : bool)
    (a : ascii) (m : machine) : option machine :=
  if dash then
    match items with
    | Chr lo :: rest =>
        if (code lo <=? code a)%N
        then with_mode (InClass neg (Rng lo a :: rest) false) m
        else None
    | _ => None
    end
  else with_mode (InClass neg (Chr a :: items) false) m.

Definition in_class (neg : bool) (items : list item) (dash : bool)
    (c : ascii) (m : machine) : option machine :=
  match c with
  | "]" => push (Cls neg (rev (if dash then Chr "-" :: items else items))) m
  | "\" => with_mode (ClassEscape neg items dash) m
  | "-" =>
      if dash then class_atom neg items dash c m
      else match items with
           | Chr _ :: _ => with_mode (InClass neg items true) m
           | _ => class_atom neg items dash c m
           end
  | _ => class_atom neg items dash c m
  end%char.

Definition step (m : machine) (c : ascii) : option machine :=
  match md m with
  | Term =>
      match c with
      | "^" =>
          match from_start m, stack m, cur m with
          | false, [], Frame [] [] => Some (Machine true [] (cur m) Term)
          | _, _, _ => None
          end
      | "$" =>
          match stack m with
          | [] => with_mode Done m
          | _ => None
          end
      | "\" => with_mode Escape m
      | "[" => with_mode ClassStart m
      | "(" => Some (Machine (from_start m) (cur m :: stack m) (Frame [] []) Term)
      | ")" =>
          match stack m with
          | outer :: rest =>
              Some (Machine (from_start m) rest
                            (Frame (alts outer) (close (cur m) :: terms outer)) Term)
          | [] => None
          end
      | "|" =>
          Some (Machine (from_start m) (stack m)
                        (Frame (alts (cur m) ++ [seq_of (rev (terms (cur m)))]) []) Term)
      | "*" => quantify Star m
      | "+" => quantify plus m
      | "?" => quantify opt m
      | "{" =>
          match terms (cur m) with
          | _ :: _ => with_mode (Min 0 false) m
          | [] => None
          end
      | "." => push Dot m
      | "]" | "}" => None
      | _ => push (Lit c) m
      end%char
  | Escape => if is_word c then None else push (Lit c) m
  | ClassStart =>
      if Ascii.eqb c "^" then with_mode (InClass true [] false) m
      else in_class false [] false c m
  | InClass neg items dash => in_class neg items dash c m
  | ClassEscape neg items dash =>
      if is_word c then None else class_atom neg items dash c m
  | Min n seen =>
      if is_digit c then with_mode (Min (10 * n + digit_value c) true) m
      else if Ascii.eqb c "," then (if seen then with_mode (Max n None) m else None)
      else if Ascii.eqb c "}" then (if seen then quantify (repeat n (Some n)) m else None)
      else None
  | Max lo hi =>
      if is_digit c
      then with_mode (Max lo (Some (10 * default 0 hi + digit_value c)%nat)) m
      else if Ascii.eqb c "}" then quantify (repeat lo hi) m
      else None
  | Done => None
  end.

Definition finish (m : machine) : option regexp :=
  match md m, stack m with
  | Term, [] => Some (mkRegexp (from_start m) false (close (cur m)))
  | Done, [] => Some (mkRegexp (from_start m) true (close (cur m)))
  | _, _ => None
  end.

Fixpoint run (text : string) (m : machine) : option regexp :=
  match text with
  | EmptyString => finish m
  | String c rest =>
      match step m c with
      | Some m' => run rest m'
      | None => None
      end
  end.

(** [new RegExp(text)]; [None] stands for the [SyntaxError] of a pattern
    that does not compile. *)
Definition RegExp (text : string) : option regexp :=
  run text (Machine false [] (Frame [] []) Term).

(** [regex.test(s)]: some substring of [s] matches, from the start of
    [s] when the pattern opens with [^] and up to its end when it closes
    with [$]. *)
Definition test (r : regexp) (s : string) : bool :=
  matches (Seq (if anchor_start r then Eps else Star Any)
               (Seq (body r) (if anchor_end r then Eps else Star Any))) s.

(** The class [[0-9]]. *)
Definition digit_class : re := Cls false [Rng "0" "9"].

End RegExp.

(** ** The element tree

    Modelled from the spec: the tree contract of section 6 (find-first and
    find-all by path, create node, append child, remove child, attributes,
    text, ordered children).  The tree library itself ([elementtree]) is
    not among the sources.  Nodes are objects: [remove] takes out the very
    node it is handed, so every node carries an identity [_id], drawn from
    the counter [element_ids] when the node is created. *)

Module et.

Inductive Element : Type := mkElement {
  _id : N;
  tag : string;
  attrib : gmap string string;
  text : option string;
  _children : list Element }.

(** What a parser reads from markup text: a tree not yet made of
    objects. *)
Inductive markup : Type :=
  Markup (mtag : string) (mattrib : gmap string string)
         (mtext : option string) (mchildren : list markup).

Definition same (a b : Element) : bool := N.eqb (_id a) (_id b).

(** [parent.append(child)] *)
Definition append (child parent : Element) : Element :=
  mkElement (_id parent) (tag parent) (attrib parent) (text parent)
            (_children parent ++ [child]).

(** [parent.remove(child)] *)
Definition remove (child parent : Element) : Element :=
  mkElement (_id parent) (tag parent) (attrib parent) (text parent)
            (filter (λ e, same e child = false) (_children parent)).

(** [node.attrib[key] = value] *)
Definition setAttribute (key value : string) (node : Element) : Element :=
  mkElement (_id node) (tag node) (<[key := value]> (attrib node)) (text node)
            (_children node).

(** [node.attrib[key]] *)
Definition getAttribute (key : string) (node : Element) : option string :=
  attrib node !! key.

(** The node [e] with the children [cs]. *)
Definition with_children (cs : list Element) (e : Element) : Element :=
  mkElement (_id e) (tag e) (attrib e) (text e) cs.

(** A change [f] made to the object [target], seen from the tree [e] that
    may hold it. *)
Fixpoint update (target : N) (f : Element → Element) (e : Element) : Element :=
  if N.eqb (_id e) target then f e
  else match e with
       | mkElement i t a x cs => mkElement i t a x (update target f <$> cs)
       end.

(** The first result among [f a], [a] ranging over [l]. *)
Fixpoint first_some {A B} (f : A → option B) (l : list A) : option B :=
  match l with
  | [] => None
  | a :: l' =>
      match f a with
      | Some b => Some b
      | None => first_some f l'
      end
  end.

(** The node of identity [target] in the tree [e]. *)
Fixpoint lookup (target : N) (e : Element) : option Element :=
  if N.eqb (_id e) target then Some e
  else match e with
       | mkElement _ _ _ _ cs => first_some (lookup target) cs
       end.

(** [inside node e]: [node] is [e] or lies below it. *)
Inductive inside (node : Element) : Element → Prop :=
| inside_here : inside node node
| inside_child c e : c ∈ _children e → inside node c → inside node e.

(** The identities of a tree, parents before children. *)
Fixpoint ids (e : Element) : list N :=
  match e with
  | mkElement i _ _ _ cs => i :: flat_map ids cs
  end.

(** [new et.Element(tag)]: the node and the advanced counter. *)
Definition Element_new (tag : string) (element_ids : N) : Element * N :=
  (mkElement element_ids tag ∅ None [], N.succ element_ids).

(** The objects of a parsed tree, created parent first. *)
Fixpoint build (m : markup) (element_ids : N) : Element * N :=
  match m with
  | Markup t a x ms =>
      let '(cs, n) :=
        (fix build_all (ms : list markup) (n : N) : list Element * N :=
           match ms with
           | [] => ([], n)
           | m' :: ms' =>
               let '(c, n1) := build m' n in
               let '(cs, n2) := build_all ms' n1 in
               (c :: cs, n2)
           end) ms (N.succ element_ids) in
      (mkElement element_ids t a x cs, n)
  end.

(** The objects of a list of parsed trees, one tree after the other (the
    inner loop of [build], on its own). *)
Fixpoint build_all (ms : list markup) (element_ids : N) : list Element * N :=
  match ms with
  | [] => ([], element_ids)
  | m :: ms' =>
      let '(c, n1) := build m element_ids in
      let '(cs, n2) := build_all ms' n1 in
      (c :: cs, n2)
  end.

(** *** Paths

    The two forms of section 6: child by tag, [./tag], also chained
    ([./a/b]), and a closing attribute test, [./tag/[@attr="value"]].
    The value is read verbatim: it is everything between the opening
    quote and the quote and bracket that end the path (what the library
    makes of a value that itself holds a quote is not part of that
    contract).  [.] alone is the node itself.  Any other text selects no
    node.

    These definitions answer for the library on the paths of the forms
    above whose names are plain and whose value holds no double quote
    ([well_formed], further down).  What the library makes of any other
    path, refusing it with a [SyntaxError] or reading in it more of its
    query language, is not modelled: a property that depends on a lookup
    says which paths it covers. *)

Inductive selector : Type :=
| Child (name : string)
| AttrEq (key value : string).

Fixpoint take (n : nat) (s : string) : string :=
  match n, s with
  | S n', String c s' => String c (take n' s')
  | _, _ => EmptyString
  end.

Definition closing : string := JsString.dquote +:+ "]".
Definition opening : string := "=" +:+ JsString.dquote.

(** [predicate s] reads [s] as [[@key="value"]]. *)
Definition predicate (s : string) : option (list selector) :=
  if JsString.startsWith "[@" s then
    let s1 := JsString.skip 2 s in
    let i := JsString.indexOf s1 opening in
    if (i <? 0)%Z then None
    else
      let key := take (Z.to_nat i) s1 in
      let s2 := JsString.skip (Z.to_nat i + 2) s1 in
      let n := String.length s2 in
      if (2 <=? n)%nat && String.eqb (JsString.skip (n - 2) s2) closing
      then Some [AttrEq key (take (n - 2) s2)]
      else None
  else None.

(** [steps name s]: the selectors of [s], [name] being the part of the
    current step already read. *)
Fixpoint steps (name : string) (s : string) : option (list selector) :=
  match s with
  | EmptyString =>
      match name with
      | EmptyString => None
      | _ => Some [Child name]
      end
  | String c s' =>
      if Ascii.eqb c "/" then
        match name with
        | EmptyString => None
        | _ => match steps EmptyString s' with
               | Some sels => Some (Child name :: sels)
               | None => None
               end
        end
      else if Ascii.eqb c "[" then
        match name with
        | EmptyString => predicate s
        | _ => None
        end
      else steps (name +:+ String c EmptyString) s'
  end.

Definition selectors (path : string) : option (list selector) :=
  match path with
  | String "." EmptyString => Some []
  | String "." (String "/" rest) => steps EmptyString rest
  | _ => None
  end.

Definition has_tag (name : string) (e : Element) : bool := String.eqb (tag e) name.

Definition has_attr (key value : string) (e : Element) : bool :=
  bool_decide (attrib e !! key = Some value).

Definition select (nodes : list Element) (sel : selector) : list Element :=
  match sel with
  | Child name => flat_map (λ e, filter (λ c, has_tag name c = true) (_children e)) nodes
  | AttrEq key value => filter (λ e, has_attr key value e = true) nodes
  end.

(** [node.findall(path)], in document order. *)
Definition findall (path : string) (node : Element) : list Element :=
  match selectors path with
  | Some sels => fold_left select sels [node]
  | None => []
  end.

(** [node.find(path)]: the first match, or [null]. *)
Definition find (path : string) (node : Element) : option Element :=
  head (findall path node).

(** The document object: [doc.getroot()], [doc.find] and [doc.findall]
    go through its root. *)
Record ElementTree : Type := mkElementTree { getroot : Element }.

(** A key without [=]. *)
Definition plain_key (key : string) : bool :=
  forallb (λ c, negb (Ascii.eqb c "=")) (list_ascii_of_string key).

(** The children of [e] with tag [name] whose attribute [key] is
    [value]. *)
Definition children_with (name key value : string) (e : Element) : list Element :=
  filter (λ c, has_tag name c && has_attr key value c = true) (_children e).

End et.

(** ** Computations that may throw

    A method runs on a state, may change it, and either returns or throws;
    what it changed before throwing stays changed. *)

Inductive exn : Type :=
| Error (message : string)       (* [throw new Error(message)] *)
| TypeError (property : string)  (* reading [property] of [undefined] *)
| SyntaxError                    (* a pattern that does not compile *)
| ParseError                     (* markup the parser refuses *)
| IOError.                       (* a file that cannot be read *)

Inductive completion (A : Type) : Type :=
| Normal (a : A)
| Throw (e : exn).
Arguments Normal {A} a.
Arguments Throw {A} e.

Definition M (S A : Type) : Type := S → completion A * S.

Global Instance M_ret {S} : MRet (M S) := λ A a s, (Normal a, s).

Global Instance M_bind {S} : MBind (M S) := λ A B f m s,
  match m s with
  | (Normal a, s') => f a s'
  | (Throw e, s') => (Throw e, s')
  end.

Definition throw {S A} (e : exn) : M S A := λ s, (Throw e, s).
Definition gets {S A} (f : S → A) : M S A := λ s, (Normal (f s), s).
Definition modify {S} (f : S → S) : M S unit := λ s, (Normal tt, f s).

(** [list.forEach(body)] *)
Fixpoint forEach {S A} (l : list A) (body : A → M S unit) : M S unit :=
  match l with
  | [] => mret tt
  | a :: l' => body a ;; forEach l' body
  end.

(** ** The environment: the file system and the markup parser

    Neither is part of the sources.  [readFileSync file] is the text of the
    file ([None]: it cannot be read); [parseXML text] is the tree the
    parser reads from [text] ([None]: it refuses the markup).  What the
    parser of the library does besides, handing back no tree at all for an
    empty text, or having created nodes by the time it refuses a text, is
    not modelled: a property about a parsed text assumes that the parser
    accepted it. *)

Class Host : Type := {
  readFileSync : string → option string;
  parseXML : string → option et.markup }.

(** ** The module of [src/index.js] *)

Section Config.

Context {host : Host}.

Import JsString.

(** The object built by [new Config(file)].  [this._root] is
    [this._doc.getroot()]: one tree under two names. *)
Record Config : Type := mkConfig {
  _file : string;
  _doc : et.ElementTree }.

Definition _root (c : Config) : et.Element := et.getroot (_doc c).

(** The constructor (lines 69-73) sets [_file], [_doc] and [_root];
    nothing, there or on the prototype, sets [platformElement]: reading
    [this.platformElement] gives [undefined]. *)
Definition platformElement_of (c : Config) : option et.Element := None.

(** What a method runs on: the object [this] and the counter from which
    new nodes take their identity. *)
Record world : Type := World {
  element_ids : N;
  this : Config }.

(** *** The tree operations, as computations *)

(** [new et.Element(tag)] *)
Definition new_Element (tag : string) : M N et.Element :=
  λ n, let '(e, n') := et.Element_new tag n in (Normal e, n').

(** [et.XML(text)] *)
Definition XML (text : string) : M N et.Element :=
  match parseXML text with
  | Some m => λ n, let '(e, n') := et.build m n in (Normal e, n')
  | None => throw ParseError
  end.

(** A computation on the counter, run inside a method. *)
Definition alloc {A} (m : M N A) : M world A :=
  λ w, let '(r, n) := m (element_ids w) in (r, World n (this w)).

(** The same world around another tree. *)
Definition with_root (r : et.Element) (w : world) : world :=
  World (element_ids w) (mkConfig (_file (this w)) (et.mkElementTree r)).

(** The change [f] made to the node [target] of the document. *)
Definition mutate (target : et.Element) (f : et.Element → et.Element) : M world unit :=
  modify (λ w, with_root (et.update (et._id target) f (_root (this w))) w).

Definition this_root : M world et.Element := gets (λ w, _root (this w)).
Definition this_doc : M world et.ElementTree := gets (λ w, _doc (this w)).

(** [this._doc.find(path)] and [this._doc.findall(path)] *)
Definition doc_find (path : string) : M world (option et.Element) :=
  gets (λ w, et.find path (_root (this w))).
Definition doc_findall (path : string) : M world (list et.Element) :=
  gets (λ w, et.findall path (_root (this w))).

(** [this._root.append(child)] and [this._root.remove(child)] *)
Definition root_append (child : et.Element) : M world unit :=
  root ← this_root; mutate root (et.append child).
Definition root_remove (child : et.Element) : M world unit :=
  root ← this_root; mutate root (et.remove child).

(** [new RegExp(text)] *)
Definition new_RegExp {S} (text : string) : M S RegExp.regexp :=
  match RegExp.RegExp text with
  | Some r => mret r
  | None => throw SyntaxError
  end.

(** The pattern literals of the validated setters (lines 81, 173, 190 and
    207).  The bracket class that closes the first one holds in the source,
    after [\-], the two code units U+200C and U+200B; they lie outside the
    code units of the model and are left out. *)
Definition id_pattern : string := RegExp.literal
  "^[0-9a-zA-Z]([-.\w]*[0-9a-zA-Z])*(:(0-9)*)*(\/?)([a-zA-Z0-9\-\.\?\,\'\/\\\+&amp;%\$#_]*)?$".
Definition version_pattern : string := RegExp.literal "^[0-9]+\.[0-9]+\.[0-9]+$".
Definition android_version_code_pattern : string := RegExp.literal "^[0-9]+$".
Definition ios_bundle_version_pattern : string :=
  RegExp.literal "^[1-9][0-9]*(\.[0-9]+){0,2}$".

(** *** [_this.parse] (lines 24-41) *)
Definition parse (file : string) : M N et.ElementTree :=
  contents ← match readFileSync file with
             | Some text => mret text
             | None => throw IOError
             end;
  let contents :=
    if truthy (Some contents)
    then substring contents (indexOf contents "<")
    else contents in
  root ← XML contents;
  let doc := et.mkElementTree root in
  if negb (String.eqb (et.tag root) "widget")
  then throw (Error (file +:+ " has incorrect root node name (expected "
                       +:+ dquote +:+ "widget" +:+ dquote +:+ ", was "
                       +:+ dquote +:+ et.tag root +:+ dquote +:+ ")"))
  else mret doc.

(** *** [_this.fixAbsoluteXPath] (lines 51-61) *)
Definition fixAbsoluteXPath (doc : et.ElementTree) (path : option string) : option string :=
  let prefix := "/" +:+ et.tag (et.getroot doc) in
  match path with
  | Some p =>
      if truthy path && (indexOf p prefix =? 0)%Z
      then Some (replace p prefix ".")
      else path
  | None => path
  end.

(** *** [Config] (lines 69-73) *)
Definition Config_new (file : string) : M N Config :=
  doc ← parse file;
  mret (mkConfig file doc).

(** *** [setID] (lines 80-90) *)
Definition setID (id : string) : M world unit :=
  regex ← new_RegExp id_pattern;
  if negb (RegExp.test regex id)
  then throw (Error "Please provide a valid id.")
  else root ← this_root; mutate root (et.setAttribute "id" id).

(** *** [setVersion] (lines 172-182) *)
Definition setVersion (version : string) : M world unit :=
  regex ← new_RegExp version_pattern;
  if negb (RegExp.test regex version)
  then throw (Error "Please provide a valid version number.")
  else root ← this_root; mutate root (et.setAttribute "version" version).

(** *** [setAndroidVersionCode] (lines 189-199) *)
Definition setAndroidVersionCode (versionCode : string) : M world unit :=
  regex ← new_RegExp android_version_code_pattern;
  if negb (RegExp.test regex versionCode)
  then throw (Error "Please provide a valid Android version code.")
  else root ← this_root; mutate root (et.setAttribute "android-versionCode" versionCode).

(** *** [setIOSBundleVersion] (lines 206-216) *)
Definition setIOSBundleVersion (version : string) : M world unit :=
  regex ← new_RegExp ios_bundle_version_pattern;
  if negb (RegExp.test regex version)
  then throw (Error "Please provide a valid iOS bundle version number.")
  else root ← this_root; mutate root (et.setAttribute "ios-CFBundleVersion" version).

(** *** [setPreference] (lines 224-252)

    Both the removal and the final append go through
    [this.platformElement], not through the local [platformElement]. *)
Definition setPreference (name value : string) (platform : option string) : M world unit :=
  platformElement ←
    (if truthy platform
     then doc_find ("./platform/[@name=" +:+ dquote +:+ default "" platform +:+ dquote +:+ "]")
     else root ← this_root; mret (Some root));
  platformElement ←
    match platformElement with
    | None =>
        e ← alloc (new_Element "platform");
        let e := et.setAttribute "name" (default "" platform) e in
        root_append e;;
        mret e
    | Some e => mret e
    end;
  let preference :=
    et.find ("./preference/[@name=" +:+ dquote +:+ name +:+ dquote +:+ "]") platformElement in
  match preference with
  | Some found =>
      this_platformElement ← gets (λ w, platformElement_of (this w));
      match this_platformElement with
      | Some scope => mutate scope (et.remove found)
      | None => throw (TypeError "remove")
      end
  | None => mret tt
  end;;
  preference ← alloc (new_Element "preference");
  let preference := et.setAttribute "name" name preference in
  let preference := et.setAttribute "value" value preference in
  this_platformElement ← gets (λ w, platformElement_of (this w));
  match this_platformElement with
  | Some scope => mutate scope (et.append preference)
  | None => throw (TypeError "append")
  end.

(** *** [removeAccessOrigins] (lines 257-263) *)
Definition removeAccessOrigins : M world unit :=
  tags ← doc_findall "./access";
  forEach tags (λ tag, root_remove tag).

(** *** [removeAccessOrigin] (lines 270-277) *)
Definition removeAccessOrigin (origin : string) : M world unit :=
  accessOrigin ← doc_find ("./access/[@origin=" +:+ dquote +:+ origin +:+ dquote +:+ "]");
  match accessOrigin with
  | Some found => root_remove found
  | None => mret tt
  end.

(** *** [setAccessOrigin] (lines 286-303) *)
Definition setAccessOrigin (origin : string) (options : option (gmap string string)) : M world unit :=
  let options := default ∅ options in
  removeAccessOrigin origin;;
  accessOrigin ← alloc (new_Element "access");
  let accessOrigin := et.setAttribute "origin" origin accessOrigin in
  let accessOrigin :=
    fold_left (λ e kv, et.setAttribute kv.1 kv.2 e) (map_to_list options) accessOrigin in
  root_append accessOrigin.

(** *** [addHook] (lines 312-335) *)
Definition cordovaHookTypes : list string := [
  "after_build"; "after_compile"; "after_clean"; "after_docs"; "after_emulate";
  "after_platform_add"; "after_platform_rm"; "after_platform_ls"; "after_plugin_add";
  "after_plugin_ls"; "after_plugin_rm"; "after_plugin_search"; "after_plugin_install";
  "after_prepare"; "after_run"; "after_serve"; "before_build"; "before_clean";
  "before_compile"; "before_docs"; "before_emulate"; "before_platform_add";
  "before_platform_rm"; "before_platform_ls"; "before_plugin_add"; "before_plugin_ls";
  "before_plugin_rm"; "before_plugin_search"; "before_plugin_install";
  "before_plugin_uninstall"; "before_prepare"; "before_run"; "before_serve"; "pre_package"
].

(** [array.indexOf(x)]: the first position of [x], [-1] when absent. *)
Fixpoint Array_indexOf (l : list string) (x : string) : Z :=
  match l with
  | [] => (-1)%Z
  | y :: l' =>
      if String.eqb y x then 0%Z
      else let i := Array_indexOf l' x in
           if (i <? 0)%Z then (-1)%Z else (i + 1)%Z
  end.

Definition addHook (type src : string) : M world unit :=
  if (Array_indexOf cordovaHookTypes type =? -1)%Z
  then throw (Error "Please provide a valid hook target")
  else
    hook ← alloc (new_Element "hook");
    let hook := et.setAttribute "type" type hook in
    let hook := et.setAttribute "src" src hook in
    root_append hook.

(** *** [addRawXML] (lines 346-361) *)
Definition addRawXML (raw : string) (atXPath ifXPathDoesNotExist : option string) : M world unit :=
  doc ← this_doc;
  let atXPath := fixAbsoluteXPath doc atXPath in
  let ifXPathDoesNotExist := fixAbsoluteXPath doc ifXPathDoesNotExist in
  parent ←
    (if truthy atXPath
     then doc_find (default "" atXPath)
     else root ← this_root; mret (Some root));
  alreadyExists ←
    (if truthy ifXPathDoesNotExist
     then found ← doc_find (default "" ifXPathDoesNotExist);
          mret (match found with Some _ => true | None => false end)
     else mret false);
  match parent with
  | Some node =>
      if negb alreadyExists
      then xml ← alloc (XML raw); mutate node (et.append xml)
      else mret tt
  | None => mret tt
  end.

End Config.

(** ** Vocabulary of the properties *)

(** [valid pattern s]: the check [regex.test(s)] of a setter passes. *)
Definition valid (pattern s : string) : bool :=
  match RegExp.RegExp pattern with
  | Some regex => RegExp.test regex s
  | None => false
  end.

(** Nodes are distinct objects, all created before now: the identities of
    the document are pairwise different and below the counter. *)
Definition wf (w : world) : Prop :=
  NoDup (et.ids (_root (this w))) ∧
  Forall (λ i, (i < element_ids w)%N) (et.ids (_root (this w))).

Global Instance wf_dec w : Decision (wf w).
Proof. unfold wf. apply _. Defined.

(** The node [addHook] creates. *)
Definition hook_node (id : N) (type src : string) : et.Element :=
  et.mkElement id "hook" (<["src" := src]> (<["type" := type]> ∅)) None [].

(** The node [setAccessOrigin] creates: the entries of [options] over the
    [origin] attribute. *)
Definition access_node (id : N) (origin : string) (options : gmap string string) : et.Element :=
  et.mkElement id "access" (options ∪ {["origin" := origin]}) None [].

(** The [access] children of the root whose origin is [origin]. *)
Definition access_for (origin : string) (w : world) : list et.Element :=
  et.children_with "access" "origin" origin (_root (this w)).

(** The calls a client can make on a [Config] object, among those
    modelled. *)
Inductive call : Type :=
| call_setID (id : string)
| call_setVersion (version : string)
| call_setAndroidVersionCode (versionCode : string)
| call_setIOSBundleVersion (version : string)
| call_setPreference (name value : string) (platform : option string)
| call_removeAccessOrigins
| call_removeAccessOrigin (origin : string)
| call_setAccessOrigin (origin : string) (options : option (gmap string string))
| call_addHook (type src : string)
| call_addRawXML (raw : string) (atXPath ifXPathDoesNotExist : option string).

Definition run {host : Host} (c : call) : M world unit :=
  match c with
  | call_setID id => setID id
  | call_setVersion version => setVersion version
  | call_setAndroidVersionCode versionCode => setAndroidVersionCode versionCode
  | call_setIOSBundleVersion version => setIOSBundleVersion version
  | call_setPreference name value platform => setPreference name value platform
  | call_removeAccessOrigins => removeAccessOrigins
  | call_removeAccessOrigin origin => removeAccessOrigin origin
  | call_setAccessOrigin origin options => setAccessOrigin origin options
  | call_addHook type src => addHook type src
  | call_addRawXML raw atXPath ifXPathDoesNotExist =>
      addRawXML raw atXPath ifXPathDoesNotExist
  end.

(** The message of [parse] for a root tagged [found]. *)
Definition root_tag_message (file found : string) : string :=
  file +:+ " has incorrect root node name (expected "
       +:+ JsString.dquote +:+ "widget" +:+ JsString.dquote +:+ ", was "
       +:+ JsString.dquote +:+ found +:+ JsString.dquote +:+ ")".

(** An environment for examples: two files, and a parser that knows three
    texts. *)
Definition example_host : Host := {|
  readFileSync file :=
    if String.eqb file "config.xml" then Some "<widget/>"
    else if String.eqb file "plugin.xml" then Some "<plugin/>"
    else None;
  parseXML text :=
    if String.eqb text "<widget/>" then Some (et.Markup "widget" ∅ None [])
    else if String.eqb text "<plugin/>" then Some (et.Markup "plugin" ∅ None [])
    else if String.eqb text "<foo/>" then Some (et.Markup "foo" ∅ None [])
    else None |}.

(** A document with the origin [https://a.com] allowed twice. *)
Definition access_leaf (id : N) (origin : string) : et.Element :=
  et.mkElement id "access" {["origin" := origin]} None [].

Definition example_world : world :=
  World 6 (mkConfig "config.xml" (et.mkElementTree
    (et.mkElement 0 "widget" {["id" := "com.example.app"]} None
       [access_leaf 1 "https://a.com";
        et.mkElement 2 "name" ∅ (Some "App") [];
        access_leaf 3 "https://b.com";
        access_leaf 4 "https://a.com";
        et.mkElement 5 "platform" {["name" := "ios"]} None []]))).

(** The document [<widget/>], just loaded. *)
Definition empty_widget : world :=
  World 1 (mkConfig "config.xml" (et.mkElementTree (et.mkElement 0 "widget" ∅ None []))).

(** A list without its first element satisfying [p]. *)
Fixpoint without_first {A} (p : A → bool) (l : list A) : list A :=
  match l with
  | [] => []
  | a :: l' => if p a then l' else a :: without_first p l'
  end.

Definition is_access_for (origin : string) (e : et.Element) : bool :=
  et.has_tag "access" e && et.has_attr "origin" origin e.

(** A nonempty run of decimal digits, and the strings
    [MAJOR.MINOR.PATCH]. *)
Definition number (s : string) : Prop :=
  s ≠ "" ∧ Forall (λ c, RegExp.is_digit c = true) (list_ascii_of_string s).

Definition MAJOR_MINOR_PATCH (s : string) : Prop :=
  ∃ major minor patch,
    number major ∧ number minor ∧ number patch ∧
    s = major +:+ "." +:+ minor +:+ "." +:+ patch.

(** ** The other methods of [src/index.js]

    [setElement] and the three setters built on it.  An argument that the
    source tests with [typeof] or against [undefined] is a [jsval]; the
    attributes argument is [undefined], [null] or an object of strings. *)

Inductive jsval : Type :=
| Undefined
| Null
| Str (s : string)
| Obj (o : gmap string string).

Inductive attributes : Type :=
| NoAttributes                              (* [undefined] *)
| NullAttributes                            (* [null] *)
| Attributes (o : gmap string string).

(** [typeof v === 'object'] *)
Definition typeof_is_object (v : jsval) : bool :=
  match v with
  | Null | Obj _ => true
  | Undefined | Str _ => false
  end.

(** A value whose [typeof] is ['object'], taken as the attributes. *)
Definition as_attributes (v : jsval) : attributes :=
  match v with
  | Obj o => Attributes o
  | Null => NullAttributes
  | Undefined | Str _ => NoAttributes
  end.

(** [text || ''], for a text that is a string or [undefined]. *)
Definition or_empty (text : jsval) : string :=
  match text with
  | Str s => s
  | _ => ""
  end.

(** [node.text = value] and [node.attrib = {}] *)
Definition Element_setText (value : string) (node : et.Element) : et.Element :=
  et.mkElement (et._id node) (et.tag node) (et.attrib node) (Some value) (et._children node).

Definition Element_clearAttrib (node : et.Element) : et.Element :=
  et.mkElement (et._id node) (et.tag node) ∅ (et.text node) (et._children node).

(** *** [setElement] (lines 108-135)

    [Object.keys(null)] throws a [TypeError]; it is recorded under the name
    [keys]. *)
Definition setElement (tag : string) (text : jsval) (attribs : attributes) : M world unit :=
  let attribs := if typeof_is_object text then as_attributes text else attribs in
  let text := if typeof_is_object text then Str "" else text in
  elementTag ← doc_find ("./" +:+ tag);
  elementTag ←
    match elementTag with
    | Some e => mret e
    | None =>
        e ← alloc (new_Element tag);
        root_append e;;
        mret e
    end;
  mutate elementTag (Element_setText (or_empty text));;
  mutate elementTag Element_clearAttrib;;
  match attribs with
  | NoAttributes => mret tt
  | NullAttributes => throw (TypeError "keys")
  | Attributes o =>
      forEach (map_to_list o) (λ kv, mutate elementTag (et.setAttribute kv.1 kv.2))
  end.

(** *** [setName] (lines 97-99) and [setDescription] (lines 142-144) *)
Definition setName (name : jsval) : M world unit :=
  setElement "name" name NoAttributes.

Definition setDescription (description : jsval) : M world unit :=
  setElement "description" description NoAttributes.

(** *** [setAuthor] (lines 153-165) *)
Definition setAuthor (name : jsval) (email website : option string) : M world unit :=
  let attribs : gmap string string := ∅ in
  let attribs :=
    if JsString.truthy email then <["email" := default "" email]> attribs else attribs in
  let attribs :=
    if JsString.truthy website then <["href" := default "" website]> attribs else attribs in
  setElement "author" name (Attributes attribs).

(** ** Vocabulary of the further properties *)

(** A tag made of letters, digits, [_] and [-], and not empty. *)
Definition plain_name (name : string) : bool :=
  negb (String.eqb name "") &&
  forallb (λ c, RegExp.is_word c || Ascii.eqb c "-") (list_ascii_of_string name).

(** A string without a double quote: what a path can carry between the
    quotes of its closing test.  The module builds such paths by pasting
    an argument between two double quotes (lines 226, 238 and 271). *)
Definition quote_free (s : string) : bool :=
  forallb (λ c, negb (Ascii.eqb c "034")) (list_ascii_of_string s).

(** The paths that the lookup is modelled for: [.], children by plain
    tags, and, closing the path after such a child, the test of a plain
    attribute against a value without a double quote. *)
Fixpoint plain_steps (sels : list et.selector) : bool :=
  match sels with
  | [] => true
  | [et.Child name; et.AttrEq key value] =>
      plain_name name && plain_name key && quote_free value
  | et.Child name :: rest => plain_name name && plain_steps rest
  | et.AttrEq _ _ :: _ => false
  end.

Definition well_formed (path : string) : bool :=
  match et.selectors path with
  | Some sels => plain_steps sels
  | None => false
  end.

(** What [setElement] makes of a node: the text and the attributes are
    replaced, the rest is kept. *)
Definition rewritten (text : string) (attrib : gmap string string) (e : et.Element) : et.Element :=
  et.mkElement (et._id e) (et.tag e) attrib (Some text) (et._children e).

(** The attributes [setElement] ends up writing, when it returns. *)
Definition written_attributes (text : jsval) (attribs : attributes) : gmap string string :=
  match (if typeof_is_object text then as_attributes text else attribs) with
  | Attributes o => o
  | _ => ∅
  end.

(** [setElement] reaches [Object.keys(null)]. *)
Definition null_attributes (text : jsval) (attribs : attributes) : bool :=
  match (if typeof_is_object text then as_attributes text else attribs) with
  | NullAttributes => true
  | _ => false
  end.

(** A list with [f] applied to its first element satisfying [p]. *)
Fixpoint replace_first {A} (p : A → bool) (f : A → A) (l : list A) : list A :=
  match l with
  | [] => []
  | a :: l' => if p a then f a :: l' else a :: replace_first p f l'
  end.

(** Every method modelled, and a client that makes calls one after the
    other, going on after a call that throws. *)
Inductive method : Type :=
| method_call (c : call)
| method_setElement (tag : string) (text : jsval) (attribs : attributes)
| method_setName (name : jsval)
| method_setDescription (description : jsval)
| method_setAuthor (name : jsval) (email website : option string).

Definition perform {host : Host} (m : method) : M world unit :=
  match m with
  | method_call c => run c
  | method_setElement tag text attribs => setElement tag text attribs
  | method_setName name => setName name
  | method_setDescription description => setDescription description
  | method_setAuthor name email website => setAuthor name email website
  end.

Fixpoint session {host : Host} (ms : list method) (w : world) : world :=
  match ms with
  | [] => w
  | m :: ms' => session ms' (perform m w).2
  end.

(** The class of [[1-9]], and the class that closes the pattern of
    [setID]. *)
Definition nonzero_digit (c : ascii) : bool := RegExp.between "1" "9" c.

Definition alphanumeric (c : ascii) : bool :=
  RegExp.between "0" "9" c || RegExp.between "a" "z" c || RegExp.between "A" "Z" c.

Definition id_tail_class : list RegExp.item :=
  [RegExp.Rng "a" "z"; RegExp.Rng "A" "Z"; RegExp.Rng "0" "9"; RegExp.Chr "-";
   RegExp.Chr "."; RegExp.Chr "?"; RegExp.Chr ","; RegExp.Chr "'"; RegExp.Chr "/";
   RegExp.Chr "+"; RegExp.Chr "&"; RegExp.Chr "a"; RegExp.Chr "m"; RegExp.Chr "p";
   RegExp.Chr ";"; RegExp.Chr "%"; RegExp.Chr "$"; RegExp.Chr "#"; RegExp.Chr "_"].

(** A run of decimal digits, possibly empty. *)
Definition digits (s : string) : Prop :=
  Forall (λ c, RegExp.is_digit c = true) (list_ascii_of_string s).

(** A code unit that the [.] of a pattern matches. *)
Definition any_but_newline (c : ascii) : Prop := RegExp.line_terminator c = false.

(** How [setElement] ends: it throws exactly when it reaches
    [Object.keys(null)]. *)
Definition outcome (text : jsval) (attribs : attributes) : completion unit :=
  if null_attributes text attribs then Throw (TypeError "keys") else Normal tt.

(** The text of the node a path finds. *)
Definition text_at (path : string) (w : world) : option string :=
  match et.find path (_root (this w)) with
  | Some e => et.text e
  | None => None
  end.

(** A further component of a bundle version: a separator, which the
    compiled pattern lets be any code unit but a line terminator, and a
    number. *)
Definition component (s : string) : Prop :=
  ∃ x n, s = String x n ∧ any_but_newline x ∧ number n.

(** A digit from 1 to 9, digits, and at most two further components. *)
Definition ios_bundle_version (s : string) : Prop :=
  ∃ c ds rest,
    s = String c ds +:+ rest ∧ nonzero_digit c = true ∧ digits ds ∧
    (rest = "" ∨ component rest ∨
     ∃ g1 g2, rest = g1 +:+ g2 ∧ component g1 ∧ component g2).

(** A code unit of the class that closes the pattern of [setID]. *)
Definition id_char (c : ascii) : bool := existsb (RegExp.item_has c) id_tail_class.

(** [may_hold c r]: the code unit [c] can occur in a string that [r]
    denotes. *)
Fixpoint may_hold (c : ascii) (r : RegExp.re) : bool :=
  match r with
  | RegExp.Fail | RegExp.Eps => false
  | RegExp.Any => true
  | RegExp.Dot => negb (RegExp.line_terminator c)
  | RegExp.Lit a => Ascii.eqb a c
  | RegExp.Cls neg items => xorb neg (existsb (RegExp.item_has c) items)
  | RegExp.Seq r1 r2 | RegExp.Alt r1 r2 => may_hold c r1 || may_hold c r2
  | RegExp.Star r1 => may_hold c r1
  end.

(** What no method changes: the file name, and the identity and the tag of
    the root; and the counter of created nodes never goes back. *)
Definition same_document (w w' : world) : Prop :=
  _file (this w') = _file (this w) ∧
  et._id (_root (this w')) = et._id (_root (this w)) ∧
  et.tag (_root (this w')) = et.tag (_root (this w)) ∧
  (element_ids w ≤ element_ids w')%N.

(** A computation that keeps them, whether it returns or throws. *)
Definition keeps {A} (m : M world A) : Prop := ∀ w, same_document w (m w).2.

(** * Facts

    ** Strings *)

Module StringFacts.
Import JsString.

Lemma indexOf_cons c s pat :
  indexOf (String c s) pat =
  if startsWith pat (String c s) then 0%Z
  else if (indexOf s pat <? 0)%Z then (-1)%Z else (indexOf s pat + 1)%Z.
Proof. reflexivity. Qed.

Lemma startsWith_cons a pat c s :
  startsWith (String a pat) (String c s) = if Ascii.eqb a c then startsWith pat s else false.
Proof. reflexivity. Qed.

Lemma app_cons c s t : String c s +:+ t = String c (s +:+ t).
Proof. reflexivity. Qed.

Lemma app_nil s : "" +:+ s = s.
Proof. reflexivity. Qed.

Lemma startsWith_app pat rest : startsWith pat (pat +:+ rest) = true.
Proof.
  induction pat as [|a pat IH]; [done|].
  rewrite app_cons; simpl. by rewrite Ascii.eqb_refl.
Qed.

Lemma startsWith_inv pat s :
  startsWith pat s = true → s = pat +:+ skip (String.length pat) s.
Proof.
  revert s; induction pat as [|a pat IH]; intros [|b s]; simpl; try done.
  destruct (Ascii.eqb a b) eqn:E; [|done].
  apply Ascii.eqb_eq in E as ->. intros H.
  rewrite app_cons. f_equal. by apply IH.
Qed.

Lemma skip_app pat rest : skip (String.length pat) (pat +:+ rest) = rest.
Proof. induction pat; [done|]. by rewrite app_cons. Qed.

Lemma indexOf_0 s pat : indexOf s pat = 0%Z ↔ startsWith pat s = true.
Proof.
  destruct s as [|c s]; simpl.
  - destruct (startsWith pat ""); split; try done.
  - destruct (startsWith pat (String c s)); split; try done.
    destruct (indexOf s pat <? 0)%Z eqn:E; [done|].
    apply Z.ltb_ge in E. lia.
Qed.

Lemma replace_prefix pat rest rep : replace (pat +:+ rest) pat rep = rep +:+ rest.
Proof.
  destruct (pat +:+ rest) eqn:E; simpl; rewrite <- E;
    by rewrite startsWith_app, skip_app.
Qed.

Lemma replace_unfold s pat rep :
  replace s pat rep
  = if startsWith pat s then rep +:+ skip (String.length pat) s
    else match s with
         | EmptyString => EmptyString
         | String c s' => String c (replace s' pat rep)
         end.
Proof. by destruct s. Qed.

End StringFacts.

(** ** The matcher decides the denotation *)

Module RegExpFacts.
Import RegExp.

Lemma app_eq_nil s1 s2 : s1 +:+ s2 = "" → s1 = "" ∧ s2 = "".
Proof. destruct s1; [done|]. by rewrite StringFacts.app_cons. Qed.

Lemma app_assoc s1 s2 s3 : (s1 +:+ s2) +:+ s3 = s1 +:+ (s2 +:+ s3).
Proof.
  induction s1 as [|c s1 IH]; [done|].
  rewrite !StringFacts.app_cons. by f_equal.
Qed.

Lemma app_nil_r s : s +:+ "" = s.
Proof.
  induction s as [|c s IH]; [done|].
  rewrite StringFacts.app_cons. by f_equal.
Qed.

Lemma lang_accepts1 b s : lang (accepts1 b) s ↔ b = true ∧ s = "".
Proof.
  destruct b; simpl; split.
  - by inversion 1.
  - intros [_ ->]. constructor.
  - inversion 1.
  - by intros [? _].
Qed.

Lemma nullable_spec r : nullable r = true ↔ lang r "".
Proof.
  induction r as [| | | | c |neg items|r1 IH1 r2 IH2|r1 IH1 r2 IH2|r IH]; simpl.
  1,3-6: split; [done | inversion 1].
  - split; [constructor | done].
  - rewrite andb_true_iff, IH1, IH2. split.
    + intros [H1 H2]. apply (lang_seq _ _ "" "" H1 H2).
    + inversion 1 as [| | | | |? ? s1 s2 H1 H2 E1 E2| | | |]; subst.
      apply app_eq_nil in E2 as [-> ->]. done.
  - rewrite orb_true_iff, IH1, IH2. split.
    + intros [H|H]; [by apply lang_alt_l | by apply lang_alt_r].
    + inversion 1; subst; auto.
  - split; [constructor | done].
Qed.

Lemma lang_seq_cons r1 r2 c s :
  lang (Seq r1 r2) (String c s) ↔
  (∃ s1 s2, s = s1 +:+ s2 ∧ lang r1 (String c s1) ∧ lang r2 s2) ∨
  (lang r1 "" ∧ lang r2 (String c s)).
Proof.
  split.
  - inversion 1 as [| | | | |? ? s1 s2 H1 H2 E1 E2| | | |]; subst.
    destruct s1 as [|a s1].
    + right. by rewrite StringFacts.app_nil in E2; subst.
    + left. rewrite StringFacts.app_cons in E2. injection E2 as -> <-. eauto.
  - intros [(s1 & s2 & -> & H1 & H2)|[H1 H2]].
    + rewrite <- StringFacts.app_cons. by constructor.
    + rewrite <- (StringFacts.app_nil (String c s)). by constructor.
Qed.

Lemma lang_star_cons r c s :
  lang (Star r) (String c s) →
  ∃ s1 s2, s = s1 +:+ s2 ∧ lang r (String c s1) ∧ lang (Star r) s2.
Proof.
  remember (Star r) as r' eqn:Er. remember (String c s) as s' eqn:Es.
  intros H. revert s Es.
  induction H as [| | | | | | | | |r0 s1 s2 H1 _ H2 IH2]; intros t Es; try done.
  injection Er as ->.
  destruct s1 as [|a s1].
  - rewrite StringFacts.app_nil in Es. by apply IH2.
  - rewrite StringFacts.app_cons in Es. injection Es as -> <-. eauto.
Qed.

Lemma deriv_spec c r s : lang (deriv c r) s ↔ lang r (String c s).
Proof.
  revert s.
  induction r as [| | | | a |neg items|r1 IH1 r2 IH2|r1 IH1 r2 IH2|r IH];
    intros s; simpl.
  - split; inversion 1.
  - split; inversion 1.
  - split; [inversion 1; constructor | inversion 1; constructor].
  - rewrite lang_accepts1. split.
    + intros [H ->]. constructor. by apply negb_true_iff.
    + inversion 1; subst. split; [by apply negb_true_iff | done].
  - rewrite lang_accepts1. split.
    + intros [H ->]. apply Ascii.eqb_eq in H as ->. constructor.
    + inversion 1; subst. split; [apply Ascii.eqb_refl | done].
  - rewrite lang_accepts1. split.
    + intros [H ->]. by constructor.
    + by inversion 1; subst.
  - rewrite lang_seq_cons. destruct (nullable r1) eqn:N.
    + split.
      * inversion 1 as [| | | | | |? ? ? H1|? ? ? H2| |]; subst.
        -- inversion H1 as [| | | | |? ? s1 s2 Ha Hb| | | |]; subst.
           left. exists s1, s2. by rewrite <- IH1.
        -- right. split; [by apply nullable_spec | by apply IH2].
      * intros [(s1 & s2 & -> & H1 & H2)|[H1 H2]].
        -- apply lang_alt_l. constructor; [by apply IH1 | done].
        -- apply lang_alt_r. by apply IH2.
    + split.
      * inversion 1 as [| | | | |? ? s1 s2 Ha Hb| | | |]; subst.
        left. exists s1, s2. by rewrite <- IH1.
      * intros [(s1 & s2 & -> & H1 & H2)|[H1 H2]].
        -- constructor; [by apply IH1 | done].
        -- apply nullable_spec in H1. congruence.
  - split.
    + inversion 1; subst; [apply lang_alt_l, IH1 | apply lang_alt_r, IH2]; done.
    + inversion 1; subst; [apply lang_alt_l, IH1 | apply lang_alt_r, IH2]; done.
  - split.
    + inversion 1 as [| | | | |? ? s1 s2 Ha Hb| | | |]; subst.
      rewrite <- StringFacts.app_cons. constructor; [by apply IH | done].
    + intros (s1 & s2 & -> & H1 & H2)%lang_star_cons.
      constructor; [by apply IH | done].
Qed.

Theorem matches_spec r s : matches r s = true ↔ lang r s.
Proof.
  revert r. induction s as [|c s IH]; intros r; simpl.
  - apply nullable_spec.
  - rewrite IH. apply deriv_spec.
Qed.


(** *** What the patterns of the module denote *)

Lemma lang_eps_inv s : lang Eps s ↔ s = "".
Proof. split; [by inversion 1 | intros ->; constructor]. Qed.

Lemma lang_seq_inv r1 r2 s :
  lang (Seq r1 r2) s ↔ ∃ s1 s2, s = s1 +:+ s2 ∧ lang r1 s1 ∧ lang r2 s2.
Proof.
  split.
  - inversion 1; subst; eauto.
  - intros (s1 & s2 & -> & H1 & H2). by constructor.
Qed.

(** A pattern anchored at both ends is tested against the whole string. *)
Lemma test_anchored b s : test (mkRegexp true true b) s = matches b s.
Proof.
  apply eq_true_iff_eq. unfold test; simpl. rewrite !matches_spec.
  rewrite lang_seq_inv. split.
  - intros (s1 & s2 & -> & ->%lang_eps_inv & (s3 & s4 & -> & H & ->%lang_eps_inv)%lang_seq_inv).
    by rewrite StringFacts.app_nil, app_nil_r.
  - intros H. exists "", s. split; [done|]. split; [constructor|].
    rewrite <- (app_nil_r s). constructor; [done | constructor].
Qed.

Lemma lang_digit s : lang digit_class s ↔ ∃ c, s = String c "" ∧ is_digit c = true.
Proof.
  unfold digit_class. split.
  - inversion 1 as [| | | |? ? c Hc| | | | |]; subst. exists c. split; [done|].
    simpl in Hc. by rewrite orb_false_r in Hc.
  - intros (c & -> & Hc). constructor. simpl. by rewrite orb_false_r.
Qed.

Lemma lang_dot s : lang Dot s ↔ ∃ c, s = String c "" ∧ line_terminator c = false.
Proof.
  split.
  - inversion 1; subst; eauto.
  - intros (c & -> & Hc). by constructor.
Qed.

Lemma lang_star_digits s :
  lang (Star digit_class) s ↔ Forall (λ c, is_digit c = true) (list_ascii_of_string s).
Proof.
  split.
  - remember (Star digit_class) as r eqn:Er. intros H.
    induction H as [| | | | | | | | |r0 s1 s2 H1 _ H2 IH2]; try done.
    injection Er as ->. apply lang_digit in H1 as (c & -> & Hc).
    rewrite StringFacts.app_cons, StringFacts.app_nil. simpl. constructor; auto.
  - induction s as [|c s IH]; simpl; [constructor|].
    intros [Hc Hs]%Forall_cons.
    change (String c s) with (String c "" +:+ s).
    constructor; [apply lang_digit; eauto | auto].
Qed.

Lemma lang_number s :
  lang (plus digit_class) s ↔
  s ≠ "" ∧ Forall (λ c, is_digit c = true) (list_ascii_of_string s).
Proof.
  unfold plus. rewrite lang_seq_inv. split.
  - intros (s1 & s2 & -> & (c & -> & Hc)%lang_digit & Hs%lang_star_digits).
    rewrite StringFacts.app_cons, StringFacts.app_nil. split; [done|].
    simpl. by constructor.
  - intros [Hne H]. destruct s as [|c s]; [done|].
    simpl in H. apply Forall_cons in H as [Hc Hs].
    exists (String c ""), s. split; [done|].
    split; [apply lang_digit; eauto | by apply lang_star_digits].
Qed.

End RegExpFacts.

(** ** The tree operations and the paths the module builds *)

Module TreeFacts.
Import et.

Lemma update_self f e : update (_id e) f e = f e.
Proof. destruct e; simpl. by rewrite N.eqb_refl. Qed.

Lemma same_refl e : same e e = true.
Proof. apply N.eqb_refl. Qed.

Lemma same_eq a b : same a b = true ↔ _id a = _id b.
Proof. apply N.eqb_eq. Qed.

Lemma ids_unfold e : ids e = _id e :: flat_map ids (_children e).
Proof. by destruct e. Qed.

(** The identities of the children are among those below the root. *)
Lemma child_ids_sublist (cs : list Element) : _id <$> cs `sublist_of` flat_map ids cs.
Proof.
  induction cs as [|c cs IH]; simpl; [constructor|].
  rewrite ids_unfold; simpl. constructor.
  by apply sublist_inserts_l.
Qed.

Lemma NoDup_child_ids e : NoDup (ids e) → NoDup (_id <$> _children e).
Proof.
  rewrite ids_unfold. intros [_ H]%NoDup_cons.
  eapply sublist_NoDup; [done | apply child_ids_sublist].
Qed.

(** With distinct identities, two children of the same identity are the
    same child. *)
Lemma same_child (cs : list Element) a b :
  NoDup (_id <$> cs) → a ∈ cs → b ∈ cs → _id a = _id b → a = b.
Proof.
  induction cs as [|c cs IH]; simpl; [by intros _ ?%elem_of_nil|].
  intros [Hc Hcs]%NoDup_cons [->|Ha]%elem_of_cons [->|Hb]%elem_of_cons E; auto.
  - exfalso. apply Hc. rewrite E. by apply list_elem_of_fmap_2.
  - exfalso. apply Hc. rewrite <- E. by apply list_elem_of_fmap_2.
Qed.

(** *** The paths the module builds *)

Lemma length_app s t : String.length (s +:+ t) = (String.length s + String.length t)%nat.
Proof. induction s; [done|]. rewrite StringFacts.app_cons; simpl. by f_equal. Qed.

Lemma take_app s t : take (String.length s) (s +:+ t) = s.
Proof. induction s; [by destruct t|]. rewrite StringFacts.app_cons; simpl. by f_equal. Qed.

Lemma skip_add n k s : JsString.skip (n + k) s = JsString.skip k (JsString.skip n s).
Proof.
  revert s; induction n as [|n IH]; intros s; [done|].
  destruct s; simpl; [by destruct k | apply IH].
Qed.

Lemma indexOf_opening key rest :
  plain_key key = true →
  JsString.indexOf (key +:+ opening +:+ rest) opening = Z.of_nat (String.length key).
Proof.
  induction key as [|c key IH]; [done|].
  intros H. unfold plain_key in H. simpl in H.
  apply andb_true_iff in H as [Hc Hk]. specialize (IH Hk).
  rewrite StringFacts.app_cons, StringFacts.indexOf_cons, IH.
  change opening with (String "=" JsString.dquote).
  rewrite StringFacts.startsWith_cons, Ascii.eqb_sym.
  apply negb_true_iff in Hc as ->.
  destruct (Z.ltb_spec (Z.of_nat (String.length key)) 0); simpl String.length; lia.
Qed.

Lemma predicate_spec key value :
  plain_key key = true →
  predicate ("[@" +:+ key +:+ opening +:+ value +:+ closing) = Some [AttrEq key value].
Proof.
  intros Hk. unfold predicate.
  change ("[@" +:+ ?s) with (String "[" (String "@" s)).
  cbn [JsString.startsWith JsString.skip Ascii.eqb Bool.eqb].
  rewrite (indexOf_opening _ _ Hk).
  destruct (Z.ltb_spec (Z.of_nat (String.length key)) 0); [lia|].
  rewrite Nat2Z.id, take_app, skip_add, StringFacts.skip_app.
  change (JsString.skip 2 (opening +:+ ?s)) with s.
  rewrite length_app. change (String.length closing) with 2%nat.
  replace (String.length value + 2 - 2)%nat with (String.length value) by lia.
  rewrite StringFacts.skip_app, take_app, String.eqb_refl.
  destruct (Nat.leb_spec 2 (String.length value + 2)); [done | lia].
Qed.

Lemma selectors_access_origin origin :
  selectors ("./access/[@origin=" +:+ JsString.dquote +:+ origin +:+ JsString.dquote +:+ "]")
  = Some [Child "access"; AttrEq "origin" origin].
Proof.
  change (selectors _) with
    (match predicate ("[@" +:+ "origin" +:+ opening +:+ origin +:+ closing) with
     | Some sels => Some (Child "access" :: sels)
     | None => None
     end).
  by rewrite predicate_spec.
Qed.

Lemma selectors_platform_name name :
  selectors ("./platform/[@name=" +:+ JsString.dquote +:+ name +:+ JsString.dquote +:+ "]")
  = Some [Child "platform"; AttrEq "name" name].
Proof.
  change (selectors _) with
    (match predicate ("[@" +:+ "name" +:+ opening +:+ name +:+ closing) with
     | Some sels => Some (Child "platform" :: sels)
     | None => None
     end).
  by rewrite predicate_spec.
Qed.

Lemma selectors_preference_name name :
  selectors ("./preference/[@name=" +:+ JsString.dquote +:+ name +:+ JsString.dquote +:+ "]")
  = Some [Child "preference"; AttrEq "name" name].
Proof.
  change (selectors _) with
    (match predicate ("[@" +:+ "name" +:+ opening +:+ name +:+ closing) with
     | Some sels => Some (Child "preference" :: sels)
     | None => None
     end).
  by rewrite predicate_spec.
Qed.

Lemma select_child_attr name key value e :
  fold_left select [Child name; AttrEq key value] [e] = children_with name key value e.
Proof.
  unfold children_with; simpl. rewrite app_nil_r, list_filter_filter.
  apply list_filter_iff. intros c. rewrite andb_true_iff. tauto.
Qed.

Lemma findall_access e :
  findall "./access" e = filter (λ c, has_tag "access" c = true) (_children e).
Proof. unfold findall; simpl. by rewrite app_nil_r. Qed.

Lemma find_access_origin origin e :
  find ("./access/[@origin=" +:+ JsString.dquote +:+ origin +:+ JsString.dquote +:+ "]") e
  = head (children_with "access" "origin" origin e).
Proof.
  unfold find, findall. by rewrite selectors_access_origin, select_child_attr.
Qed.

Lemma find_platform_name name e :
  find ("./platform/[@name=" +:+ JsString.dquote +:+ name +:+ JsString.dquote +:+ "]") e
  = head (children_with "platform" "name" name e).
Proof.
  unfold find, findall. by rewrite selectors_platform_name, select_child_attr.
Qed.

Lemma find_preference_name name e :
  find ("./preference/[@name=" +:+ JsString.dquote +:+ name +:+ JsString.dquote +:+ "]") e
  = head (children_with "preference" "name" name e).
Proof.
  unfold find, findall. by rewrite selectors_preference_name, select_child_attr.
Qed.


(** *** Removing children *)

Lemma filter_ext_in {A} (P Q : A → Prop) `{!∀ x, Decision (P x), !∀ x, Decision (Q x)}
    (l : list A) :
  (∀ x, x ∈ l → (P x ↔ Q x)) → filter P l = filter Q l.
Proof.
  induction l as [|a l IH]; intros Hext; [done|].
  rewrite !filter_cons, IH.
  - destruct (decide (P a)) as [HP|HP], (decide (Q a)) as [HQ|HQ]; try done.
    + exfalso. apply HQ, Hext; [apply list_elem_of_here | done].
    + exfalso. apply HP, Hext; [apply list_elem_of_here | done].
  - intros x Hx. apply Hext. by apply list_elem_of_further.
Qed.

Lemma filter_all {A} (P : A → Prop) `{!∀ x, Decision (P x)} (l : list A) :
  (∀ x, x ∈ l → P x) → filter P l = l.
Proof.
  induction l as [|a l IH]; intros Hall; [done|].
  rewrite filter_cons, decide_True by (apply Hall, list_elem_of_here).
  f_equal. apply IH. intros x Hx. by apply Hall, list_elem_of_further.
Qed.

Lemma fold_remove (tags : list Element) (r : Element) :
  fold_left (λ r t, remove t r) tags r
  = with_children (filter (λ c, _id c ∉ (_id <$> tags)) (_children r)) r.
Proof.
  revert r. induction tags as [|t tags IH]; intros r; simpl.
  - destruct r; unfold with_children; simpl. f_equal.
    symmetry. apply filter_all. intros c _. apply not_elem_of_nil.
  - rewrite IH. unfold with_children, remove; simpl. f_equal.
    rewrite list_filter_filter. apply list_filter_iff. intros c.
    rewrite not_elem_of_cons. unfold same.
    destruct (N.eqb_spec (_id c) (_id t)); split; intros [? ?]; try done; by split.
Qed.

(** Taking out, one by one, the children that satisfy [P] leaves those that
    do not. *)
Lemma remove_found (P : Element → Prop) `{!∀ x, Decision (P x)} (cs : list Element) :
  NoDup (_id <$> cs) →
  filter (λ c, _id c ∉ (_id <$> filter P cs)) cs = filter (λ c, ¬ P c) cs.
Proof.
  intros Hnd. apply filter_ext_in. intros c Hc. split.
  - intros Hout HP. apply Hout, list_elem_of_fmap_2. by apply list_elem_of_filter.
  - intros HnP (c' & E & [HP Hc']%list_elem_of_filter)%list_elem_of_fmap.
    apply HnP. by rewrite (same_child cs c c' Hnd Hc Hc' E).
Qed.

(** Taking out the first child that satisfies [p]. *)
Lemma remove_first (p : Element → bool) (cs : list Element) :
  NoDup (_id <$> cs) →
  match head (filter (λ c, p c = true) cs) with
  | Some found => filter (λ e, same e found = false) cs
  | None => cs
  end = without_first p cs.
Proof.
  induction cs as [|c cs IH]; [done|].
  rewrite fmap_cons. intros [Hc Hcs]%NoDup_cons. specialize (IH Hcs).
  rewrite filter_cons. simpl. destruct (decide (p c = true)) as [Hp|Hp].
  - rewrite Hp. simpl. rewrite filter_cons, same_refl.
    destruct (decide (true = false)); [done|].
    apply filter_all. intros e He. unfold same.
    destruct (N.eqb_spec (_id e) (_id c)) as [E|]; [|done].
    exfalso. apply Hc. rewrite <- E. by apply list_elem_of_fmap_2.
  - apply not_true_is_false in Hp. rewrite Hp.
    destruct (head (filter (λ c0, p c0 = true) cs)) as [found|] eqn:Hh.
    + assert (found ∈ cs) as Hin.
      { apply head_Some_elem_of in Hh. by apply list_elem_of_filter in Hh as [_ ?]. }
      assert (same c found = false) as Hne.
      { apply N.eqb_neq. intros E. apply Hc. rewrite E. by apply list_elem_of_fmap_2. }
      rewrite filter_cons, decide_True by done. by f_equal.
    + by f_equal.
Qed.

Lemma filter_without_first (p : Element → bool) (cs : list Element) :
  filter (λ c, p c = true) (without_first p cs) = tail (filter (λ c, p c = true) cs).
Proof.
  induction cs as [|c cs IH]; [done|]. simpl.
  rewrite filter_cons. destruct (p c) eqn:Hp.
  - by rewrite decide_True.
  - rewrite decide_False by done. rewrite filter_cons, decide_False by congruence.
    done.
Qed.

Lemma without_first_sublist {A} (p : A → bool) (l : list A) : without_first p l `sublist_of` l.
Proof.
  induction l as [|a l IH]; simpl; [done|].
  destruct (p a); [by apply sublist_cons | by apply sublist_skip].
Qed.

Lemma flat_map_sublist {A B} (f : A → list B) (l k : list A) :
  l `sublist_of` k → flat_map f l `sublist_of` flat_map f k.
Proof.
  induction 1 as [|x l k _ IH|x l k _ IH]; simpl; [done| |].
  - by apply sublist_app.
  - by apply sublist_inserts_l.
Qed.

(** *** Attributes copied from an object *)

Lemma fold_setAttribute (l : list (string * string)) (e : Element) :
  NoDup l.*1 →
  fold_left (λ e kv, setAttribute kv.1 kv.2 e) l e
  = mkElement (_id e) (tag e) (list_to_map l ∪ attrib e) (text e) (_children e).
Proof.
  revert e. induction l as [|[k v] l IH]; intros e; simpl.
  - intros _. destruct e; simpl. f_equal. by rewrite (left_id_L ∅ (∪)).
  - intros [Hk Hl]%NoDup_cons. rewrite (IH _ Hl). unfold setAttribute; simpl.
    f_equal. rewrite <- insert_union_l. symmetry.
    apply insert_union_r. by apply not_elem_of_list_to_map_1.
Qed.

End TreeFacts.

(** ** Nodes inside a tree *)

Module NodeFacts.
Import et TreeFacts.

Lemma Element_nested_ind (P : Element → Prop) :
  (∀ i t a x cs, Forall P cs → P (mkElement i t a x cs)) → ∀ e, P e.
Proof.
  intros step. fix IH 1. intros [i t a x cs]. apply step.
  induction cs as [|c cs IHcs]; constructor; [apply IH | exact IHcs].
Qed.

Lemma markup_nested_ind (P : markup → Prop) :
  (∀ t a x ms, Forall P ms → P (Markup t a x ms)) → ∀ m, P m.
Proof.
  intros step. fix IH 1. intros [t a x ms]. apply step.
  induction ms as [|m ms IHms]; constructor; [apply IH | exact IHms].
Qed.

Lemma lookup_unfold i e :
  lookup i e = if N.eqb (_id e) i then Some e else first_some (lookup i) (_children e).
Proof. by destruct e. Qed.

Lemma update_unfold i f e :
  update i f e = if N.eqb (_id e) i then f e
                 else with_children (update i f <$> _children e) e.
Proof. by destruct e. Qed.

(** A change made to the node of identity [i] is seen when that node is
    looked up. *)
Lemma lookup_update i f e :
  (∀ x, _id (f x) = _id x) →
  lookup i (update i f e) = f <$> lookup i e.
Proof.
  intros Hid. induction e as [j t a x cs IH] using Element_nested_ind.
  rewrite update_unfold, (lookup_unfold i (mkElement j t a x cs)). simpl.
  destruct (N.eqb_spec j i) as [->|Hne].
  - rewrite lookup_unfold, Hid. simpl. by rewrite N.eqb_refl.
  - rewrite lookup_unfold. simpl. apply N.eqb_neq in Hne as ->.
    induction IH as [|c cs Hc _ IHcs]; [done|].
    rewrite fmap_cons. simpl. rewrite Hc, IHcs. by destruct (lookup i c).
Qed.

Lemma lookup_None i e : i ∉ ids e → lookup i e = None.
Proof.
  induction e as [j t a x cs IH] using Element_nested_ind.
  rewrite lookup_unfold; simpl. rewrite not_elem_of_cons. intros [Hne Hcs].
  destruct (N.eqb_spec j i) as [E|_]; [done|].
  induction IH as [|c cs Hc _ IHcs]; [done|]. simpl in *.
  rewrite elem_of_app in Hcs. rewrite Hc, IHcs; tauto.
Qed.

Lemma inside_ids node e : inside node e → _id node ∈ ids e.
Proof.
  induction 1 as [|c e Hc _ IH].
  - rewrite ids_unfold. apply list_elem_of_here.
  - rewrite ids_unfold. apply list_elem_of_further.
    apply list_elem_of_In, in_flat_map. exists c.
    by rewrite <- !list_elem_of_In.
Qed.

Lemma inside_trans a b c : inside a b → inside b c → inside a c.
Proof.
  intros Hab Hbc. induction Hbc as [|d e Hd _ IH]; [done|].
  by apply (inside_child _ d).
Qed.

(** With distinct identities, a node inside the tree is the one found
    under its identity. *)
Lemma lookup_inside node e :
  NoDup (ids e) → inside node e → lookup (_id node) e = Some node.
Proof.
  induction e as [j t a x cs IH] using Element_nested_ind.
  intros Hnd Hin. rewrite lookup_unfold.
  inversion Hin as [E|c e' Hc Hnode E]; [by rewrite N.eqb_refl|]. subst e'.
  simpl in Hc, Hnd. apply NoDup_cons in Hnd as [Hj Hnd].
  pose proof (inside_ids _ _ Hnode) as Hid.
  cbn [_id _children]. destruct (N.eqb_spec j (_id node)) as [E|_].
  { exfalso. apply Hj. rewrite E. apply list_elem_of_In, in_flat_map.
    exists c. by rewrite <- !list_elem_of_In. }
  clear Hj Hin. induction IH as [|c' cs Hc' _ IHcs]; [by apply elem_of_nil in Hc|].
  simpl in Hnd. apply NoDup_app in Hnd as (Hnd1 & Hdisj & Hnd2). simpl.
  apply elem_of_cons in Hc as [<-|Hc].
  - by rewrite Hc'.
  - rewrite lookup_None, IHcs; try done.
    intros Hbad. apply (Hdisj _ Hbad).
    apply list_elem_of_In, in_flat_map. exists c. by rewrite <- !list_elem_of_In.
Qed.

(** What a path selects lies inside the node the search starts from. *)
Lemma select_inside e nodes sel :
  Forall (λ n, inside n e) nodes → Forall (λ n, inside n e) (select nodes sel).
Proof.
  rewrite !Forall_forall. intros Hall n. destruct sel as [name|key value]; simpl.
  - rewrite list_elem_of_In, in_flat_map. intros (p & Hp & Hn).
    apply list_elem_of_In in Hp, Hn. apply list_elem_of_filter in Hn as [_ Hn].
    apply (inside_trans _ p); [|by apply Hall].
    apply (inside_child _ n); [done | constructor].
  - intros [_ Hn]%list_elem_of_filter. by apply Hall.
Qed.

Lemma fold_select_inside e sels nodes :
  Forall (λ n, inside n e) nodes → Forall (λ n, inside n e) (fold_left select sels nodes).
Proof.
  revert nodes. induction sels as [|sel sels IH]; intros nodes Hall; [done|].
  simpl. by apply IH, select_inside.
Qed.

Lemma find_inside path e node : find path e = Some node → inside node e.
Proof.
  unfold find, findall. destruct (selectors path) as [sels|]; [|done].
  intros Hhead%head_Some_elem_of.
  assert (Forall (λ n, inside n e) (fold_left select sels [e])) as Hall.
  { apply fold_select_inside. repeat constructor. }
  rewrite Forall_forall in Hall. by apply Hall.
Qed.

End NodeFacts.

(** ** How the computations of the module run *)

Module RunFacts.

Lemma bind_run {S A B} (m : M S A) (k : A → M S B) (s : S) :
  (m ≫= k) s = match m s with
               | (Normal a, s') => k a s'
               | (Throw e, s') => (Throw e, s')
               end.
Proof. reflexivity. Qed.

Lemma root_append_run child w :
  root_append child w = (Normal tt, with_root (et.append child (_root (this w))) w).
Proof.
  unfold root_append, mutate, modify, this_root, gets. rewrite bind_run.
  by rewrite TreeFacts.update_self.
Qed.

Lemma root_remove_run child w :
  root_remove child w = (Normal tt, with_root (et.remove child (_root (this w))) w).
Proof.
  unfold root_remove, mutate, modify, this_root, gets. rewrite bind_run.
  by rewrite TreeFacts.update_self.
Qed.

Lemma set_root_attribute_run key value w :
  (this_root ≫= λ root, mutate root (et.setAttribute key value)) w
  = (Normal tt, with_root (et.setAttribute key value (_root (this w))) w).
Proof.
  unfold mutate, modify, this_root, gets. rewrite bind_run.
  by rewrite TreeFacts.update_self.
Qed.

Lemma alloc_Element_run tag w :
  alloc (new_Element tag) w
  = (Normal (et.mkElement (element_ids w) tag ∅ None []),
     World (N.succ (element_ids w)) (this w)).
Proof. reflexivity. Qed.

Lemma with_root_id w : with_root (_root (this w)) w = w.
Proof. by destruct w as [n [f [r]]]. Qed.

Lemma Array_indexOf_absent l x : Array_indexOf l x = (-1)%Z ↔ x ∉ l.
Proof.
  induction l as [|y l IH]; simpl.
  - split; [intros _; apply not_elem_of_nil | done].
  - rewrite not_elem_of_cons. destruct (String.eqb_spec y x) as [->|Hne].
    + split; [done | by intros [? _]].
    + destruct (Z.ltb_spec (Array_indexOf l x) 0) as [Hlt|Hge].
      * split; [intros _ | done]. split; [done|]. apply IH.
        clear -Hlt. induction l as [|z l IHl]; simpl in *; [done|].
        destruct (String.eqb z x); [lia|].
        destruct (Z.ltb_spec (Array_indexOf l x) 0); [done | lia].
      * split; [lia|]. intros [_ Hx]. apply IH in Hx. lia.
Qed.

(** The four patterns compile; each is anchored at both ends. *)
Lemma patterns_compile :
  ∀ p, p ∈ [id_pattern; version_pattern; android_version_code_pattern;
            ios_bundle_version_pattern] →
       ∃ body, RegExp.RegExp p = Some (RegExp.mkRegexp true true body).
Proof.
  intros p Hp. repeat (apply elem_of_cons in Hp as [->|Hp]);
    [eexists; vm_compute; reflexivity ..|].
  by apply elem_of_nil in Hp.
Qed.

(** A validated setter: the check, then one write on the root. *)
Lemma validated_setter_run pattern message key value w :
  (∃ r, RegExp.RegExp pattern = Some r) →
  (new_RegExp pattern ≫= λ regex,
     if negb (RegExp.test regex value) then throw (Error message)
     else this_root ≫= λ root, mutate root (et.setAttribute key value)) w
  = if valid pattern value
    then (Normal tt, with_root (et.setAttribute key value (_root (this w))) w)
    else (Throw (Error message), w).
Proof.
  intros [r Hr]. unfold valid, new_RegExp. rewrite Hr, bind_run. simpl.
  destruct (RegExp.test r value); simpl; [apply set_root_attribute_run | done].
Qed.

Lemma pattern_compiles p :
  p ∈ [id_pattern; version_pattern; android_version_code_pattern;
       ios_bundle_version_pattern] →
  ∃ r, RegExp.RegExp p = Some r.
Proof. intros (body & ->)%patterns_compile. eauto. Qed.

Lemma setID_run id w :
  setID id w
  = if valid id_pattern id
    then (Normal tt, with_root (et.setAttribute "id" id (_root (this w))) w)
    else (Throw (Error "Please provide a valid id."), w).
Proof.
  unfold setID. apply (validated_setter_run id_pattern), pattern_compiles.
  apply list_elem_of_here.
Qed.

Lemma setVersion_run version w :
  setVersion version w
  = if valid version_pattern version
    then (Normal tt, with_root (et.setAttribute "version" version (_root (this w))) w)
    else (Throw (Error "Please provide a valid version number."), w).
Proof.
  unfold setVersion. apply (validated_setter_run version_pattern), pattern_compiles.
  apply list_elem_of_further, list_elem_of_here.
Qed.

Lemma setAndroidVersionCode_run code w :
  setAndroidVersionCode code w
  = if valid android_version_code_pattern code
    then (Normal tt,
          with_root (et.setAttribute "android-versionCode" code (_root (this w))) w)
    else (Throw (Error "Please provide a valid Android version code."), w).
Proof.
  unfold setAndroidVersionCode.
  apply (validated_setter_run android_version_code_pattern), pattern_compiles.
  apply list_elem_of_further, list_elem_of_further, list_elem_of_here.
Qed.

Lemma setIOSBundleVersion_run version w :
  setIOSBundleVersion version w
  = if valid ios_bundle_version_pattern version
    then (Normal tt,
          with_root (et.setAttribute "ios-CFBundleVersion" version (_root (this w))) w)
    else (Throw (Error "Please provide a valid iOS bundle version number."), w).
Proof.
  unfold setIOSBundleVersion.
  apply (validated_setter_run ios_bundle_version_pattern), pattern_compiles.
  do 3 apply list_elem_of_further. apply list_elem_of_here.
Qed.

Lemma addHook_recognised type src w :
  type ∈ cordovaHookTypes →
  addHook type src w
  = (Normal tt,
     with_root (et.append (hook_node (element_ids w) type src) (_root (this w)))
               (World (N.succ (element_ids w)) (this w))).
Proof.
  intros Hin. unfold addHook.
  destruct (Z.eqb_spec (Array_indexOf cordovaHookTypes type) (-1)) as [E|_].
  { by apply Array_indexOf_absent in E. }
  rewrite bind_run, alloc_Element_run.
  by rewrite root_append_run.
Qed.

Lemma addHook_unrecognised type src w :
  type ∉ cordovaHookTypes →
  addHook type src w = (Throw (Error "Please provide a valid hook target"), w).
Proof.
  intros Hout. unfold addHook.
  destruct (Z.eqb_spec (Array_indexOf cordovaHookTypes type) (-1)) as [_|E]; [done|].
  exfalso. by apply E, Array_indexOf_absent.
Qed.

(** Resolving a path keeps it given or not given. *)
Lemma truthy_fixAbsoluteXPath doc path :
  JsString.truthy (fixAbsoluteXPath doc path) = JsString.truthy path.
Proof.
  unfold fixAbsoluteXPath. destruct path as [p|]; [|done].
  destruct (JsString.truthy (Some p)) eqn:Hp; [|done]. simpl.
  destruct (Z.eqb_spec (JsString.indexOf p ("/" +:+ et.tag (et.getroot doc))) 0)
    as [E|_]; [|done].
  apply StringFacts.indexOf_0 in E.
  by rewrite StringFacts.replace_unfold, E.
Qed.

(** [addRawXML], case by case. *)
Lemma addRawXML_run {host : Host} raw atXPath ifXPathDoesNotExist w :
  let root := _root (this w) in
  let at_path := default "" (fixAbsoluteXPath (_doc (this w)) atXPath) in
  let unless_path := default "" (fixAbsoluteXPath (_doc (this w)) ifXPathDoesNotExist) in
  addRawXML raw atXPath ifXPathDoesNotExist w
  = match (if JsString.truthy atXPath then et.find at_path root else Some root) with
    | Some node =>
        if JsString.truthy ifXPathDoesNotExist
           && match et.find unless_path root with Some _ => true | None => false end
        then (Normal tt, w)
        else match parseXML raw with
             | Some m =>
                 (Normal tt,
                  with_root
                    (et.update (et._id node) (et.append (et.build m (element_ids w)).1) root)
                    (World (et.build m (element_ids w)).2 (this w)))
             | None => (Throw ParseError, w)
             end
    | None => (Normal tt, w)
    end.
Proof.
  intros root at_path unless_path. subst root at_path unless_path.
  destruct w as [n c].
  cbv beta iota zeta delta
    [addRawXML this_doc this_root doc_find mutate modify gets alloc XML throw
     mbind M_bind mret M_ret this element_ids].
  rewrite !truthy_fixAbsoluteXPath.
  destruct (JsString.truthy atXPath), (JsString.truthy ifXPathDoesNotExist),
    (et.find (default "" (fixAbsoluteXPath (_doc c) atXPath)) (_root c)),
    (et.find (default "" (fixAbsoluteXPath (_doc c) ifXPathDoesNotExist)) (_root c)),
    (parseXML raw) as [m|]; simpl; try done;
    by destruct (et.build m n).
Qed.

End RunFacts.

(** ** The access origins *)

Module AccessFacts.
Import et TreeFacts RunFacts.

Lemma with_children_id e : with_children (_children e) e = e.
Proof. by destruct e. Qed.

Lemma ids_with_children cs e : ids (with_children cs e) = _id e :: flat_map ids cs.
Proof. reflexivity. Qed.

(** Keeping some of the children keeps the document well formed. *)
Lemma wf_children cs w :
  cs `sublist_of` _children (_root (this w)) →
  wf w → wf (with_root (with_children cs (_root (this w))) w).
Proof.
  intros Hsub [Hnd Hlt]. unfold wf; simpl.
  assert (ids (with_children cs (_root (this w))) `sublist_of` ids (_root (this w))) as Hs.
  { rewrite ids_with_children, (ids_unfold (_root (this w))).
    by apply sublist_skip, flat_map_sublist. }
  split.
  - by eapply sublist_NoDup.
  - rewrite Forall_forall in Hlt. apply Forall_forall.
    intros i Hi. apply Hlt. by eapply elem_of_sublist.
Qed.

(** So does one more child, just created and without children. *)
Lemma wf_append_leaf cs leaf w :
  cs `sublist_of` _children (_root (this w)) →
  _id leaf = element_ids w → _children leaf = [] →
  wf w →
  wf (with_root (with_children (cs ++ [leaf]) (_root (this w)))
                (World (N.succ (element_ids w)) (this w))).
Proof.
  intros Hsub Hid Hleaf Hwf.
  destruct (wf_children cs w Hsub Hwf) as [Hnd Hlt].
  change (NoDup (_id (_root (this w)) :: flat_map ids cs)) in Hnd.
  change (Forall (λ i, (i < element_ids w)%N)
                 (_id (_root (this w)) :: flat_map ids cs)) in Hlt.
  rewrite Forall_forall in Hlt.
  unfold wf.
  change (NoDup (_id (_root (this w)) :: flat_map ids (cs ++ [leaf])) ∧
          Forall (λ i, (i < N.succ (element_ids w))%N)
                 (_id (_root (this w)) :: flat_map ids (cs ++ [leaf]))).
  rewrite Forall_forall, flat_map_app; simpl.
  rewrite (ids_unfold leaf), Hleaf, Hid; simpl.
  rewrite app_comm_cons. split.
  - apply NoDup_app. split; [done|]. split; [|apply NoDup_singleton].
    intros i Hi ->%list_elem_of_singleton. specialize (Hlt _ Hi). lia.
  - intros i [Hi| ->%list_elem_of_singleton]%elem_of_app; [|lia].
    specialize (Hlt _ Hi). lia.
Qed.

Lemma forEach_root_remove tags w :
  forEach tags root_remove w
  = (Normal tt, with_root (fold_left (λ r t, remove t r) tags (_root (this w))) w).
Proof.
  revert w. induction tags as [|t tags IH]; intros w; simpl.
  - by rewrite with_root_id.
  - by rewrite bind_run, root_remove_run, IH.
Qed.

Lemma removeAccessOrigins_run w :
  wf w →
  removeAccessOrigins w
  = (Normal tt,
     with_root (with_children
                  (filter (λ c, has_tag "access" c = false) (_children (_root (this w))))
                  (_root (this w))) w).
Proof.
  intros [Hnd _]. apply NoDup_child_ids in Hnd.
  unfold removeAccessOrigins, doc_findall, gets. rewrite bind_run, forEach_root_remove.
  rewrite findall_access, fold_remove, remove_found by done.
  do 3 f_equal. apply list_filter_iff. intros c. apply not_true_iff_false.
Qed.

Lemma removeAccessOrigin_run origin w :
  wf w →
  removeAccessOrigin origin w
  = (Normal tt,
     with_root (with_children
                  (without_first (is_access_for origin) (_children (_root (this w))))
                  (_root (this w))) w).
Proof.
  intros [Hnd _]. apply NoDup_child_ids in Hnd.
  unfold removeAccessOrigin, doc_find, gets. rewrite bind_run, find_access_origin.
  rewrite <- (remove_first (is_access_for origin) _ Hnd).
  unfold children_with, is_access_for.
  destruct (head _) as [found|].
  - by rewrite root_remove_run.
  - by rewrite with_children_id, with_root_id.
Qed.

Lemma access_node_built n origin (options : gmap string string) :
  fold_left (λ e kv, setAttribute kv.1 kv.2 e) (map_to_list options)
            (setAttribute "origin" origin (mkElement n "access" ∅ None []))
  = access_node n origin options.
Proof.
  rewrite fold_setAttribute by apply NoDup_fst_map_to_list.
  unfold access_node; simpl. by rewrite list_to_map_to_list, insert_empty.
Qed.

Lemma setAccessOrigin_run origin options w :
  wf w →
  setAccessOrigin origin options w
  = (Normal tt,
     with_root (with_children
                  (without_first (is_access_for origin) (_children (_root (this w)))
                   ++ [access_node (element_ids w) origin (default ∅ options)])
                  (_root (this w)))
               (World (N.succ (element_ids w)) (this w))).
Proof.
  intros Hwf. unfold setAccessOrigin.
  rewrite bind_run, removeAccessOrigin_run by done.
  rewrite bind_run, alloc_Element_run. cbv zeta.
  by rewrite access_node_built, root_append_run.
Qed.

Lemma setAccessOrigin_wf origin options w :
  wf w → wf (setAccessOrigin origin options w).2.
Proof.
  intros Hwf. rewrite setAccessOrigin_run by done. simpl.
  apply wf_append_leaf; try done. apply without_first_sublist.
Qed.

(** The children for [origin] after [setAccessOrigin]: the first one is
    gone, the new node is last when its origin attribute is [origin]. *)
Lemma access_for_setAccessOrigin origin options w :
  wf w →
  access_for origin (setAccessOrigin origin options w).2
  = tail (access_for origin w)
    ++ (if is_access_for origin (access_node (element_ids w) origin (default ∅ options))
        then [access_node (element_ids w) origin (default ∅ options)] else []).
Proof.
  intros Hwf. rewrite setAccessOrigin_run by done.
  unfold access_for, children_with; simpl.
  rewrite filter_app. f_equal.
  - apply (filter_without_first (is_access_for origin)).
  - rewrite filter_cons, filter_nil. unfold is_access_for.
    by destruct (has_tag _ _ && has_attr _ _ _).
Qed.

Lemma access_node_for origin n (options : gmap string string) :
  options !! "origin" = None →
  is_access_for origin (access_node n origin options) = true.
Proof.
  intros Hno. unfold is_access_for, has_tag, has_attr, access_node; simpl.
  apply bool_decide_eq_true.
  by rewrite lookup_union_r, lookup_singleton_eq.
Qed.

(** So it is when [options] names that very origin. *)
Lemma access_node_for_own origin n (options : gmap string string) :
  (∀ v, options !! "origin" = Some v → v = origin) →
  is_access_for origin (access_node n origin options) = true.
Proof.
  intros Hown. destruct (options !! "origin") as [v|] eqn:E.
  - unfold is_access_for, has_tag, has_attr, access_node; simpl.
    apply bool_decide_eq_true.
    rewrite (lookup_union_Some_l _ _ _ v E). f_equal. by apply Hown.
  - by apply access_node_for.
Qed.

End AccessFacts.

(** ** Distinct identities: an invariant of the module *)

Module InvariantFacts.
Import et TreeFacts NodeFacts RunFacts AccessFacts.

Lemma build_unfold t a x ms n :
  build (Markup t a x ms) n
  = let '(cs, n') := build_all ms (N.succ n) in (mkElement n t a x cs, n').
Proof.
  simpl.
  assert (∀ k,
    (fix build_all (ms : list markup) (n : N) {struct ms} : list Element * N :=
       match ms with
       | [] => ([], n)
       | m' :: ms' =>
           let '(c, n1) := build m' n in
           let '(cs, n2) := build_all ms' n1 in (c :: cs, n2)
       end) ms k = build_all ms k) as ->; [|done].
  induction ms as [|m ms IH]; intros k; simpl; [done|].
  destruct (build m k) as [c n1]. by rewrite IH.
Qed.

(** The objects of a parsed tree take the identities from the counter
    before to the counter after, each once. *)
Lemma build_ids m n :
  NoDup (ids (build m n).1) ∧
  Forall (λ i, (n ≤ i < (build m n).2)%N) (ids (build m n).1) ∧
  (n < (build m n).2)%N.
Proof.
  revert n. induction m as [t a x ms IH] using markup_nested_ind. intros n.
  rewrite build_unfold.
  assert (∀ k, NoDup (flat_map ids (build_all ms k).1) ∧
               Forall (λ i, (k ≤ i < (build_all ms k).2)%N)
                      (flat_map ids (build_all ms k).1) ∧
               (k ≤ (build_all ms k).2)%N) as Hall.
  { induction IH as [|m ms Hm _ IHms]; intros k; simpl.
    { split; [constructor|]. split; [constructor | lia]. }
    destruct (Hm k) as (Hnd1 & Hin1 & Hlt1).
    destruct (build m k) as [c n1]. simpl in *.
    destruct (IHms n1) as (Hnd2 & Hin2 & Hlt2).
    destruct (build_all ms n1) as [cs n2]. simpl in *.
    rewrite Forall_forall in Hin1, Hin2.
    split; [|split; [|lia]].
    - apply NoDup_app. split; [done|]. split; [|done].
      intros i Hi1 Hi2. specialize (Hin1 _ Hi1). specialize (Hin2 _ Hi2). lia.
    - apply Forall_forall. intros i [Hi|Hi]%elem_of_app.
      + specialize (Hin1 _ Hi). lia.
      + specialize (Hin2 _ Hi). lia. }
  destruct (Hall (N.succ n)) as (Hnd & Hin & Hle).
  destruct (build_all ms (N.succ n)) as [cs n']. simpl in *.
  rewrite Forall_forall in Hin.
  split; [|split; [|lia]].
  - apply NoDup_cons. split; [|done]. intros Hn. specialize (Hin _ Hn). lia.
  - apply Forall_forall. intros i [->|Hi]%elem_of_cons; [lia|].
    specialize (Hin _ Hi). lia.
Qed.

Lemma wf_same_ids r w :
  ids r = ids (_root (this w)) → wf w → wf (with_root r w).
Proof.
  intros E [Hnd Hlt].
  change (NoDup (ids r) ∧ Forall (λ i, (i < element_ids w)%N) (ids r)).
  by rewrite E.
Qed.

Lemma wf_later n w :
  (element_ids w ≤ n)%N → wf w → wf (World n (this w)).
Proof.
  intros Hle [Hnd Hlt]. split; [done|]. simpl.
  eapply Forall_impl; [done|]. simpl. lia.
Qed.

(** A change to a node that is not there changes nothing. *)
Lemma update_absent i f e : i ∉ ids e → update i f e = e.
Proof.
  induction e as [j t a x cs IH] using Element_nested_ind.
  rewrite update_unfold; simpl. rewrite not_elem_of_cons. intros [Hne Hcs].
  destruct (N.eqb_spec j i) as [E|_]; [done|].
  unfold with_children; simpl. f_equal.
  induction IH as [|c cs Hc _ IHcs]; [done|]. simpl in Hcs.
  rewrite elem_of_app in Hcs. rewrite fmap_cons, Hc, IHcs; tauto.
Qed.

(** The identities after a fragment is appended to a node of the tree. *)
Lemma ids_update_append i x e :
  NoDup (ids e) → i ∈ ids e →
  ids (update i (append x) e) ≡ₚ ids e ++ ids x.
Proof.
  induction e as [j t a tx cs IH] using Element_nested_ind.
  intros Hnd Hi. rewrite update_unfold. cbn [_id].
  destruct (N.eqb_spec j i) as [E|Hne].
  { unfold append; simpl. by rewrite flat_map_app; simpl; rewrite app_nil_r. }
  simpl in Hnd, Hi |- *. constructor.
  apply NoDup_cons in Hnd as [_ Hnd].
  apply elem_of_cons in Hi as [E|Hi]; [congruence|].
  clear Hne. induction IH as [|c cs Hc _ IHcs]; [by apply elem_of_nil in Hi|].
  simpl in Hnd, Hi. apply NoDup_app in Hnd as (Hnd1 & Hdisj & Hnd2).
  rewrite fmap_cons. simpl. apply elem_of_app in Hi as [Hi|Hi].
  - assert (update i (append x) <$> cs = cs) as ->.
    { clear -Hdisj Hi. specialize (Hdisj _ Hi).
      induction cs as [|c' cs IHcs']; [done|]. simpl in Hdisj.
      rewrite elem_of_app in Hdisj. rewrite fmap_cons, update_absent, IHcs'; tauto. }
    rewrite (Hc Hnd1 Hi), <- !app_assoc. apply Permutation_app_head, Permutation_app_comm.
  - rewrite update_absent by (intros Hbad; by apply (Hdisj _ Hbad)).
    by rewrite (IHcs Hnd2 Hi), app_assoc.
Qed.

Lemma setter_wf key value w : wf w → wf (with_root (setAttribute key value (_root (this w))) w).
Proof. apply wf_same_ids. by destruct (_root (this w)). Qed.

Lemma addHook_wf type src w : wf w → wf (addHook type src w).2.
Proof.
  intros Hwf. destruct (decide (type ∈ cordovaHookTypes)) as [Hin|Hout].
  - rewrite addHook_recognised by done. simpl.
    change (append ?h ?r) with (with_children (_children r ++ [h]) r).
    by apply wf_append_leaf.
  - by rewrite addHook_unrecognised.
Qed.

Lemma setPreference_wf name value platform w : wf w → wf (setPreference name value platform w).2.
Proof.
  intros Hwf.
  assert (Hnew : wf (with_root
            (append (setAttribute "name" (default "" platform)
                       (mkElement (element_ids w) "platform" ∅ None []))
                    (_root (this w)))
            (World (N.succ (element_ids w)) (this w)))).
  { change (append ?h ?r) with (with_children (_children r ++ [h]) r).
    by apply wf_append_leaf. }
  destruct w as [n c].
  assert (Hlater : ∀ k, (n ≤ k)%N → wf (World k c)).
  { intros k Hk. by apply (wf_later k (World n c)). }
  assert (Hnew_later : ∀ k, (N.succ n ≤ k)%N →
            wf (World k (this (with_root
                  (append (setAttribute "name" (default "" platform)
                             (mkElement n "platform" ∅ None [])) (_root c))
                  (World (N.succ n) c))))).
  { intros k Hk. by apply (wf_later k (with_root _ (World (N.succ n) c))). }
  unfold setPreference, root_append, doc_find, this_root, mutate, modify, gets, alloc,
    new_Element, Element_new, throw, platformElement_of, mbind, M_bind, mret, M_ret.
  cbv beta iota zeta. cbn [this element_ids].
  destruct (JsString.truthy platform); cbv beta iota zeta; cbn [this element_ids].
  - destruct (find _ (_root c)) as [e|]; cbv beta iota zeta; cbn [this element_ids].
    + destruct (find _ e); cbv beta iota zeta; cbn [this element_ids snd].
      * apply Hlater. lia.
      * apply Hlater. lia.
    + rewrite update_self.
      destruct (find _ _); cbv beta iota zeta; cbn [this element_ids snd].
      * apply Hnew_later. simpl. lia.
      * apply Hnew_later. simpl. lia.
  - destruct (find _ (_root c)); cbv beta iota zeta; cbn [this element_ids snd].
    + apply Hlater. lia.
    + apply Hlater. lia.
Qed.

Lemma addRawXML_wf {host : Host} raw atXPath ifXPathDoesNotExist w :
  wf w → wf (addRawXML raw atXPath ifXPathDoesNotExist w).2.
Proof.
  intros Hwf. rewrite addRawXML_run. cbv zeta.
  assert (Happ : ∀ node m,
    inside node (_root (this w)) →
    wf (with_root (update (_id node) (append (build m (element_ids w)).1) (_root (this w)))
                  (World (build m (element_ids w)).2 (this w)))).
  { intros node m Hin. destruct Hwf as [Hnd Hlt].
    destruct (build_ids m (element_ids w)) as (Hnd' & Hin' & Hlt').
    pose proof (ids_update_append (_id node) (build m (element_ids w)).1
                  (_root (this w)) Hnd (inside_ids _ _ Hin)) as Hperm.
    rewrite Forall_forall in Hlt, Hin'.
    split.
    - change (NoDup (ids (update (_id node) (append (build m (element_ids w)).1)
                            (_root (this w))))).
      rewrite Hperm. apply NoDup_app. split; [done|]. split; [|done].
      intros i Hi1 Hi2. specialize (Hlt _ Hi1). specialize (Hin' _ Hi2). lia.
    - change (Forall (λ i, (i < (build m (element_ids w)).2)%N)
                (ids (update (_id node) (append (build m (element_ids w)).1)
                        (_root (this w))))).
      rewrite Hperm. apply Forall_forall. intros i [Hi|Hi]%elem_of_app.
      + specialize (Hlt _ Hi). lia.
      + specialize (Hin' _ Hi). lia. }
  assert (Hnode : ∀ node,
    (if JsString.truthy atXPath
     then find (default "" (fixAbsoluteXPath (_doc (this w)) atXPath)) (_root (this w))
     else Some (_root (this w))) = Some node → inside node (_root (this w))).
  { destruct (JsString.truthy atXPath).
    - intros node. apply find_inside.
    - intros node [= <-]. constructor. }
  destruct (if JsString.truthy atXPath then _ else _) as [node|]; [|done].
  destruct (_ && _); [done|].
  destruct (parseXML raw) as [m|]; [|done].
  by apply Happ, Hnode.
Qed.

(** Every call leaves the identities distinct, whether it returns or
    throws. *)
Theorem wf_preserved {host : Host} (c : call) (w : world) : wf w → wf (run c w).2.
Proof.
  intros Hwf. destruct c; cbn [run].
  - rewrite setID_run. destruct (valid _ _); [by apply setter_wf | done].
  - rewrite setVersion_run. destruct (valid _ _); [by apply setter_wf | done].
  - rewrite setAndroidVersionCode_run. destruct (valid _ _); [by apply setter_wf | done].
  - rewrite setIOSBundleVersion_run. destruct (valid _ _); [by apply setter_wf | done].
  - by apply setPreference_wf.
  - rewrite removeAccessOrigins_run by done. apply wf_children; [|done].
    apply sublist_filter.
  - rewrite removeAccessOrigin_run by done. apply wf_children; [|done].
    apply without_first_sublist.
  - by apply setAccessOrigin_wf.
  - by apply addHook_wf.
  - by apply addRawXML_wf.
Qed.

(** A document just loaded has distinct identities. *)
Theorem wf_loaded {host : Host} (file : string) (n n' : N) (c : Config) :
  Config_new file n = (Normal c, n') → wf (World n' c).
Proof.
  unfold Config_new, parse, XML, throw, mbind, M_bind, mret, M_ret.
  destruct (readFileSync file) as [text|]; [|done]. cbv beta iota zeta.
  destruct (parseXML _) as [m|]; [|done].
  destruct (build_ids m n) as (Hnd & Hin & _).
  destruct (build m n) as [root k]. simpl in *.
  destruct (negb _); [done|]. intros [= <- <-]. split; [done|].
  eapply Forall_impl; [done|]. simpl. lia.
Qed.

End InvariantFacts.

(** ** What [setVersion] lets through *)

Module VersionFacts.
Import RegExp RegExpFacts.

Lemma version_pattern_compiles :
  RegExp version_pattern
  = Some (mkRegexp true true
            (Seq (plus digit_class)
               (Seq Dot (Seq (plus digit_class) (Seq Dot (plus digit_class)))))).
Proof. reflexivity. Qed.

(** The check passes exactly on three numbers with one code unit, any but a
    line terminator, between them: the dots of the pattern are not
    escaped once the string literal has been read. *)
Lemma valid_version s :
  valid version_pattern s = true ↔
  ∃ a x b y c,
    number a ∧ number b ∧ number c ∧
    line_terminator x = false ∧ line_terminator y = false ∧
    s = a +:+ String x "" +:+ b +:+ String y "" +:+ c.
Proof.
  unfold valid. rewrite version_pattern_compiles, test_anchored, matches_spec.
  unfold number. split.
  - intros (a & ? & -> & Ha%lang_number &
            (? & ? & -> & (x & -> & Hx)%lang_dot &
             (b & ? & -> & Hb%lang_number &
              (? & c & -> & (y & -> & Hy)%lang_dot & Hc%lang_number)
                %lang_seq_inv)%lang_seq_inv)%lang_seq_inv)%lang_seq_inv.
    by exists a, x, b, y, c.
  - intros (a & x & b & y & c & Ha & Hb & Hc & Hx & Hy & ->).
    repeat (constructor; [by apply lang_number || by apply lang_dot; eauto|]).
    by apply lang_number.
Qed.

Lemma MAJOR_MINOR_PATCH_valid s : MAJOR_MINOR_PATCH s → valid version_pattern s = true.
Proof.
  intros (a & b & c & Ha & Hb & Hc & ->). apply valid_version.
  by exists a, "."%char, b, "."%char, c.
Qed.

Lemma chars_app s t :
  list_ascii_of_string (s +:+ t) = list_ascii_of_string s ++ list_ascii_of_string t.
Proof.
  induction s as [|c s IH]; [done|].
  rewrite StringFacts.app_cons; simpl. by f_equal.
Qed.

Lemma MAJOR_MINOR_PATCH_has_dot s :
  MAJOR_MINOR_PATCH s → "."%char ∈ list_ascii_of_string s.
Proof.
  intros (a & b & c & _ & _ & _ & ->).
  rewrite chars_app, elem_of_app. right.
  rewrite StringFacts.app_cons; simpl. apply list_elem_of_here.
Qed.

End VersionFacts.

(** * The properties of the specification *)

(** ** The path resolver *)

(** C8: a path that begins with [/] followed by the root tag comes back
    with that first occurrence of the prefix replaced by [.], that is, as
    [.] followed by the rest; every other path, the absent and the empty
    one among them, comes back unchanged.  The resolver is a total
    function: it raises no error. *)
Theorem fixAbsoluteXPath_resolves (doc : et.ElementTree) (path : option string) :
  let prefix := "/" +:+ et.tag (et.getroot doc) in
  (∀ rest, path = Some (prefix +:+ rest) →
     fixAbsoluteXPath doc path = Some (JsString.replace (prefix +:+ rest) prefix ".") ∧
     fixAbsoluteXPath doc path = Some ("." +:+ rest)) ∧
  ((∀ rest, path ≠ Some (prefix +:+ rest)) → fixAbsoluteXPath doc path = path) ∧
  fixAbsoluteXPath doc None = None ∧
  fixAbsoluteXPath doc (Some "") = Some "".
Proof.
  intros prefix. split; [|split; [|done]].
  - intros rest ->. unfold fixAbsoluteXPath. fold prefix.
    assert (JsString.indexOf (prefix +:+ rest) prefix = 0%Z) as ->.
    { apply StringFacts.indexOf_0, StringFacts.startsWith_app. }
    rewrite StringFacts.replace_prefix.
    by unfold prefix; rewrite StringFacts.app_cons.
  - intros Hne. unfold fixAbsoluteXPath. fold prefix.
    destruct path as [p|]; [|done].
    destruct (JsString.truthy (Some p)); [|done]. simpl.
    destruct (Z.eqb_spec (JsString.indexOf p prefix) 0) as [E|]; [|done].
    apply StringFacts.indexOf_0, StringFacts.startsWith_inv in E.
    exfalso. apply (Hne (JsString.skip (String.length prefix) p)). by f_equal.
Qed.

Lemma fixAbsoluteXPath_resolves_witness :
  let doc := et.mkElementTree (et.mkElement 0 "widget" ∅ None []) in
  fixAbsoluteXPath doc (Some "/widget/platform") = Some "./platform" ∧
  fixAbsoluteXPath doc (Some "./platform") = Some "./platform".
Proof.
  intros doc. split.
  - apply (proj1 (fixAbsoluteXPath_resolves doc (Some "/widget/platform")) "/platform").
    reflexivity.
  - apply (proj1 (proj2 (fixAbsoluteXPath_resolves doc (Some "./platform")))).
    intros rest H. vm_compute in H. discriminate H.
Defined.

(** ** Hooks *)

(** C4: [addHook(type, src)] succeeds exactly when [type] is one of the 34
    recognised names.  A successful call appends one [hook] node with the
    attributes [type] and [src] to the root, whatever is there already, so
    that two identical calls leave two such nodes; with any other [type]
    the call throws and the document is as before. *)
Theorem addHook_appends_iff_recognised (type src : string) (w : world) :
  List.length cordovaHookTypes = 34 ∧ NoDup cordovaHookTypes ∧
  (type ∈ cordovaHookTypes →
     let n := element_ids w in
     let root := _root (this w) in
     addHook type src w
     = (Normal tt,
        with_root (et.append (hook_node n type src) root) (World (N.succ n) (this w))) ∧
     (addHook type src ;; addHook type src) w
     = (Normal tt,
        with_root
          (et.mkElement (et._id root) (et.tag root) (et.attrib root) (et.text root)
             (et._children root ++ [hook_node n type src; hook_node (N.succ n) type src]))
          (World (N.succ (N.succ n)) (this w)))) ∧
  (type ∉ cordovaHookTypes →
     addHook type src w = (Throw (Error "Please provide a valid hook target"), w)).
Proof.
  split; [reflexivity|]. split.
  { apply (bool_decide_unpack _). by vm_compute. }
  split.
  - intros Hin n root. split; [by apply RunFacts.addHook_recognised|].
    rewrite RunFacts.bind_run, !RunFacts.addHook_recognised by done.
    unfold with_root, et.append; simpl. by rewrite <- app_assoc.
  - apply RunFacts.addHook_unrecognised.
Qed.

Lemma addHook_appends_iff_recognised_witness :
  let w := empty_widget in
  et._children (_root (this ((addHook "before_build" "hooks/a.js" ;;
                              addHook "before_build" "hooks/a.js") w).2))
  = [hook_node 1 "before_build" "hooks/a.js"; hook_node 2 "before_build" "hooks/a.js"] ∧
  addHook "not_a_real_hook" "x" w
  = (Throw (Error "Please provide a valid hook target"), w).
Proof.
  intros w. split.
  - destruct (addHook_appends_iff_recognised "before_build" "hooks/a.js" w)
      as (_ & _ & Hin & _).
    destruct Hin as [_ ->]; [|reflexivity].
    apply (bool_decide_unpack _). by vm_compute.
  - destruct (addHook_appends_iff_recognised "not_a_real_hook" "x" w)
      as (_ & _ & _ & Hout).
    apply Hout. apply (bool_decide_unpack _). by vm_compute.
Defined.

(** ** Validation *)

(** C3: each validated setter checks first and writes afterwards.  When the
    check fails the call throws the error of that setter and the world it
    ran on, document and all, is the one it started from; when the check
    passes the call returns and its one change is made. *)
Theorem validation_precedes_mutation (w : world) :
  let root := _root (this w) in
  (∀ id, valid id_pattern id = false →
     setID id w = (Throw (Error "Please provide a valid id."), w)) ∧
  (∀ version, valid version_pattern version = false →
     setVersion version w = (Throw (Error "Please provide a valid version number."), w)) ∧
  (∀ code, valid android_version_code_pattern code = false →
     setAndroidVersionCode code w
     = (Throw (Error "Please provide a valid Android version code."), w)) ∧
  (∀ version, valid ios_bundle_version_pattern version = false →
     setIOSBundleVersion version w
     = (Throw (Error "Please provide a valid iOS bundle version number."), w)) ∧
  (∀ type src, type ∉ cordovaHookTypes →
     addHook type src w = (Throw (Error "Please provide a valid hook target"), w)) ∧
  (∀ id, valid id_pattern id = true →
     setID id w = (Normal tt, with_root (et.setAttribute "id" id root) w)) ∧
  (∀ version, valid version_pattern version = true →
     setVersion version w
     = (Normal tt, with_root (et.setAttribute "version" version root) w)) ∧
  (∀ code, valid android_version_code_pattern code = true →
     setAndroidVersionCode code w
     = (Normal tt, with_root (et.setAttribute "android-versionCode" code root) w)) ∧
  (∀ version, valid ios_bundle_version_pattern version = true →
     setIOSBundleVersion version w
     = (Normal tt, with_root (et.setAttribute "ios-CFBundleVersion" version root) w)) ∧
  (∀ type src, type ∈ cordovaHookTypes →
     addHook type src w
     = (Normal tt,
        with_root (et.append (hook_node (element_ids w) type src) root)
                  (World (N.succ (element_ids w)) (this w)))).
Proof.
  intros root. repeat split.
  - intros x H. by rewrite RunFacts.setID_run, H.
  - intros x H. by rewrite RunFacts.setVersion_run, H.
  - intros x H. by rewrite RunFacts.setAndroidVersionCode_run, H.
  - intros x H. by rewrite RunFacts.setIOSBundleVersion_run, H.
  - intros. by apply RunFacts.addHook_unrecognised.
  - intros x H. by rewrite RunFacts.setID_run, H.
  - intros x H. by rewrite RunFacts.setVersion_run, H.
  - intros x H. by rewrite RunFacts.setAndroidVersionCode_run, H.
  - intros x H. by rewrite RunFacts.setIOSBundleVersion_run, H.
  - intros. by apply RunFacts.addHook_recognised.
Qed.

Lemma validation_precedes_mutation_witness :
  let w := empty_widget in
  setID "" w = (Throw (Error "Please provide a valid id."), w) ∧
  setVersion "1.2" w = (Throw (Error "Please provide a valid version number."), w) ∧
  setAndroidVersionCode "12a" w
  = (Throw (Error "Please provide a valid Android version code."), w) ∧
  setIOSBundleVersion "0.1" w
  = (Throw (Error "Please provide a valid iOS bundle version number."), w) ∧
  addHook "not_a_real_hook" "x" w
  = (Throw (Error "Please provide a valid hook target"), w) ∧
  et.getAttribute "id" (_root (this (setID "com.example.app" w).2))
  = Some "com.example.app".
Proof.
  intros w.
  destruct (validation_precedes_mutation w) as (H1 & H2 & H3 & H4 & H5 & H6 & _).
  split; [apply H1; reflexivity|].
  split; [apply H2; reflexivity|].
  split; [apply H3; reflexivity|].
  split; [apply H4; reflexivity|].
  split; [apply H5; apply (bool_decide_unpack _); by vm_compute|].
  rewrite H6 by reflexivity. reflexivity.
Defined.

(** ** The version *)

(** C2 (the code departs from it): [1a2b3] is not of the form
    [MAJOR.MINOR.PATCH], and yet [setVersion] returns on it and writes it
    as the [version] attribute of the root.  The dots of the pattern are
    written [\.] inside a string literal, where the backslash is dropped:
    the pattern compiled is [^[0-9]+.[0-9]+.[0-9]+$]. *)
Theorem setVersion_accepts_1a2b3 :
  ¬ MAJOR_MINOR_PATCH "1a2b3" ∧
  RegExp.literal "^[0-9]+\.[0-9]+\.[0-9]+$" = "^[0-9]+.[0-9]+.[0-9]+$" ∧
  ∀ w, setVersion "1a2b3" w
       = (Normal tt, with_root (et.setAttribute "version" "1a2b3" (_root (this w))) w).
Proof.
  split; [|split; [reflexivity|]].
  - intros H%VersionFacts.MAJOR_MINOR_PATCH_has_dot. revert H.
    apply (bool_decide_unpack _). by vm_compute.
  - intros w. by rewrite RunFacts.setVersion_run.
Qed.

(** On every string of the form [MAJOR.MINOR.PATCH] [setVersion] returns,
    and the [version] attribute of the root is then that string. *)
Lemma setVersion_accepts_versions (version : string) (w : world) :
  MAJOR_MINOR_PATCH version →
  setVersion version w
  = (Normal tt, with_root (et.setAttribute "version" version (_root (this w))) w) ∧
  et.getAttribute "version" (_root (this (setVersion version w).2)) = Some version.
Proof.
  intros H%VersionFacts.MAJOR_MINOR_PATCH_valid.
  rewrite RunFacts.setVersion_run, H. split; [done|].
  apply lookup_insert_eq.
Qed.

(** ** Loading *)

(** C7: when the file can be read and the parser accepts its text, [parse]
    looks at the tag of the root.  If it is not [widget] the call throws an
    error whose message holds the file name, the expected tag [widget] and
    the tag found, and neither [parse] nor [new Config] yields a document;
    if it is [widget] the parsed document is returned. *)
Theorem parse_checks_root_tag {host : Host} (file text : string) (m : et.markup) (n : N) :
  readFileSync file = Some text →
  parseXML (if JsString.truthy (Some text)
            then JsString.substring text (JsString.indexOf text "<")
            else text) = Some m →
  let root := (et.build m n).1 in
  let n' := (et.build m n).2 in
  (et.tag root ≠ "widget" →
     parse file n = (Throw (Error (root_tag_message file (et.tag root))), n') ∧
     Config_new file n = (Throw (Error (root_tag_message file (et.tag root))), n')) ∧
  (et.tag root = "widget" →
     parse file n = (Normal (et.mkElementTree root), n') ∧
     Config_new file n = (Normal (mkConfig file (et.mkElementTree root)), n')).
Proof.
  intros Hread Hparse root n'.
  assert (Hrun : parse file n
    = if negb (String.eqb (et.tag root) "widget")
      then (Throw (Error (root_tag_message file (et.tag root))), n')
      else (Normal (et.mkElementTree root), n')).
  { unfold parse, XML, mbind, M_bind, mret, M_ret, throw.
    rewrite Hread. cbv beta iota zeta. rewrite Hparse.
    unfold root, n'. destruct (et.build m n) as [r k]; simpl.
    by destruct (negb (String.eqb (et.tag r) "widget")). }
  split; intros Htag.
  - apply String.eqb_neq in Htag as E. unfold Config_new.
    rewrite RunFacts.bind_run, Hrun, E. done.
  - apply String.eqb_eq in Htag as E. unfold Config_new.
    rewrite RunFacts.bind_run, Hrun, E. done.
Qed.

Lemma parse_checks_root_tag_witness :
  @parse example_host "plugin.xml" 0%N
  = (Throw (Error (root_tag_message "plugin.xml" "plugin")), 1%N) ∧
  @Config_new example_host "config.xml" 0%N
  = (Normal (mkConfig "config.xml"
               (et.mkElementTree (et.mkElement 0 "widget" ∅ None []))), 1%N).
Proof.
  split.
  - apply (@parse_checks_root_tag example_host "plugin.xml" "<plugin/>"
             (et.Markup "plugin" ∅ None []) 0%N); [reflexivity | reflexivity |].
    vm_compute. discriminate.
  - apply (@parse_checks_root_tag example_host "config.xml" "<widget/>"
             (et.Markup "widget" ∅ None []) 0%N); reflexivity.
Defined.

(** ** Preferences *)

(** C1 (the code departs from it): [setPreference] never returns.  Its
    removal and its final append are made on [this.platformElement], a
    property the object does not have, so every call ends in a [TypeError]:
    at root scope on the removal when the root has a preference of that
    name, on the append otherwise, and the document is left as it was, the
    preference neither replaced nor added.  On [<widget/>], two calls of
    [setPreference("foo", "bar")] leave no [preference] child at all. *)
Theorem setPreference_never_returns (name value : string) (platform : option string)
    (w : world) :
  (∃ property w', setPreference name value platform w = (Throw (TypeError property), w')) ∧
  setPreference name value None w
  = match head (et.children_with "preference" "name" name (_root (this w))) with
    | Some _ => (Throw (TypeError "remove"), w)
    | None => (Throw (TypeError "append"), World (N.succ (element_ids w)) (this w))
    end ∧
  this (setPreference name value None w).2 = this w ∧
  (setPreference "foo" "bar" None ;; setPreference "foo" "bar" None) empty_widget
  = (Throw (TypeError "append"), World 2 (this empty_widget)).
Proof.
  assert (Hroot : setPreference name value None w
    = match head (et.children_with "preference" "name" name (_root (this w))) with
      | Some _ => (Throw (TypeError "remove"), w)
      | None => (Throw (TypeError "append"), World (N.succ (element_ids w)) (this w))
      end).
  { rewrite <- TreeFacts.find_preference_name. destruct w as [n c].
    unfold setPreference, doc_find, this_root, root_append, mutate, modify, gets,
      alloc, new_Element, throw, platformElement_of, mbind, M_bind, mret, M_ret.
    simpl. by destruct (et.find _ (_root c)). }
  split; [|split; [done|split; [|reflexivity]]].
  - unfold setPreference, doc_find, this_root, root_append, mutate, modify, gets,
      alloc, new_Element, throw, platformElement_of, mbind, M_bind, mret, M_ret.
    simpl. repeat case_match; simplify_eq; eauto.
  - rewrite Hroot. by destruct (head _).
Qed.

(** With a platform that has no node yet, the [platform] node is created and
    appended to the root before the call throws: the document is left with
    an empty platform scope. *)
Lemma setPreference_new_platform (name value platform : string) (w : world) :
  platform ≠ "" →
  et.children_with "platform" "name" platform (_root (this w)) = [] →
  setPreference name value (Some platform) w
  = (Throw (TypeError "append"),
     with_root
       (et.append (et.mkElement (element_ids w) "platform" {["name" := platform]} None [])
                  (_root (this w)))
       (World (N.succ (N.succ (element_ids w))) (this w))).
Proof.
  intros Hne Hnone. destruct w as [n c].
  assert (JsString.truthy (Some platform) = true) as Htruthy by (by destruct platform).
  unfold setPreference, root_append, doc_find, this_root, mutate, modify, gets, alloc,
    new_Element, et.Element_new, throw, platformElement_of, mbind, M_bind, mret, M_ret.
  rewrite Htruthy. cbv beta iota zeta. cbn [this element_ids default from_option id].
  rewrite TreeFacts.find_platform_name. cbn [this] in Hnone. rewrite Hnone.
  cbv beta iota zeta. cbn [head this element_ids].
  rewrite TreeFacts.update_self, TreeFacts.find_preference_name.
  unfold et.children_with, et.setAttribute. cbn [et._children et.attrib].
  rewrite filter_nil. cbv beta iota zeta. cbn [head this element_ids].
  unfold with_root. cbn [this element_ids _file]. by rewrite insert_empty.
Qed.

(** ** The access origins *)

(** C6: in a document whose nodes are distinct objects ([wf]),
    [removeAccessOrigins()] takes out every child of the root tagged
    [access] and nothing else: the other children stay, in their order, and
    the root keeps its tag, attributes and text; no [access] child is left,
    however many there were. *)
Theorem removeAccessOrigins_removes_every_access (w : world) :
  wf w →
  let root := _root (this w) in
  let kept := filter (λ c, et.has_tag "access" c = false) (et._children root) in
  removeAccessOrigins w = (Normal tt, with_root (et.with_children kept root) w) ∧
  (∀ c, c ∈ kept ↔ c ∈ et._children root ∧ et.tag c ≠ "access") ∧
  et.findall "./access" (et.with_children kept root) = [] ∧
  et.attrib (et.with_children kept root) = et.attrib root.
Proof.
  intros Hwf root kept. split; [by apply AccessFacts.removeAccessOrigins_run|].
  assert (Hkept : ∀ c, c ∈ kept ↔ c ∈ et._children root ∧ et.tag c ≠ "access").
  { intros c. unfold kept. rewrite list_elem_of_filter. unfold et.has_tag.
    rewrite String.eqb_neq. tauto. }
  split; [done|]. split; [|done].
  rewrite TreeFacts.findall_access. simpl.
  apply elem_of_nil_inv. intros c [Htag Hc]%list_elem_of_filter.
  apply Hkept in Hc as [_ Hne]. by apply String.eqb_eq in Htag.
Qed.

Lemma removeAccessOrigins_removes_every_access_witness :
  et._children (_root (this (removeAccessOrigins example_world).2))
  = [et.mkElement 2 "name" ∅ (Some "App") [];
     et.mkElement 5 "platform" {["name" := "ios"]} None []].
Proof.
  destruct (removeAccessOrigins_removes_every_access example_world) as [-> _].
  - apply (bool_decide_unpack _). by vm_compute.
  - reflexivity.
Defined.

(** C10: when the root has two or more [access] children with the origin
    [origin] (distinct objects, [wf]; an origin that holds no double quote,
    the lookup path being built by pasting it between two of them),
    [removeAccessOrigin(origin)] takes out the first of them only: the
    others stay where they are.  [setAccessOrigin(origin)] on such a
    document therefore leaves at least two [access] children with that
    origin. *)
Theorem removeAccessOrigin_removes_first_only (origin : string) (w : world) :
  wf w → quote_free origin = true →
  (2 ≤ List.length (access_for origin w))%nat →
  let root := _root (this w) in
  let w1 := with_root (et.with_children
                         (without_first (is_access_for origin) (et._children root)) root) w in
  removeAccessOrigin origin w = (Normal tt, w1) ∧
  access_for origin w1 = tail (access_for origin w) ∧
  (1 ≤ List.length (access_for origin w1))%nat ∧
  (setAccessOrigin origin None w).1 = Normal tt ∧
  access_for origin (setAccessOrigin origin None w).2
  = tail (access_for origin w) ++ [access_node (element_ids w) origin ∅] ∧
  (2 ≤ List.length (access_for origin (setAccessOrigin origin None w).2))%nat.
Proof.
  intros Hwf _ Hlen root w1.
  assert (Hset : access_for origin (setAccessOrigin origin None w).2
                 = tail (access_for origin w) ++ [access_node (element_ids w) origin ∅]).
  { rewrite AccessFacts.access_for_setAccessOrigin by done. simpl.
    by rewrite AccessFacts.access_node_for. }
  split; [by apply AccessFacts.removeAccessOrigin_run|].
  assert (Htail : access_for origin w1 = tail (access_for origin w)).
  { apply (TreeFacts.filter_without_first (is_access_for origin)). }
  split; [done|]. split.
  { rewrite Htail. destruct (access_for origin w); simpl in *; lia. }
  split; [by rewrite AccessFacts.setAccessOrigin_run|]. split; [done|].
  rewrite Hset, length_app. destruct (access_for origin w); simpl in *; lia.
Qed.

Lemma removeAccessOrigin_removes_first_only_witness :
  et._id <$> et._children (_root (this (removeAccessOrigin "https://a.com" example_world).2))
  = [2; 3; 4; 5]%N ∧
  et._id <$> access_for "https://a.com" (setAccessOrigin "https://a.com" None example_world).2
  = [4; 6]%N.
Proof.
  destruct (removeAccessOrigin_removes_first_only "https://a.com" example_world)
    as (-> & _ & _ & _ & -> & _).
  - apply (bool_decide_unpack _). by vm_compute.
  - reflexivity.
  - vm_compute. lia.
  - split; reflexivity.
Defined.

(** C5, amended: in a document whose nodes are distinct objects ([wf]),
    and for an origin that holds no double quote (the lookup path is built
    by pasting the origin between two of them, line 271),
    [setAccessOrigin(origin, options)] takes out the first [access] child
    of the root with the origin [origin], if there is one, and appends a new [access] node whose attributes are the entries of
    [options] over [origin]: every entry of [options] is an attribute of
    the node, and its [origin] attribute is [origin] unless [options] has a
    key [origin] of its own, whose value then replaces it.  Hence, when the
    root has at most one [access] child with the origin [origin] and
    [options] has no key [origin] or has it with the value [origin],
    calling [setAccessOrigin(origin)] and then
    [setAccessOrigin(origin, options)] leaves exactly one [access] child
    with that origin, carrying [options]. *)
Theorem setAccessOrigin_replaces (origin : string) (options : option (gmap string string))
    (w : world) :
  wf w → quote_free origin = true →
  let root := _root (this w) in
  let n := element_ids w in
  let node := access_node n origin (default ∅ options) in
  setAccessOrigin origin options w
  = (Normal tt,
     with_root (et.with_children
                  (without_first (is_access_for origin) (et._children root) ++ [node]) root)
               (World (N.succ n) (this w))) ∧
  (∀ key value, default ∅ options !! key = Some value → et.getAttribute key node = Some value) ∧
  et.getAttribute "origin" node = Some (default origin (default ∅ options !! "origin")) ∧
  ((List.length (access_for origin w) ≤ 1)%nat →
   ∀ latest : gmap string string, (∀ v, latest !! "origin" = Some v → v = origin) →
     (setAccessOrigin origin None ;; setAccessOrigin origin (Some latest)) w
     = (Normal tt, (setAccessOrigin origin (Some latest) (setAccessOrigin origin None w).2).2) ∧
     access_for origin (setAccessOrigin origin (Some latest) (setAccessOrigin origin None w).2).2
     = [access_node (N.succ n) origin latest]).
Proof.
  intros Hwf _ root n node.
  split; [by apply AccessFacts.setAccessOrigin_run|].
  split.
  { intros key value H. unfold et.getAttribute, node, access_node; simpl.
    by apply lookup_union_Some_l. }
  split.
  { unfold et.getAttribute, node, access_node; simpl.
    rewrite lookup_union. destruct (default ∅ options !! "origin"); simpl.
    - by rewrite lookup_singleton_eq.
    - by rewrite lookup_singleton_eq. }
  intros Hone latest Hlatest.
  pose proof (AccessFacts.setAccessOrigin_wf origin None w Hwf) as Hwf1.
  pose proof (AccessFacts.access_for_setAccessOrigin origin None w Hwf) as Hfor1.
  pose proof (AccessFacts.setAccessOrigin_run origin None w Hwf) as Hrun1.
  rewrite RunFacts.bind_run.
  destruct (setAccessOrigin origin None w) as [c1 w1]. simpl in Hwf1, Hfor1.
  injection Hrun1 as -> Hw1.
  assert (element_ids w1 = N.succ n) as Hn1 by (by rewrite Hw1).
  cbn [snd]. split.
  { by rewrite (AccessFacts.setAccessOrigin_run origin (Some latest) w1 Hwf1). }
  rewrite AccessFacts.access_for_setAccessOrigin, Hfor1, Hn1 by done. simpl.
  rewrite AccessFacts.access_node_for by done.
  rewrite AccessFacts.access_node_for_own by done.
  destruct (access_for origin w) as [|a [|b l]]; simpl in *; try done. lia.
Qed.

Lemma setAccessOrigin_replaces_witness :
  et.attrib <$> access_for "https://a.com"
    ((setAccessOrigin "https://a.com" None ;;
      setAccessOrigin "https://a.com" (Some {["subdomains" := "true"]})) empty_widget).2
  = [ {["origin" := "https://a.com"; "subdomains" := "true"]} ].
Proof.
  destruct (setAccessOrigin_replaces "https://a.com" None empty_widget)
    as (_ & _ & _ & Htwice).
  - apply (bool_decide_unpack _). by vm_compute.
  - reflexivity.
  - assert (Hkeys : ∀ v, ({["subdomains" := "true"]} : gmap string string) !! "origin"
                         = Some v → v = "https://a.com")
      by (intros v Hv; vm_compute in Hv; discriminate).
    destruct (Htwice ltac:(vm_compute; lia) _ Hkeys) as [Hrun Hfor].
    rewrite Hrun. cbn [snd]. rewrite Hfor. reflexivity.
Defined.

(** C5 as stated fails when [options] brings an [origin] of its own: after
    [setAccessOrigin("https://a.com")] and then
    [setAccessOrigin("https://a.com", {origin: "https://b.com"})] on
    [<widget/>], no [access] child has the origin [https://a.com]; the one
    child there is has [https://b.com]. *)
Lemma setAccessOrigin_options_override_origin :
  let w := ((setAccessOrigin "https://a.com" None ;;
             setAccessOrigin "https://a.com" (Some {["origin" := "https://b.com"]}))
              empty_widget).2 in
  access_for "https://a.com" w = [] ∧
  et.attrib <$> et._children (_root (this w)) = [ {["origin" := "https://b.com"]} ].
Proof. split; reflexivity. Qed.

(** ** Raw fragments *)

(** C9: [addRawXML(raw, atXPath, ifXPathDoesNotExist)] resolves both paths
    and looks them up from the root; the paths given are such as the
    lookup is modelled for ([well_formed], once resolved).  When [atXPath]
    is given and matches no node, and when [ifXPathDoesNotExist] is given
    and matches a node, the call returns without an error and the world is
    the one it started from.  Otherwise [raw] goes to the parser and, the
    parser accepting it, the fragment is appended to the children of the
    node matched by [atXPath] (looked up afterwards under its identity,
    that node is the one matched with the fragment as its last child), or
    of the root when [atXPath] is not given. *)
Theorem addRawXML_appends_or_skips {host : Host} (raw : string)
    (atXPath ifXPathDoesNotExist : option string) (w : world) :
  let root := _root (this w) in
  let at_path := default "" (fixAbsoluteXPath (_doc (this w)) atXPath) in
  let unless_path := default "" (fixAbsoluteXPath (_doc (this w)) ifXPathDoesNotExist) in
  (JsString.truthy atXPath = true → well_formed at_path = true) →
  (JsString.truthy ifXPathDoesNotExist = true → well_formed unless_path = true) →
  (JsString.truthy atXPath = true → et.find at_path root = None →
     addRawXML raw atXPath ifXPathDoesNotExist w = (Normal tt, w)) ∧
  (JsString.truthy ifXPathDoesNotExist = true → et.find unless_path root ≠ None →
     addRawXML raw atXPath ifXPathDoesNotExist w = (Normal tt, w)) ∧
  (JsString.truthy ifXPathDoesNotExist = false ∨ et.find unless_path root = None →
   ∀ m, parseXML raw = Some m →
     let fragment := (et.build m (element_ids w)).1 in
     let appended (node : et.Element) :=
       (Normal tt,
        with_root (et.update (et._id node) (et.append fragment) root)
                  (World (et.build m (element_ids w)).2 (this w))) in
     (∀ node, JsString.truthy atXPath = true → et.find at_path root = Some node →
        addRawXML raw atXPath ifXPathDoesNotExist w = appended node ∧
        (wf w →
         et.lookup (et._id node)
                   (_root (this (addRawXML raw atXPath ifXPathDoesNotExist w).2))
         = Some (et.append fragment node))) ∧
     (JsString.truthy atXPath = false →
        addRawXML raw atXPath ifXPathDoesNotExist w = appended root ∧
        et._children (_root (this (addRawXML raw atXPath ifXPathDoesNotExist w).2))
        = et._children root ++ [fragment])).
Proof.
  intros root at_path unless_path _ _.
  pose proof (RunFacts.addRawXML_run raw atXPath ifXPathDoesNotExist w) as Hrun.
  cbv zeta in Hrun. fold root at_path unless_path in Hrun.
  split; [|split].
  - intros Hat Hnone. by rewrite Hrun, Hat, Hnone.
  - intros Hif Hsome. rewrite Hrun, Hif.
    destruct (et.find unless_path root); [|done]. simpl.
    by repeat case_match.
  - intros Hunless m Hm fragment appended.
    assert (JsString.truthy ifXPathDoesNotExist
            && match et.find unless_path root with Some _ => true | None => false end
            = false) as Hskip.
    { destruct Hunless as [-> | ->]; [done | apply andb_false_r]. }
    rewrite Hm in Hrun.
    split.
    + intros node Hat Hnode.
      assert (addRawXML raw atXPath ifXPathDoesNotExist w = appended node) as Happ.
      { by rewrite Hrun, Hat, Hnode, Hskip. }
      split; [done|]. intros [Hnd _]. rewrite Happ. unfold appended.
      cbn [snd this with_root _root _doc et.getroot].
      rewrite NodeFacts.lookup_update by done.
      by rewrite NodeFacts.lookup_inside by eauto using NodeFacts.find_inside.
    + intros Hat.
      assert (addRawXML raw atXPath ifXPathDoesNotExist w = appended root) as Happ.
      { by rewrite Hrun, Hat, Hskip. }
      split; [done|]. rewrite Happ. unfold appended. simpl.
      by rewrite TreeFacts.update_self.
Qed.

Lemma addRawXML_appends_or_skips_witness :
  @addRawXML example_host "<foo/>" (Some "./missing/path") None example_world
  = (Normal tt, example_world) ∧
  @addRawXML example_host "<foo/>" None (Some "/widget/name") example_world
  = (Normal tt, example_world) ∧
  et.ids (_root (this (@addRawXML example_host "<foo/>" (Some "/widget/platform") None
                         example_world).2))
  = [0; 1; 2; 3; 4; 5; 6]%N ∧
  et.tag <$> et._children (_root (this (@addRawXML example_host "<foo/>" None None
                                          example_world).2))
  = ["access"; "name"; "access"; "access"; "platform"; "foo"].
Proof.
  split; [|split; [|split]].
  - refine (proj1 (@addRawXML_appends_or_skips example_host "<foo/>"
                     (Some "./missing/path") None example_world _ _) eq_refl eq_refl).
    + intros _. reflexivity.
    + intros [=].
  - refine (proj1 (proj2 (@addRawXML_appends_or_skips example_host "<foo/>"
                            None (Some "/widget/name") example_world _ _)) eq_refl _).
    + intros [=].
    + intros _. reflexivity.
    + vm_compute. discriminate.
  - destruct (@addRawXML_appends_or_skips example_host "<foo/>"
                (Some "/widget/platform") None example_world) as (_ & _ & Happ).
    + intros _. reflexivity.
    + intros [=].
    + destruct (Happ (or_introl eq_refl) (et.Markup "foo" ∅ None []) eq_refl)
        as [Hnode _].
      destruct (Hnode (et.mkElement 5 "platform" {["name" := "ios"]} None []))
        as [-> _]; reflexivity.
  - destruct (@addRawXML_appends_or_skips example_host "<foo/>" None None example_world)
      as (_ & _ & Happ).
    + intros [=].
    + intros [=].
    + destruct (Happ (or_introl eq_refl) (et.Markup "foo" ∅ None []) eq_refl)
        as [_ Hroot].
      destruct (Hroot eq_refl) as [_ ->]. reflexivity.
Defined.

(** * Further facts *)

(** ** Changes made to one node *)

Module UpdateFacts.
Import et TreeFacts NodeFacts.

Lemma update_update i f g e :
  (∀ x, _id (f x) = _id x) →
  update i g (update i f e) = update i (λ x, g (f x)) e.
Proof.
  intros Hid. induction e as [j t a x cs IH] using Element_nested_ind.
  rewrite (update_unfold i f), (update_unfold i (λ x, g (f x))). cbn [_id _children].
  destruct (N.eqb_spec j i) as [->|Hne].
  - rewrite <- (Hid (mkElement i t a x cs)) at 1. apply update_self.
  - rewrite update_unfold. cbn [with_children _id _children].
    apply N.eqb_neq in Hne as ->. unfold with_children. cbn [_id tag attrib text].
    f_equal. rewrite <- list_fmap_compose.
    induction IH as [|c cs Hc _ IHcs]; [done|].
    rewrite !fmap_cons. f_equal; [apply Hc | apply IHcs].
Qed.

Lemma update_same i e : update i (λ x, x) e = e.
Proof.
  induction e as [j t a x cs IH] using Element_nested_ind.
  rewrite update_unfold. cbn [_id _children]. destruct (N.eqb j i); [done|].
  unfold with_children; simpl. f_equal.
  induction IH as [|c cs Hc _ IHcs]; [done|].
  rewrite fmap_cons. by f_equal.
Qed.

Lemma update_ext i f g e : (∀ x, f x = g x) → update i f e = update i g e.
Proof.
  intros Hfg. induction e as [j t a x cs IH] using Element_nested_ind.
  rewrite !update_unfold. cbn [_id _children]. destruct (N.eqb j i); [apply Hfg|].
  f_equal. induction IH as [|c cs Hc _ IHcs]; [done|].
  rewrite !fmap_cons. by f_equal.
Qed.

Lemma update_absent_all i f (cs : list Element) :
  i ∉ flat_map ids cs → update i f <$> cs = cs.
Proof.
  induction cs as [|c cs IH]; [done|]. cbn [flat_map].
  rewrite elem_of_app. intros Hout.
  rewrite fmap_cons, InvariantFacts.update_absent, IH; tauto.
Qed.

(** A change that keeps the identity and the children of the node keeps the
    identities of the tree. *)
Lemma ids_update i f e :
  (∀ x, _id (f x) = _id x) → (∀ x, _children (f x) = _children x) →
  ids (update i f e) = ids e.
Proof.
  intros Hid Hcs. induction e as [j t a x cs IH] using Element_nested_ind.
  rewrite update_unfold. cbn [_id _children]. destruct (N.eqb j i).
  - by rewrite !ids_unfold, Hid, Hcs.
  - rewrite AccessFacts.ids_with_children. simpl. f_equal.
    induction IH as [|c cs' Hc _ IHcs]; [done|].
    rewrite fmap_cons. simpl. by rewrite Hc, IHcs.
Qed.

Lemma fold_update {A} i (g : A → Element → Element) (l : list A) r :
  (∀ a x, _id (g a x) = _id x) →
  fold_left (λ r a, update i (g a) r) l r
  = update i (λ x, fold_left (λ x a, g a x) l x) r.
Proof.
  intros Hid. revert r. induction l as [|a l IH]; intros r; simpl.
  - by rewrite update_same.
  - by rewrite IH, update_update.
Qed.

(** With distinct identities, a change to the first child that satisfies
    [p] changes that child and nothing else. *)
Lemma update_first_child (p : Element → bool) f e r :
  NoDup (ids r) →
  head (filter (λ c, p c = true) (_children r)) = Some e →
  update (_id e) f r = with_children (replace_first p f (_children r)) r.
Proof.
  intros Hnd Hhead. rewrite update_unfold.
  assert (e ∈ _children r) as Hin.
  { apply head_Some_elem_of in Hhead. by apply list_elem_of_filter in Hhead as [_ ?]. }
  rewrite ids_unfold in Hnd. apply NoDup_cons in Hnd as [Hroot Hnd].
  destruct (N.eqb_spec (_id r) (_id e)) as [E|_].
  { exfalso. apply Hroot. rewrite E. apply list_elem_of_In, in_flat_map.
    exists e. rewrite <- !list_elem_of_In. split; [done|].
    rewrite ids_unfold. apply list_elem_of_here. }
  f_equal. clear Hroot Hin.
  induction (_children r) as [|c cs IH]; [done|].
  simpl in Hnd. apply NoDup_app in Hnd as (Hnd1 & Hdisj & Hnd2).
  rewrite filter_cons in Hhead. rewrite fmap_cons. simpl.
  destruct (decide (p c = true)) as [Hp|Hp].
  - injection Hhead as <-. rewrite Hp, update_self. f_equal.
    apply update_absent_all. apply Hdisj. rewrite ids_unfold. apply list_elem_of_here.
  - apply not_true_is_false in Hp. rewrite Hp. f_equal; [|by apply IH].
    apply InvariantFacts.update_absent. intros Hbad. apply (Hdisj _ Hbad).
    apply head_Some_elem_of, list_elem_of_filter in Hhead as [_ Hin].
    apply list_elem_of_In, in_flat_map. exists e. rewrite <- !list_elem_of_In.
    split; [done|]. rewrite ids_unfold. apply list_elem_of_here.
Qed.

(** A change to a leaf just appended to the root changes that leaf. *)
Lemma update_appended f leaf r :
  _id leaf ∉ ids r →
  update (_id leaf) f (append leaf r) = with_children (_children r ++ [f leaf]) r.
Proof.
  intros Hout. rewrite update_unfold. rewrite ids_unfold, not_elem_of_cons in Hout.
  destruct Hout as [Hne Hout]. cbn [append _id _children].
  destruct (N.eqb_spec (_id r) (_id leaf)) as [E|_]; [congruence|].
  unfold with_children. cbn [_id tag attrib text]. f_equal.
  rewrite fmap_app, update_absent_all by done. simpl. by rewrite update_self.
Qed.

Lemma replace_first_none {A} (p : A → bool) f (l : list A) :
  filter (λ a, p a = true) l = [] → replace_first p f l = l.
Proof.
  induction l as [|a l IH]; [done|]. rewrite filter_cons. simpl.
  destruct (decide (p a = true)) as [Hp|Hp]; [done|].
  apply not_true_is_false in Hp. rewrite Hp. intros H. f_equal. by apply IH.
Qed.

Lemma replace_first_twice {A} (p : A → bool) f g (l : list A) :
  (∀ a, p (f a) = p a) →
  replace_first p g (replace_first p f l) = replace_first p (λ a, g (f a)) l.
Proof.
  intros Hp. induction l as [|a l IH]; [done|]. simpl.
  destruct (p a) eqn:E; simpl.
  - by rewrite Hp, E.
  - rewrite E. by f_equal.
Qed.

Lemma filter_replace_first {A} (p : A → bool) f (l : list A) :
  (∀ a, p (f a) = p a) →
  head (filter (λ a, p a = true) (replace_first p f l))
  = f <$> head (filter (λ a, p a = true) l).
Proof.
  intros Hp. induction l as [|a l IH]; [done|]. simpl.
  destruct (p a) eqn:E.
  - rewrite !filter_cons, Hp, E. by rewrite !decide_True.
  - rewrite !filter_cons. rewrite !decide_False by congruence. apply IH.
Qed.

(** What is left of the other children. *)
Lemma filter_replace_first_other {A} (p q : A → bool) f (l : list A) :
  (∀ a, p a = true → q a = false) → (∀ a, p a = true → q (f a) = false) →
  filter (λ a, q a = true) (replace_first p f l) = filter (λ a, q a = true) l.
Proof.
  intros Hq Hqf. induction l as [|a l IH]; [done|]. simpl.
  destruct (p a) eqn:E.
  - rewrite !filter_cons. rewrite !decide_False; [done| |].
    + rewrite Hq; done.
    + rewrite Hqf; done.
  - rewrite !filter_cons, IH. done.
Qed.

End UpdateFacts.

(** ** [setElement], step by step *)

Module ElementFacts.
Import et TreeFacts NodeFacts RunFacts UpdateFacts.

Lemma mutate_run e f w :
  mutate e f w = (Normal tt, with_root (update (_id e) f (_root (this w))) w).
Proof. reflexivity. Qed.

Lemma forEach_mutate {A} e (g : A → Element → Element) (l : list A) w :
  forEach l (λ a, mutate e (g a)) w
  = (Normal tt,
     with_root (fold_left (λ r a, update (_id e) (g a) r) l (_root (this w))) w).
Proof.
  revert w. induction l as [|a l IH]; intros w; simpl.
  - by rewrite with_root_id.
  - by rewrite bind_run, mutate_run, IH.
Qed.

Lemma rewritten_built t (o : gmap string string) x :
  fold_left (λ x kv, setAttribute kv.1 kv.2 x) (map_to_list o)
            (Element_clearAttrib (Element_setText t x))
  = rewritten t o x.
Proof.
  rewrite fold_setAttribute by apply NoDup_fst_map_to_list.
  unfold rewritten; simpl. by rewrite list_to_map_to_list, (right_id_L ∅ (∪)).
Qed.

(** The three writes on the element, as one change. *)
Lemma rewrite_run e t (attribs : attributes) w :
  (mutate e (Element_setText t) ;;
   mutate e Element_clearAttrib ;;
   match attribs with
   | NoAttributes => mret tt
   | NullAttributes => throw (TypeError "keys")
   | Attributes o => forEach (map_to_list o) (λ kv, mutate e (setAttribute kv.1 kv.2))
   end) w
  = (match attribs with NullAttributes => Throw (TypeError "keys") | _ => Normal tt end,
     with_root (update (_id e)
                  (rewritten t (match attribs with Attributes o => o | _ => ∅ end))
                  (_root (this w))) w).
Proof.
  rewrite bind_run, mutate_run, bind_run, mutate_run.
  cbn [with_root this _root _doc getroot element_ids _file].
  rewrite update_update by done.
  destruct attribs as [| |o].
  - done.
  - done.
  - rewrite forEach_mutate.
    cbn [with_root this _root _doc getroot element_ids _file].
    rewrite fold_update by done. rewrite update_update by done.
    f_equal. unfold with_root. do 3 f_equal.
    apply update_ext. intros x. apply rewritten_built.
Qed.

(** [setElement] on any tag: the node found, or else a node just created
    and appended, is rewritten. *)
Lemma setElement_run tag text attribs w :
  setElement tag text attribs w
  = (outcome text attribs,
     match find ("./" +:+ tag) (_root (this w)) with
     | Some e =>
         with_root (update (_id e)
                      (rewritten (or_empty text) (written_attributes text attribs))
                      (_root (this w))) w
     | None =>
         with_root (update (element_ids w)
                      (rewritten (or_empty text) (written_attributes text attribs))
                      (append (mkElement (element_ids w) tag ∅ None []) (_root (this w))))
                   (World (N.succ (element_ids w)) (this w))
     end).
Proof.
  unfold setElement. cbv zeta.
  rewrite bind_run. unfold doc_find at 1, gets at 1.
  assert (E : or_empty (if typeof_is_object text then Str "" else text) = or_empty text)
    by (by destruct text).
  rewrite E. unfold outcome, null_attributes, written_attributes.
  destruct (find ("./" +:+ tag) (_root (this w))) as [e|].
  - rewrite bind_run. unfold mret at 1, M_ret at 1.
    rewrite rewrite_run.
    by destruct (if typeof_is_object text then as_attributes text else attribs).
  - rewrite bind_run, bind_run, alloc_Element_run, bind_run, root_append_run.
    unfold mret at 1, M_ret at 1.
    rewrite rewrite_run.
    by destruct (if typeof_is_object text then as_attributes text else attribs).
Qed.

Lemma plain_char c :
  RegExp.is_word c || Ascii.eqb c "-" = true →
  Ascii.eqb c "/" = false ∧ Ascii.eqb c "[" = false.
Proof.
  destruct c as [[] [] [] [] [] [] [] []]; vm_compute; intros H; try done.
Qed.

Lemma steps_plain name s :
  forallb (λ c, RegExp.is_word c || Ascii.eqb c "-") (list_ascii_of_string s) = true →
  name +:+ s ≠ "" →
  steps name s = Some [Child (name +:+ s)].
Proof.
  revert name. induction s as [|c s IH]; intros name Hs Hne.
  - rewrite RegExpFacts.app_nil_r in *. by destruct name.
  - simpl in Hs. apply andb_true_iff in Hs as [Hc Hs].
    apply plain_char in Hc as [H1 H2]. cbn [steps]. rewrite H1, H2.
    rewrite IH; [|done|].
    + by rewrite RegExpFacts.app_assoc.
    + rewrite RegExpFacts.app_assoc. done.
Qed.

Lemma selectors_child tag :
  plain_name tag = true → selectors ("./" +:+ tag) = Some [Child tag].
Proof.
  unfold plain_name. intros [Hne Hs]%andb_true_iff.
  change (selectors ("./" +:+ tag)) with (steps "" tag).
  rewrite steps_plain; [done|done|].
  rewrite StringFacts.app_nil. intros ->. done.
Qed.

Lemma find_child tag e :
  plain_name tag = true →
  find ("./" +:+ tag) e = head (filter (λ c, has_tag tag c = true) (_children e)).
Proof.
  intros Hp. unfold find, findall. rewrite selectors_child by done.
  simpl. by rewrite app_nil_r.
Qed.

Lemma wf_fresh w : wf w → element_ids w ∉ ids (_root (this w)).
Proof.
  intros [_ Hlt] Hin. rewrite Forall_forall in Hlt. specialize (Hlt _ Hin). lia.
Qed.

(** [setElement] on a plain tag, in a document of distinct objects. *)
Lemma setElement_closed tag text attribs w :
  plain_name tag = true → wf w →
  setElement tag text attribs w
  = (outcome text attribs,
     let f := rewritten (or_empty text) (written_attributes text attribs) in
     let root := _root (this w) in
     if existsb (has_tag tag) (_children root)
     then with_root (with_children (replace_first (has_tag tag) f (_children root)) root) w
     else with_root
            (with_children (_children root ++ [f (mkElement (element_ids w) tag ∅ None [])])
                           root)
            (World (N.succ (element_ids w)) (this w))).
Proof.
  intros Hp Hwf. rewrite setElement_run, find_child by done. cbv zeta. f_equal.
  destruct (head _) as [e|] eqn:Hhead.
  - assert (existsb (has_tag tag) (_children (_root (this w))) = true) as ->.
    { apply head_Some_elem_of, list_elem_of_filter in Hhead as [He Hin].
      apply existsb_exists. exists e. by rewrite <- list_elem_of_In. }
    by rewrite (update_first_child (has_tag tag) _ e) by (done || apply Hwf).
  - assert (existsb (has_tag tag) (_children (_root (this w))) = false) as ->.
    { apply head_None in Hhead. apply not_true_is_false.
      intros (c & Hin & Hc)%existsb_exists. apply list_elem_of_In in Hin.
      assert (c ∈ filter (λ c, has_tag tag c = true) (_children (_root (this w)))) as Hbad
        by (by apply list_elem_of_filter).
      rewrite Hhead in Hbad. by apply elem_of_nil in Hbad. }
    by rewrite (update_appended _ (mkElement (element_ids w) tag ∅ None []))
      by (by apply wf_fresh).
Qed.

(** [setElement] keeps the nodes distinct objects, whatever the tag. *)
Lemma setElement_wf tag text attribs w : wf w → wf (setElement tag text attribs w).2.
Proof.
  intros Hwf. rewrite setElement_run. cbn [snd].
  destruct (find _ _) as [e|].
  - apply InvariantFacts.wf_same_ids; [|done]. by apply ids_update.
  - assert (Hnew : wf (with_root (append (mkElement (element_ids w) tag ∅ None [])
                                    (_root (this w)))
                         (World (N.succ (element_ids w)) (this w)))).
    { change (append ?h ?r) with (with_children (_children r ++ [h]) r).
      by apply AccessFacts.wf_append_leaf. }
    refine (InvariantFacts.wf_same_ids _ _ _ Hnew). by apply ids_update.
Qed.

Lemma has_tag_rewritten tag t a x : has_tag tag (rewritten t a x) = has_tag tag x.
Proof. reflexivity. Qed.

Lemma head_filter_None {A} (p : A → bool) (l : list A) :
  existsb p l = false → filter (λ a, p a = true) l = [].
Proof.
  induction l as [|a l IH]; [done|]. simpl. intros [Ha Hl]%orb_false_iff.
  rewrite filter_cons, decide_False by congruence. by apply IH.
Qed.

Lemma head_filter_Some {A} (p : A → bool) (l : list A) :
  existsb p l = true → ∃ a, head (filter (λ a, p a = true) l) = Some a.
Proof.
  induction l as [|a l IH]; [done|]. simpl. rewrite filter_cons.
  destruct (p a) eqn:E.
  - intros _. exists a. by rewrite decide_True.
  - rewrite decide_False by congruence. apply IH.
Qed.

(** The first child with the tag, after [setElement]. *)
Lemma first_child_after tag text attribs w :
  plain_name tag = true → wf w →
  head (filter (λ c, has_tag tag c = true)
          (_children (_root (this (setElement tag text attribs w).2))))
  = Some (rewritten (or_empty text) (written_attributes text attribs)
            (default (mkElement (element_ids w) tag ∅ None [])
               (head (filter (λ c, has_tag tag c = true) (_children (_root (this w))))))).
Proof.
  intros Hp Hwf. rewrite setElement_closed by done. cbv zeta. cbn [snd].
  destruct (existsb _ _) eqn:E.
  - cbn [with_root this _root _doc getroot with_children _children].
    rewrite filter_replace_first by done.
    apply head_filter_Some in E as [e ->]. done.
  - cbn [with_root this _root _doc getroot with_children _children].
    apply head_filter_None in E. rewrite filter_app, E. simpl.
    rewrite filter_cons, decide_True; [done|].
    unfold has_tag; simpl. apply String.eqb_refl.
Qed.

(** The children with another tag, after [setElement]. *)
Lemma other_children_after tag tag' text attribs w :
  plain_name tag = true → wf w → tag ≠ tag' →
  filter (λ c, has_tag tag' c = true)
    (_children (_root (this (setElement tag text attribs w).2)))
  = filter (λ c, has_tag tag' c = true) (_children (_root (this w))).
Proof.
  intros Hp Hwf Hne. rewrite setElement_closed by done. cbv zeta. cbn [snd].
  assert (Hother : ∀ c, has_tag tag c = true → has_tag tag' c = false).
  { intros c Hc. unfold has_tag in *. apply String.eqb_eq in Hc.
    apply String.eqb_neq. congruence. }
  destruct (existsb _ _).
  - cbn [with_root this _root _doc getroot with_children _children].
    apply filter_replace_first_other; [done|]. intros c Hc. by apply Hother.
  - cbn [with_root this _root _doc getroot with_children _children].
    rewrite filter_app, filter_cons, decide_False, filter_nil, app_nil_r; [done|].
    rewrite Hother; [done|]. unfold has_tag; simpl. apply String.eqb_refl.
Qed.

End ElementFacts.

(** ** Children taken out, and those of another origin *)

Module OriginFacts.
Import et TreeFacts RunFacts AccessFacts.

Lemma without_first_none {A} (p : A → bool) (l : list A) :
  filter (λ a, p a = true) l = [] → without_first p l = l.
Proof.
  induction l as [|a l IH]; [done|]. rewrite filter_cons. simpl.
  destruct (decide (p a = true)) as [|Hp]; [done|].
  apply not_true_is_false in Hp. rewrite Hp. intros H. f_equal. by apply IH.
Qed.

Lemma without_first_length {A} (p : A → bool) (l : list A) :
  filter (λ a, p a = true) l ≠ [] → S (List.length (without_first p l)) = List.length l.
Proof.
  induction l as [|a l IH]; [done|]. rewrite filter_cons. simpl.
  destruct (decide (p a = true)) as [Hp|Hp].
  - by rewrite Hp.
  - apply not_true_is_false in Hp. rewrite Hp. intros H. simpl. f_equal. by apply IH.
Qed.

Lemma without_first_last {A} (p : A → bool) (l : list A) a :
  filter (λ a, p a = true) l = [] → p a = true → without_first p (l ++ [a]) = l.
Proof.
  intros Hl Ha. induction l as [|b l IH]; simpl.
  - by rewrite Ha.
  - rewrite filter_cons in Hl. destruct (decide (p b = true)) as [|Hb]; [done|].
    apply not_true_is_false in Hb. rewrite Hb. f_equal. by apply IH.
Qed.



End OriginFacts.

(** ** What the other patterns let through *)

Module PatternFacts.
Import RegExp RegExpFacts.

Lemma android_pattern_compiles :
  RegExp android_version_code_pattern = Some (mkRegexp true true (plus digit_class)).
Proof. reflexivity. Qed.

Lemma ios_pattern_compiles :
  RegExp ios_bundle_version_pattern
  = Some (mkRegexp true true
            (Seq (Cls false [Rng "1" "9"])
               (Seq (Star digit_class)
                  (Seq Eps
                     (opt (Seq (Seq Dot (plus digit_class))
                             (opt (Seq (Seq Dot (plus digit_class)) Eps)))))))).
Proof. reflexivity. Qed.

Lemma id_pattern_compiles :
  RegExp id_pattern
  = Some (mkRegexp true true
            (Seq (Cls false [Rng "0" "9"; Rng "a" "z"; Rng "A" "Z"])
               (Seq (Star (Seq (Star (Cls false [Chr "-"; Chr "."; Chr "w"]))
                               (Cls false [Rng "0" "9"; Rng "a" "z"; Rng "A" "Z"])))
                  (Seq (Star (Seq (Lit ":")
                                (Star (Seq (Lit "0") (Seq (Lit "-") (Lit "9"))))))
                     (Seq (opt (Lit "/"))
                        (opt (Star (Cls false id_tail_class)))))))).
Proof. reflexivity. Qed.

Lemma lang_cls items s :
  lang (Cls false items) s ↔ ∃ c, s = String c "" ∧ existsb (item_has c) items = true.
Proof.
  split.
  - inversion 1; subst. eauto.
  - intros (c & -> & Hc). by constructor.
Qed.

Lemma lang_star_cls items s :
  Forall (λ c, existsb (item_has c) items = true) (list_ascii_of_string s) →
  lang (Star (Cls false items)) s.
Proof.
  induction s as [|c s IH]; simpl; [constructor|].
  intros [Hc Hs]%Forall_cons.
  change (String c s) with (String c "" +:+ s).
  constructor; [apply lang_cls; eauto | auto].
Qed.

Lemma lang_opt r s : lang (opt r) s ↔ lang r s ∨ s = "".
Proof.
  unfold opt. split.
  - inversion 1; subst; [by left|]. right. by apply lang_eps_inv.
  - intros [H| ->]; [by apply lang_alt_l | apply lang_alt_r; constructor].
Qed.

Lemma lang_component s : lang (Seq Dot (plus digit_class)) s ↔ component s.
Proof.
  rewrite lang_seq_inv. unfold component, any_but_newline, number. split.
  - intros (? & n & -> & (x & -> & Hx)%lang_dot & Hn%lang_number). by exists x, n.
  - intros (x & n & -> & Hx & Hn). exists (String x ""), n.
    split; [done|]. split; [apply lang_dot; eauto | by apply lang_number].
Qed.

(** Every code unit of a string that a pattern denotes can occur in it. *)
Lemma may_hold_spec r s :
  lang r s → Forall (λ c, may_hold c r = true) (list_ascii_of_string s).
Proof.
  induction 1 as [|c|c Hc|c|neg items c Hc|r1 r2 s1 s2 _ IH1 _ IH2|r1 r2 s _ IH
                  |r1 r2 s _ IH| |r s1 s2 _ IH1 _ IH2]; simpl.
  - constructor.
  - by repeat constructor.
  - repeat constructor. by rewrite Hc.
  - repeat constructor. apply Ascii.eqb_refl.
  - by repeat constructor.
  - rewrite VersionFacts.chars_app. apply Forall_app. split.
    + eapply Forall_impl; [exact IH1|]. simpl. by intros c ->.
    + eapply Forall_impl; [exact IH2|]. simpl. intros c ->. apply orb_true_r.
  - eapply Forall_impl; [exact IH|]. simpl. by intros c ->.
  - eapply Forall_impl; [exact IH|]. simpl. intros c ->. apply orb_true_r.
  - constructor.
  - rewrite VersionFacts.chars_app. apply Forall_app. by split.
Qed.

Lemma valid_android s : valid android_version_code_pattern s = true ↔ number s.
Proof.
  unfold valid. rewrite android_pattern_compiles, test_anchored, matches_spec.
  apply lang_number.
Qed.

Lemma valid_ios s : valid ios_bundle_version_pattern s = true ↔ ios_bundle_version s.
Proof.
  unfold valid. rewrite ios_pattern_compiles, test_anchored, matches_spec.
  unfold ios_bundle_version, digits, nonzero_digit. split.
  - intros (? & ? & -> & (c & -> & Hc)%lang_cls &
            (ds & ? & -> & Hds%lang_star_digits &
             (? & rest & -> & ->%lang_eps_inv & Hrest)%lang_seq_inv)%lang_seq_inv)
             %lang_seq_inv.
    exists c, ds, rest. rewrite StringFacts.app_nil. split; [done|].
    split; [simpl in Hc; by rewrite orb_false_r in Hc|]. split; [done|].
    apply lang_opt in Hrest as [Hrest| ->]; [|by left]. right.
    apply lang_seq_inv in Hrest as (g1 & t & -> & Hg1%lang_component & Ht).
    apply lang_opt in Ht as [Ht| ->].
    + right. apply lang_seq_inv in Ht as (g2 & ? & -> & Hg2%lang_component & ->%lang_eps_inv).
      exists g1, g2. by rewrite app_nil_r.
    + left. by rewrite app_nil_r.
  - intros (c & ds & rest & -> & Hc & Hds & Hrest).
    change (String c ds +:+ rest) with (String c "" +:+ (ds +:+ ("" +:+ rest))).
    constructor; [apply lang_cls; exists c; split; [done|]; simpl; by rewrite orb_false_r|].
    constructor; [by apply lang_star_digits|].
    constructor; [constructor|].
    apply lang_opt. destruct Hrest as [->|[Hg|(g1 & g2 & -> & Hg1 & Hg2)]]; [by right| |].
    + left. rewrite <- (app_nil_r rest). constructor; [by apply lang_component|].
      apply lang_opt. by right.
    + left. constructor; [by apply lang_component|].
      apply lang_opt. left. rewrite <- (app_nil_r g2).
      constructor; [by apply lang_component | constructor].
Qed.

Lemma id_chars c :
  may_hold c
    (Seq (Cls false [Rng "0" "9"; Rng "a" "z"; Rng "A" "Z"])
       (Seq (Star (Seq (Star (Cls false [Chr "-"; Chr "."; Chr "w"]))
                       (Cls false [Rng "0" "9"; Rng "a" "z"; Rng "A" "Z"])))
          (Seq (Star (Seq (Lit ":")
                        (Star (Seq (Lit "0") (Seq (Lit "-") (Lit "9"))))))
             (Seq (opt (Lit "/"))
                (opt (Star (Cls false id_tail_class))))))) = true →
  id_char c || Ascii.eqb c ":" = true.
Proof. destruct c as [[] [] [] [] [] [] [] []]; vm_compute; intros H; done. Qed.

Lemma valid_id_inv s :
  valid id_pattern s = true →
  ∃ c rest, s = String c rest ∧ alphanumeric c = true ∧
            Forall (λ x, id_char x || Ascii.eqb x ":" = true) (list_ascii_of_string rest).
Proof.
  unfold valid. rewrite id_pattern_compiles, test_anchored, matches_spec.
  intros H. pose proof (may_hold_spec _ _ H) as Hall.
  apply lang_seq_inv in H as (? & rest & -> & (c & -> & Hc)%lang_cls & _).
  exists c, rest. split; [done|]. split.
  - unfold alphanumeric, between. simpl in Hc. by rewrite orb_false_r, orb_assoc in Hc.
  - rewrite StringFacts.app_cons, StringFacts.app_nil in Hall. simpl in Hall.
    apply Forall_cons in Hall as [_ Hall].
    eapply Forall_impl; [exact Hall|]. intros x. apply id_chars.
Qed.

Lemma valid_id c rest :
  alphanumeric c = true →
  Forall (λ x, id_char x = true) (list_ascii_of_string rest) →
  valid id_pattern (String c rest) = true.
Proof.
  intros Hc Hrest.
  unfold valid. rewrite id_pattern_compiles, test_anchored, matches_spec.
  change (String c rest) with (String c "" +:+ ("" +:+ ("" +:+ ("" +:+ rest)))).
  constructor.
  { apply lang_cls. exists c. split; [done|]. simpl.
    unfold alphanumeric, between in Hc. by rewrite orb_false_r, orb_assoc. }
  constructor; [constructor|]. constructor; [constructor|].
  constructor; [apply lang_opt; by right|].
  apply lang_opt. left. by apply lang_star_cls.
Qed.

End PatternFacts.

(** ** What every method keeps *)

Module SessionFacts.
Import et TreeFacts NodeFacts RunFacts.

Lemma same_document_refl w : same_document w w.
Proof. unfold same_document. repeat split; lia. Qed.

Lemma same_document_trans w1 w2 w3 :
  same_document w1 w2 → same_document w2 w3 → same_document w1 w3.
Proof.
  unfold same_document. intros (F1 & I1 & T1 & N1) (F2 & I2 & T2 & N2).
  repeat split; [congruence..|lia].
Qed.

Lemma update_root i f r :
  (∀ x, _id (f x) = _id x) → (∀ x, tag (f x) = tag x) →
  _id (update i f r) = _id r ∧ tag (update i f r) = tag r.
Proof.
  intros Hid Htag. rewrite update_unfold. by destruct (N.eqb _ _).
Qed.

Lemma keeps_ret {A} (a : A) : keeps (mret a).
Proof. intros w. apply same_document_refl. Qed.

Lemma keeps_throw {A} e : keeps (throw e : M world A).
Proof. intros w. apply same_document_refl. Qed.

Lemma keeps_gets {A} (f : world → A) : keeps (gets f).
Proof. intros w. apply same_document_refl. Qed.

Lemma keeps_bind {A B} (m : M world A) (k : A → M world B) :
  keeps m → (∀ a, keeps (k a)) → keeps (m ≫= k).
Proof.
  intros Hm Hk w. rewrite bind_run. specialize (Hm w).
  destruct (m w) as [[a|e] w1]; [|done].
  eapply same_document_trans; [exact Hm | apply Hk].
Qed.

Lemma keeps_mutate e f :
  (∀ x, _id (f x) = _id x) → (∀ x, tag (f x) = tag x) → keeps (mutate e f).
Proof.
  intros Hid Htag w. destruct (update_root (_id e) f (_root (this w)) Hid Htag) as [H1 H2].
  unfold same_document. cbn [mutate modify snd with_root this _root _doc getroot _file
                             element_ids].
  repeat split; [done..|lia].
Qed.

Lemma keeps_new_Element name : keeps (alloc (new_Element name)).
Proof.
  intros w. rewrite alloc_Element_run. unfold same_document; simpl.
  repeat split; lia.
Qed.

Lemma keeps_XML {host : Host} text : keeps (alloc (XML text)).
Proof.
  intros w. unfold alloc, XML. destruct (parseXML text) as [m|].
  - destruct (InvariantFacts.build_ids m (element_ids w)) as (_ & _ & Hlt).
    destruct (build m (element_ids w)) as [e n]. unfold same_document; simpl in *.
    repeat split; lia.
  - unfold same_document; simpl. repeat split; lia.
Qed.

Lemma keeps_new_RegExp text : keeps (new_RegExp text).
Proof.
  intros w. unfold new_RegExp. destruct (RegExp.RegExp text); apply same_document_refl.
Qed.

Lemma keeps_forEach {A} (l : list A) (body : A → M world unit) :
  (∀ a, keeps (body a)) → keeps (forEach l body).
Proof.
  intros Hbody. induction l as [|a l IH]; simpl.
  - apply keeps_ret.
  - apply keeps_bind; [apply Hbody | by intros _].
Qed.

Lemma keeps_root_append child : keeps (root_append child).
Proof.
  apply keeps_bind; [apply keeps_gets|]. intros r. by apply keeps_mutate.
Qed.

Lemma keeps_root_remove child : keeps (root_remove child).
Proof.
  apply keeps_bind; [apply keeps_gets|]. intros r. by apply keeps_mutate.
Qed.

Ltac keeps_step :=
  lazymatch goal with
  | |- keeps (mret _) => apply keeps_ret
  | |- keeps (throw _) => apply keeps_throw
  | |- keeps (gets _) => apply keeps_gets
  | |- keeps (alloc (new_Element _)) => apply keeps_new_Element
  | |- keeps (alloc (XML _)) => apply keeps_XML
  | |- keeps (new_RegExp _) => apply keeps_new_RegExp
  | |- keeps (root_append _) => apply keeps_root_append
  | |- keeps (root_remove _) => apply keeps_root_remove
  | |- keeps (mutate _ _) => apply keeps_mutate; [done | done]
  | |- keeps (forEach _ _) => apply keeps_forEach; intros ?
  | |- keeps (mbind _ _) => apply keeps_bind; [|intros ?]
  | |- keeps (match ?x with _ => _ end) => destruct x
  end.

Lemma keeps_setElement name text attribs : keeps (setElement name text attribs).
Proof. unfold setElement, doc_find. cbv zeta. repeat keeps_step. Qed.

Lemma keeps_run {host : Host} c : keeps (run c).
Proof.
  destruct c; cbn [run].
  - unfold setID, this_root. repeat keeps_step.
  - unfold setVersion, this_root. repeat keeps_step.
  - unfold setAndroidVersionCode, this_root. repeat keeps_step.
  - unfold setIOSBundleVersion, this_root. repeat keeps_step.
  - unfold setPreference, doc_find, this_root. cbv zeta. repeat keeps_step.
  - unfold removeAccessOrigins, doc_findall. repeat keeps_step.
  - unfold removeAccessOrigin, doc_find. repeat keeps_step.
  - unfold setAccessOrigin, removeAccessOrigin, doc_find. cbv zeta. repeat keeps_step.
  - unfold addHook. cbv zeta. repeat keeps_step.
  - unfold addRawXML, this_doc, doc_find, this_root. cbv zeta. repeat keeps_step.
Qed.

Lemma keeps_perform {host : Host} m : keeps (perform m).
Proof.
  destruct m; cbn [perform].
  - apply keeps_run.
  - apply keeps_setElement.
  - unfold setName. apply keeps_setElement.
  - unfold setDescription. apply keeps_setElement.
  - unfold setAuthor. cbv zeta. apply keeps_setElement.
Qed.

Lemma wf_perform {host : Host} m w : wf w → wf (perform m w).2.
Proof.
  destruct m; cbn [perform].
  - apply InvariantFacts.wf_preserved.
  - apply ElementFacts.setElement_wf.
  - unfold setName. apply ElementFacts.setElement_wf.
  - unfold setDescription. apply ElementFacts.setElement_wf.
  - unfold setAuthor. cbv zeta. apply ElementFacts.setElement_wf.
Qed.

Lemma session_keeps {host : Host} ms w : same_document w (session ms w).
Proof.
  revert w. induction ms as [|m ms IH]; intros w; simpl.
  - apply same_document_refl.
  - eapply same_document_trans; [apply keeps_perform | apply IH].
Qed.

Lemma session_wf {host : Host} ms w : wf w → wf (session ms w).
Proof.
  revert w. induction ms as [|m ms IH]; intros w Hwf; simpl; [done|].
  by apply IH, wf_perform.
Qed.

Lemma Config_new_widget {host : Host} file n n' c :
  Config_new file n = (Normal c, n') →
  _file c = file ∧ tag (_root c) = "widget" ∧ (n ≤ n')%N.
Proof.
  unfold Config_new, parse, XML, throw, mbind, M_bind, mret, M_ret.
  destruct (readFileSync file) as [text|]; [|done]. cbv beta iota zeta.
  destruct (parseXML _) as [m|]; [|done].
  destruct (InvariantFacts.build_ids m n) as (_ & _ & Hlt).
  destruct (build m n) as [root k]. simpl in *.
  destruct (String.eqb_spec (tag root) "widget") as [E|]; [|done]. simpl.
  intros [= <- <-]. repeat split; [done|lia].
Qed.

End SessionFacts.

(** ** Loading, paths and fragments *)

Module LoadFacts.
Import JsString StringFacts.

Lemma indexOf_first c junk rest :
  c ∉ list_ascii_of_string junk →
  indexOf (junk +:+ String c rest) (String c "") = Z.of_nat (String.length junk).
Proof.
  induction junk as [|a junk IH]; intros Hout.
  - rewrite app_nil, indexOf_cons, startsWith_cons, Ascii.eqb_refl. done.
  - simpl in Hout. apply not_elem_of_cons in Hout as [Hne Hout].
    rewrite app_cons, indexOf_cons, startsWith_cons, (IH Hout).
    destruct (Ascii.eqb_spec c a) as [E|_]; [done|].
    destruct (Z.ltb_spec (Z.of_nat (String.length junk)) 0); simpl String.length; lia.
Qed.

(** What [parse] hands to the parser. *)
Lemma substring_first c junk rest :
  c ∉ list_ascii_of_string junk →
  substring (junk +:+ String c rest) (indexOf (junk +:+ String c rest) (String c ""))
  = String c rest.
Proof.
  intros Hout. unfold substring. rewrite indexOf_first, Nat2Z.id by done.
  apply skip_app.
Qed.

Lemma fixAbsoluteXPath_relative doc path :
  fixAbsoluteXPath doc (Some ("./" +:+ path)) = Some ("./" +:+ path).
Proof.
  unfold fixAbsoluteXPath.
  destruct (Z.eqb_spec (indexOf ("./" +:+ path) ("/" +:+ et.tag (et.getroot doc))) 0)
    as [E|_]; [|by rewrite andb_false_r].
  by apply indexOf_0 in E.
Qed.

Lemma build_tag t a x ms n : et.tag (et.build (et.Markup t a x ms) n).1 = t.
Proof. rewrite InvariantFacts.build_unfold. by destruct (et.build_all ms (N.succ n)). Qed.



End LoadFacts.

(** * Further properties of the module *)

(** ** [setElement] and the setters built on it *)

(** X1: in a document whose nodes are distinct objects ([wf]),
    [setElement(tag, text, attribs)] on a plain tag keeps the root as it
    is but for its children, and the file name.  When the root has a child
    with that tag, the first such child is rewritten where it stands (its
    text and attributes replaced, its children kept) and no node is
    created; otherwise one node with the text and the attributes is
    appended as the last child.  The call throws exactly when it reaches
    [Object.keys(null)]. *)
Theorem setElement_upserts (tag : string) (text : jsval) (attribs : attributes) (w : world) :
  plain_name tag = true → wf w →
  let root := _root (this w) in
  let w' := (setElement tag text attribs w).2 in
  let root' := _root (this w') in
  (setElement tag text attribs w).1 = outcome text attribs ∧
  et.with_children (et._children root) root' = root ∧
  _file (this w') = _file (this w) ∧
  (existsb (et.has_tag tag) (et._children root) = true →
     et._children root'
     = replace_first (et.has_tag tag)
         (rewritten (or_empty text) (written_attributes text attribs)) (et._children root) ∧
     element_ids w' = element_ids w) ∧
  (existsb (et.has_tag tag) (et._children root) = false →
     et._children root'
     = et._children root
       ++ [et.mkElement (element_ids w) tag (written_attributes text attribs)
             (Some (or_empty text)) []] ∧
     element_ids w' = N.succ (element_ids w)).
Proof.
  intros Hp Hwf root w' root'. subst w' root'.
  rewrite ElementFacts.setElement_closed by done. cbv zeta. cbn [fst snd]. fold root.
  split; [done|].
  destruct (existsb _ _).
  - cbn [with_root this _root _doc et.getroot et.with_children et._children element_ids _file].
    split; [by destruct root|]. split; [done|]. split; [done|]. intros [=].
  - cbn [with_root this _root _doc et.getroot et.with_children et._children element_ids _file].
    split; [by destruct root|]. split; [done|]. split; [intros [=]|]. done.
Qed.

Lemma setElement_upserts_witness :
  et._children (_root (this (setElement "name" (Str "Other") NoAttributes example_world).2))
  = [access_leaf 1 "https://a.com";
     et.mkElement 2 "name" ∅ (Some "Other") [];
     access_leaf 3 "https://b.com";
     access_leaf 4 "https://a.com";
     et.mkElement 5 "platform" {["name" := "ios"]} None []] ∧
  et._children (_root (this (setElement "name" (Obj {["short" := "A"]}) NoAttributes
                               empty_widget).2))
  = [et.mkElement 1 "name" {["short" := "A"]} (Some "") []].
Proof.
  split.
  - destruct (setElement_upserts "name" (Str "Other") NoAttributes example_world)
      as (_ & _ & _ & H & _).
    + reflexivity.
    + apply (bool_decide_unpack _). by vm_compute.
    + destruct (H eq_refl) as [-> _]. reflexivity.
  - destruct (setElement_upserts "name" (Obj {["short" := "A"]}) NoAttributes empty_widget)
      as (_ & _ & _ & _ & H).
    + reflexivity.
    + apply (bool_decide_unpack _). by vm_compute.
    + destruct (H eq_refl) as [-> _]. reflexivity.
Defined.

(** X2: after [setElement(tag, text, attribs)], the path [./tag] finds a
    node with that tag whose text is [text || ''] and whose attributes are
    exactly those given: the attributes the node had before are gone.  Its
    children are those of the node the path found before the call, none
    when it found nothing. *)
Theorem setElement_then_find (tag : string) (text : jsval) (attribs : attributes) (w : world) :
  plain_name tag = true → wf w →
  let before := et.find ("./" +:+ tag) (_root (this w)) in
  ∃ e, et.find ("./" +:+ tag) (_root (this (setElement tag text attribs w).2)) = Some e ∧
       et.tag e = tag ∧
       et.text e = Some (or_empty text) ∧
       et.attrib e = written_attributes text attribs ∧
       et._children e = match before with Some b => et._children b | None => [] end ∧
       et._id e = match before with Some b => et._id b | None => element_ids w end.
Proof.
  intros Hp Hwf before. subst before.
  rewrite !ElementFacts.find_child by done.
  rewrite ElementFacts.first_child_after by done.
  eexists. split; [done|].
  destruct (head _) as [b|] eqn:Hb; cbn [default from_option id]; [|done].
  apply head_Some_elem_of, list_elem_of_filter in Hb as [Hb _].
  by apply String.eqb_eq in Hb.
Qed.

Lemma setElement_then_find_witness :
  ∃ e, et.find "./name" (_root (this (setElement "name" (Str "Other")
                                       (Attributes {["short" := "O"]}) example_world).2))
       = Some e ∧
       et.text e = Some "Other" ∧ et.attrib e = {["short" := "O"]} ∧ et._id e = 2%N.
Proof.
  destruct (setElement_then_find "name" (Str "Other") (Attributes {["short" := "O"]})
              example_world) as (e & H1 & _ & H2 & H3 & _ & H4).
  - reflexivity.
  - apply (bool_decide_unpack _). by vm_compute.
  - exists e. split; [exact H1|]. split; [exact H2|]. split; [exact H3 | exact H4].
Defined.

(** X3: the last write wins.  [setElement] twice on the same tag leaves
    what the second call alone would have left, and ends as it: the first
    call creates the element when it is missing, the second finds it, so
    no second element appears. *)
Theorem setElement_last_write_wins (tag : string) (text text' : jsval)
    (attribs attribs' : attributes) (w : world) :
  plain_name tag = true → wf w →
  setElement tag text' attribs' (setElement tag text attribs w).2
  = setElement tag text' attribs' w.
Proof.
  intros Hp Hwf.
  rewrite (ElementFacts.setElement_closed tag text' attribs' _ Hp
             (ElementFacts.setElement_wf tag text attribs w Hwf)).
  rewrite !ElementFacts.setElement_closed by done. cbv zeta. cbn [snd]. f_equal.
  destruct (existsb (et.has_tag tag) (et._children (_root (this w)))) eqn:E.
  - cbn [with_root this _root _doc et.getroot et.with_children et._children element_ids
         _file et._id et.tag et.attrib et.text].
    assert (existsb (et.has_tag tag)
              (replace_first (et.has_tag tag)
                 (rewritten (or_empty text) (written_attributes text attribs))
                 (et._children (_root (this w)))) = true) as ->.
    { clear -E. induction (et._children (_root (this w))) as [|c cs IH]; [done|].
      simpl in *. destruct (et.has_tag tag c) eqn:Hc; simpl.
      - by rewrite ElementFacts.has_tag_rewritten, Hc.
      - rewrite Hc. by apply IH. }
    cbn [with_root this _root _doc et.getroot et.with_children et._children element_ids
         _file et._id et.tag et.attrib et.text].
    by rewrite UpdateFacts.replace_first_twice by done.
  - cbn [with_root this _root _doc et.getroot et.with_children et._children element_ids
         _file et._id et.tag et.attrib et.text].
    rewrite existsb_app, E. cbn [existsb orb].
    assert (et.has_tag tag
              (rewritten (or_empty text) (written_attributes text attribs)
                 (et.mkElement (element_ids w) tag ∅ None [])) = true) as Hnew
      by apply String.eqb_refl.
    rewrite Hnew.
    cbn [with_root this _root _doc et.getroot et.with_children et._children element_ids
         _file et._id et.tag et.attrib et.text orb].
    assert (replace_first (et.has_tag tag)
              (rewritten (or_empty text') (written_attributes text' attribs'))
              (et._children (_root (this w))
               ++ [rewritten (or_empty text) (written_attributes text attribs)
                     (et.mkElement (element_ids w) tag ∅ None [])])
            = et._children (_root (this w))
              ++ [rewritten (or_empty text') (written_attributes text' attribs')
                    (et.mkElement (element_ids w) tag ∅ None [])]) as ->; [|done].
    apply ElementFacts.head_filter_None in E. clear -E Hnew.
    induction (et._children (_root (this w))) as [|c cs IH]; simpl.
    + by rewrite Hnew.
    + rewrite filter_cons in E. destruct (decide (et.has_tag tag c = true)) as [|Hc]; [done|].
      apply not_true_is_false in Hc. rewrite Hc. f_equal. by apply IH.
Qed.

Lemma setElement_last_write_wins_witness :
  setElement "name" (Str "B") NoAttributes
    (setElement "name" (Str "A") (Attributes {["short" := "a"]}) empty_widget).2
  = (Normal tt,
     with_root (et.mkElement 0 "widget" ∅ None [et.mkElement 1 "name" ∅ (Some "B") []])
               (World 2 (this empty_widget))).
Proof.
  rewrite setElement_last_write_wins.
  - reflexivity.
  - reflexivity.
  - apply (bool_decide_unpack _). by vm_compute.
Defined.

(** X4: on a plain tag, a [null] in the place of the text or of the
    attributes makes [setElement] throw a [TypeError], but late: the
    element has by then been found or created, and its text and attributes
    set as by a call without attributes.  An object in the place of the
    text is taken as the attributes, with an empty text, and the third
    argument is ignored. *)
Theorem setElement_null_throws_late (tag : string) (attribs : attributes) (w : world) :
  plain_name tag = true →
  setElement tag Null attribs w
  = (Throw (TypeError "keys"), (setElement tag (Str "") NoAttributes w).2) ∧
  (∀ text, typeof_is_object text = false →
     setElement tag text NullAttributes w
     = (Throw (TypeError "keys"), (setElement tag text NoAttributes w).2)) ∧
  (∀ o, setElement tag (Obj o) attribs w = setElement tag (Str "") (Attributes o) w).
Proof.
  intros _. rewrite !ElementFacts.setElement_run. split; [done|]. split.
  - intros text Htext. rewrite !ElementFacts.setElement_run.
    unfold outcome, null_attributes, written_attributes. by rewrite Htext.
  - intros o. by rewrite !ElementFacts.setElement_run.
Qed.

Lemma setElement_null_throws_late_witness :
  setElement "content" Null NoAttributes empty_widget
  = (Throw (TypeError "keys"),
     with_root (et.mkElement 0 "widget" ∅ None [et.mkElement 1 "content" ∅ (Some "") []])
               (World 2 (this empty_widget))).
Proof.
  rewrite (proj1 (setElement_null_throws_late "content" NoAttributes empty_widget eq_refl)).
  reflexivity.
Defined.

(** X5: [setElement] on one tag leaves the children of the root that have
    another tag as they are, and in their order. *)
Theorem setElement_keeps_other_tags (tag tag' : string) (text : jsval)
    (attribs : attributes) (w : world) :
  plain_name tag = true → plain_name tag' = true → tag ≠ tag' → wf w →
  et.findall ("./" +:+ tag') (_root (this (setElement tag text attribs w).2))
  = et.findall ("./" +:+ tag') (_root (this w)).
Proof.
  intros Hp Hp' Hne Hwf. unfold et.findall.
  rewrite ElementFacts.selectors_child by done. simpl. rewrite !app_nil_r.
  by apply ElementFacts.other_children_after.
Qed.

Lemma setElement_keeps_other_tags_witness :
  et._id <$> et.findall "./access"
               (_root (this (setElement "description" (Str "An app") NoAttributes
                               example_world).2))
  = [1; 3; 4]%N.
Proof.
  rewrite (setElement_keeps_other_tags "description" "access").
  - reflexivity.
  - reflexivity.
  - reflexivity.
  - discriminate.
  - apply (bool_decide_unpack _). by vm_compute.
Defined.

(** X6: [setAuthor(name, email, website)] with a name that is a string or
    left out returns, and the [author] element then carries the name as its
    text, the attribute [email] exactly when an email that is not empty was
    given, the attribute [href] exactly when a website that is not empty
    was given, and no other attribute. *)
Theorem setAuthor_writes (name : jsval) (email website : option string) (w : world) :
  wf w → typeof_is_object name = false →
  (setAuthor name email website w).1 = Normal tt ∧
  ∃ e, et.find "./author" (_root (this (setAuthor name email website w).2)) = Some e ∧
       et.text e = Some (or_empty name) ∧
       (∀ v, et.getAttribute "email" e = Some v ↔ email = Some v ∧ v ≠ "") ∧
       (∀ v, et.getAttribute "href" e = Some v ↔ website = Some v ∧ v ≠ "") ∧
       (∀ k, k ≠ "email" → k ≠ "href" → et.getAttribute k e = None).
Proof.
  intros Hwf Hname. unfold setAuthor. cbv zeta. split.
  { rewrite ElementFacts.setElement_run. cbn [fst].
    unfold outcome, null_attributes. by rewrite Hname. }
  rewrite (ElementFacts.find_child "author") by done.
  rewrite ElementFacts.first_child_after by done.
  eexists. split; [done|]. split; [done|].
  unfold et.getAttribute, rewritten, written_attributes. cbn [et.attrib].
  rewrite Hname.
  destruct email as [[|c s]|], website as [[|c' s']|]; cbn [JsString.truthy default from_option id].
  all: repeat split; intros; destruct_and?; by simplify_map_eq.
Qed.

Lemma setAuthor_writes_witness :
  ∃ e, et.find "./author"
         (_root (this (setAuthor (Str "Ann") (Some "ann@example.org") (Some "")
                         empty_widget).2)) = Some e ∧
       et.text e = Some "Ann" ∧
       et.getAttribute "email" e = Some "ann@example.org" ∧
       et.getAttribute "href" e = None.
Proof.
  destruct (setAuthor_writes (Str "Ann") (Some "ann@example.org") (Some "") empty_widget)
    as (_ & e & H1 & H2 & H3 & H4 & _).
  - apply (bool_decide_unpack _). by vm_compute.
  - reflexivity.
  - exists e. split; [exact H1|]. split; [exact H2|]. split.
    + apply H3. by split.
    + destruct (et.getAttribute "href" e) as [v|] eqn:E; [|reflexivity].
      destruct (proj1 (H4 v) eq_refl) as [[= <-] Hne]. by destruct Hne.
Defined.

(** X7: [setName], [setDescription] and [setAuthor] write three different
    elements and do not disturb one another: after the three calls, each
    with a string, the paths [./name], [./description] and [./author] find
    the three texts, and all three calls have returned. *)
Theorem setters_do_not_interfere (name description author : string)
    (email website : option string) (w : world) :
  wf w →
  let calls := setName (Str name) ;; setDescription (Str description) ;;
               setAuthor (Str author) email website in
  (calls w).1 = Normal tt ∧
  text_at "./name" (calls w).2 = Some name ∧
  text_at "./description" (calls w).2 = Some description ∧
  text_at "./author" (calls w).2 = Some author.
Proof.
  intros Hwf calls. subst calls. unfold setName, setDescription, setAuthor. cbv zeta.
  set (attribs := Attributes _).
  pose proof (ElementFacts.setElement_wf "name" (Str name) NoAttributes w Hwf) as Hwf1.
  pose proof (ElementFacts.setElement_run "name" (Str name) NoAttributes w) as H1.
  destruct (setElement "name" (Str name) NoAttributes w) as [r1 w1] eqn:E1.
  injection H1 as -> Hw1. cbn [snd] in Hwf1.
  pose proof (ElementFacts.setElement_wf "description" (Str description) NoAttributes w1 Hwf1)
    as Hwf2.
  pose proof (ElementFacts.setElement_run "description" (Str description) NoAttributes w1)
    as H2.
  destruct (setElement "description" (Str description) NoAttributes w1) as [r2 w2] eqn:E2.
  injection H2 as -> Hw2. cbn [snd] in Hwf2.
  pose proof (ElementFacts.setElement_run "author" (Str author) attribs w2) as H3.
  destruct (setElement "author" (Str author) attribs w2) as [r3 w3] eqn:E3.
  injection H3 as -> Hw3.
  rewrite RunFacts.bind_run, E1. change (outcome (Str name) NoAttributes) with (Normal tt).
  cbv beta iota. rewrite RunFacts.bind_run, E2.
  change (outcome (Str description) NoAttributes) with (Normal tt).
  cbv beta iota. rewrite E3. cbn [fst snd].
  split; [done|].
  assert (w1 = (setElement "name" (Str name) NoAttributes w).2) as Ew1 by (by rewrite E1).
  assert (w2 = (setElement "description" (Str description) NoAttributes w1).2) as Ew2
    by (by rewrite E2).
  assert (w3 = (setElement "author" (Str author) attribs w2).2) as Ew3 by (by rewrite E3).
  clear E1 E2 E3 Hw1 Hw2 Hw3.
  assert (Hfirst : ∀ tag, plain_name tag = true → ∀ w,
            text_at ("./" +:+ tag) w
            = head (filter (λ c, et.has_tag tag c = true) (et._children (_root (this w))))
              ≫= et.text).
  { intros tag Hp w0. unfold text_at. rewrite ElementFacts.find_child by done.
    by destruct (head _). }
  change "./name" with ("./" +:+ "name").
  change "./description" with ("./" +:+ "description").
  change "./author" with ("./" +:+ "author").
  rewrite !Hfirst by done.
  split; [|split].
  - rewrite Ew3, ElementFacts.other_children_after by done.
    rewrite Ew2, ElementFacts.other_children_after by done.
    by rewrite Ew1, ElementFacts.first_child_after by done.
  - rewrite Ew3, ElementFacts.other_children_after by done.
    by rewrite Ew2, ElementFacts.first_child_after by done.
  - by rewrite Ew3, ElementFacts.first_child_after by done.
Qed.

Lemma setters_do_not_interfere_witness :
  let calls := setName (Str "New") ;; setDescription (Str "An app") ;;
               setAuthor (Str "Ann") None None in
  text_at "./name" (calls example_world).2 = Some "New" ∧
  text_at "./description" (calls example_world).2 = Some "An app" ∧
  text_at "./author" (calls example_world).2 = Some "Ann".
Proof.
  refine (proj2 (setters_do_not_interfere "New" "An app" "Ann" None None example_world _)).
  apply (bool_decide_unpack _). by vm_compute.
Defined.

(** ** More on the access origins *)

(** X8: for an origin that holds no double quote (the lookup path is
    built by pasting it between two of them), [removeAccessOrigin(origin)]
    returns and creates no node.  When no [access] child of the root has
    the origin it leaves the document as it is; otherwise the root has one
    child fewer. *)
Theorem removeAccessOrigin_absent_or_one (origin : string) (w : world) :
  wf w → quote_free origin = true →
  let w' := (removeAccessOrigin origin w).2 in
  (removeAccessOrigin origin w).1 = Normal tt ∧
  element_ids w' = element_ids w ∧
  (access_for origin w = [] → w' = w) ∧
  (access_for origin w ≠ [] →
     S (List.length (et._children (_root (this w'))))
     = List.length (et._children (_root (this w)))).
Proof.
  intros Hwf _ w'. subst w'. rewrite AccessFacts.removeAccessOrigin_run by done.
  cbn [fst snd]. split; [done|]. split; [done|]. split.
  - intros Hnone. rewrite (OriginFacts.without_first_none (is_access_for origin) _ Hnone).
    by rewrite AccessFacts.with_children_id, RunFacts.with_root_id.
  - intros Hsome. by apply OriginFacts.without_first_length.
Qed.

Lemma removeAccessOrigin_absent_or_one_witness :
  (removeAccessOrigin "https://c.com" example_world).2 = example_world ∧
  List.length (et._children (_root (this (removeAccessOrigin "https://b.com"
                                            example_world).2))) = 4%nat.
Proof.
  split.
  - destruct (removeAccessOrigin_absent_or_one "https://c.com" example_world)
      as (_ & _ & H & _).
    + apply (bool_decide_unpack _). by vm_compute.
    + reflexivity.
    + apply H. reflexivity.
  - destruct (removeAccessOrigin_absent_or_one "https://b.com" example_world)
      as (_ & _ & _ & H).
    + apply (bool_decide_unpack _). by vm_compute.
    + reflexivity.
    + assert (access_for "https://b.com" example_world ≠ []) as Hsome by discriminate.
      exact (Nat.succ_inj _ 4 (H Hsome)).
Defined.

(** X9: allowing an origin that the document does not have yet, and then
    removing it, gives the document back: both calls return, the root is
    the one before, and only the counter of created nodes has advanced.
    (The origin holds no double quote, the lookup path being built by
    pasting it between two of them; and [options] must not bring an
    [origin] entry of its own.) *)
Theorem setAccessOrigin_then_remove (origin : string) (options : option (gmap string string))
    (w : world) :
  wf w → quote_free origin = true →
  access_for origin w = [] → default ∅ options !! "origin" = None →
  (setAccessOrigin origin options ;; removeAccessOrigin origin) w
  = (Normal tt, World (N.succ (element_ids w)) (this w)).
Proof.
  intros Hwf _ Hnone Hkey.
  rewrite RunFacts.bind_run.
  pose proof (AccessFacts.setAccessOrigin_wf origin options w Hwf) as Hwf1.
  rewrite AccessFacts.setAccessOrigin_run in Hwf1 |- * by done. cbn [snd] in Hwf1.
  rewrite AccessFacts.removeAccessOrigin_run by done. f_equal.
  cbn [with_root this _root _doc et.getroot et.with_children et._children element_ids _file].
  rewrite (OriginFacts.without_first_none (is_access_for origin) _ Hnone).
  rewrite OriginFacts.without_first_last;
    [|exact Hnone | by apply AccessFacts.access_node_for].
  by destruct w as [n [file [[]]]].
Qed.

Lemma setAccessOrigin_then_remove_witness :
  (setAccessOrigin "https://c.com" (Some {["subdomains" := "true"]}) ;;
   removeAccessOrigin "https://c.com") example_world
  = (Normal tt, World 7 (this example_world)).
Proof.
  apply (setAccessOrigin_then_remove "https://c.com" (Some {["subdomains" := "true"]})
           example_world).
  - apply (bool_decide_unpack _). by vm_compute.
  - reflexivity.
  - reflexivity.
  - vm_compute. reflexivity.
Defined.



(** X11: once [removeAccessOrigins()] has run, running it again, or
    [removeAccessOrigin(origin)] for an origin that holds no double quote
    (one that the lookup path can carry), changes nothing. *)
Theorem removeAccessOrigins_settles (origin : string) (w : world) :
  wf w →
  let w' := (removeAccessOrigins w).2 in
  removeAccessOrigins w' = (Normal tt, w') ∧
  (quote_free origin = true → removeAccessOrigin origin w' = (Normal tt, w')).
Proof.
  intros Hwf w'.
  assert (Hwf' : wf w').
  { unfold w'. rewrite AccessFacts.removeAccessOrigins_run by done.
    apply AccessFacts.wf_children; [apply sublist_filter | done]. }
  assert (Hnone : ∀ c, c ∈ et._children (_root (this w')) → et.has_tag "access" c = false).
  { unfold w'. rewrite AccessFacts.removeAccessOrigins_run by done.
    cbn [snd with_root this _root _doc et.getroot et.with_children et._children].
    by intros c [? _]%list_elem_of_filter. }
  split.
  - rewrite AccessFacts.removeAccessOrigins_run by done.
    rewrite TreeFacts.filter_all by done.
    by rewrite AccessFacts.with_children_id, RunFacts.with_root_id.
  - intros _. rewrite AccessFacts.removeAccessOrigin_run by done.
    rewrite OriginFacts.without_first_none.
    + by rewrite AccessFacts.with_children_id, RunFacts.with_root_id.
    + apply elem_of_nil_inv. intros c [Hc Hin]%list_elem_of_filter.
      apply Hnone in Hin. unfold is_access_for in Hc. by rewrite Hin in Hc.
Qed.

Lemma removeAccessOrigins_settles_witness :
  let w' := (removeAccessOrigins example_world).2 in
  removeAccessOrigins w' = (Normal tt, w') ∧
  removeAccessOrigin "https://a.com" w' = (Normal tt, w').
Proof.
  destruct (removeAccessOrigins_settles "https://a.com" example_world) as [H1 H2].
  - apply (bool_decide_unpack _). by vm_compute.
  - split; [exact H1 | exact (H2 eq_refl)].
Defined.

(** ** What the validated setters let through *)

(** X12: [setAndroidVersionCode] returns exactly on the strings made of one
    or more decimal digits. *)
Theorem setAndroidVersionCode_returns_iff (versionCode : string) (w : world) :
  (setAndroidVersionCode versionCode w).1 = Normal tt ↔ number versionCode.
Proof.
  rewrite RunFacts.setAndroidVersionCode_run, <- PatternFacts.valid_android.
  by destruct (valid _ _).
Qed.

(** X13: [setIOSBundleVersion] returns exactly on a digit from 1 to 9
    followed by digits and by at most two further components, each a
    separator and a number.  The separator is written [\.] in a string
    literal, which drops the backslash: the compiled pattern lets it be any
    code unit but a line terminator. *)
Theorem setIOSBundleVersion_returns_iff (version : string) (w : world) :
  (setIOSBundleVersion version w).1 = Normal tt ↔ ios_bundle_version version.
Proof.
  rewrite RunFacts.setIOSBundleVersion_run, <- PatternFacts.valid_ios.
  by destruct (valid _ _).
Qed.

(** X14: what [setID] lets through.  An id on which it returns begins
    with a letter or a digit and holds, after it, only code units of the
    class that closes the pattern, or colons; and it returns, with the id
    written on the root, on every id that begins with a letter or a digit
    and goes on with code units of that class. *)
Theorem setID_accepts (id : string) (w : world) :
  ((setID id w).1 = Normal tt →
   ∃ c rest, id = String c rest ∧ alphanumeric c = true ∧
             Forall (λ x, id_char x = true ∨ x = ":"%char) (list_ascii_of_string rest)) ∧
  (∀ c rest, id = String c rest → alphanumeric c = true →
     Forall (λ x, id_char x = true) (list_ascii_of_string rest) →
     setID id w = (Normal tt, with_root (et.setAttribute "id" id (_root (this w))) w)).
Proof.
  rewrite RunFacts.setID_run. split.
  - destruct (valid id_pattern id) eqn:E; [|done]. intros _.
    apply PatternFacts.valid_id_inv in E as (c & rest & -> & Hc & Hrest).
    exists c, rest. split; [done|]. split; [done|].
    eapply Forall_impl; [exact Hrest|]. intros x [H|H%Ascii.eqb_eq]%orb_true_iff; auto.
  - intros c rest -> Hc Hrest. by rewrite PatternFacts.valid_id.
Qed.

Lemma setID_accepts_witness :
  setID "com.example.app" empty_widget
  = (Normal tt,
     with_root (et.setAttribute "id" "com.example.app" (_root (this empty_widget)))
               empty_widget).
Proof.
  apply (proj2 (setID_accepts "com.example.app" empty_widget) "c"%char "om.example.app").
  - reflexivity.
  - reflexivity.
  - apply (bool_decide_unpack _). by vm_compute.
Defined.

(** ** Whatever is called *)

(** X15: a document that [new Config(file)] has loaded stays a [widget]
    document of that file whatever methods are then called on it, with
    whatever arguments, and whether they return or throw: the root keeps
    the tag [widget], the file name is the one given, the nodes stay
    distinct objects, and the counter of created nodes never goes back. *)
Theorem loaded_document_stays_widget {host : Host} (file : string) (n n' : N) (c : Config)
    (ms : list method) :
  Config_new file n = (Normal c, n') →
  let w := session ms (World n' c) in
  wf w ∧
  et.tag (_root (this w)) = "widget" ∧
  _file (this w) = file ∧
  (n' ≤ element_ids w)%N.
Proof.
  intros Hnew w. subst w.
  pose proof (InvariantFacts.wf_loaded file n n' c Hnew) as Hwf.
  destruct (SessionFacts.Config_new_widget file n n' c Hnew) as (Hfile & Htag & _).
  destruct (SessionFacts.session_keeps ms (World n' c)) as (F & _ & T & Hn).
  split; [by apply SessionFacts.session_wf|].
  split; [by rewrite T|]. split; [by rewrite F | exact Hn].
Qed.

Lemma loaded_document_stays_widget_witness :
  let w := session (host := example_host)
             [method_setName (Str "App"); method_call (call_addHook "no_such_hook" "x");
              method_setElement "content" Null NoAttributes;
              method_call (call_setAccessOrigin "*" None);
              method_call (call_addRawXML "<foo/>" None None)]
             empty_widget in
  wf w ∧
  et.tag (_root (this w)) = "widget" ∧
  _file (this w) = "config.xml" ∧
  (1 ≤ element_ids w)%N.
Proof.
  apply (loaded_document_stays_widget (host := example_host) "config.xml" 0 1
           (this empty_widget)).
  reflexivity.
Defined.

(** ** Loading *)

(** X16: [parse] hands to the parser the text of the file from its first
    [<] on: whatever stands before it (a byte order mark, say) is skipped
    and plays no part.  When the parser accepts that text, [parse] and
    [new Config] end as the tree read from it makes them: with the
    document when its root is tagged [widget], with the error on the root
    tag otherwise. *)
Theorem parse_reads_from_first_tag {host : Host} (file junk rest : string) (m : et.markup)
    (n : N) :
  readFileSync file = Some (junk +:+ "<" +:+ rest) →
  "<"%char ∉ list_ascii_of_string junk →
  parseXML ("<" +:+ rest) = Some m →
  let root := (et.build m n).1 in
  let n' := (et.build m n).2 in
  parse file n
  = (if String.eqb (et.tag root) "widget"
     then (Normal (et.mkElementTree root), n')
     else (Throw (Error (root_tag_message file (et.tag root))), n')) ∧
  Config_new file n
  = (if String.eqb (et.tag root) "widget"
     then (Normal (mkConfig file (et.mkElementTree root)), n')
     else (Throw (Error (root_tag_message file (et.tag root))), n')).
Proof.
  intros Hread Hjunk Hparse root n'.
  assert (Hcut : (if JsString.truthy (Some (junk +:+ "<" +:+ rest))
                  then JsString.substring (junk +:+ "<" +:+ rest)
                         (JsString.indexOf (junk +:+ "<" +:+ rest) "<")
                  else junk +:+ "<" +:+ rest) = "<" +:+ rest).
  { assert (JsString.truthy (Some (junk +:+ "<" +:+ rest)) = true) as ->
      by (by destruct junk).
    change ("<" +:+ rest) with (String "<" rest).
    by apply (LoadFacts.substring_first "<"). }
  assert (Hrun : parse file n
    = if String.eqb (et.tag root) "widget"
      then (Normal (et.mkElementTree root), n')
      else (Throw (Error (root_tag_message file (et.tag root))), n')).
  { unfold parse, XML, throw, mbind, M_bind, mret, M_ret.
    rewrite Hread. cbv beta iota zeta. rewrite Hcut, Hparse.
    unfold root, n'. destruct (et.build m n) as [r k]. cbn [fst snd].
    by destruct (String.eqb (et.tag r) "widget"). }
  split; [exact Hrun|].
  unfold Config_new. rewrite RunFacts.bind_run, Hrun.
  by destruct (String.eqb (et.tag root) "widget").
Qed.

Lemma parse_reads_from_first_tag_witness :
  parse (host := {| readFileSync _ := Some ("  " +:+ "<" +:+ "widget/>");
                    parseXML := parseXML (Host := example_host) |}) "config.xml" 0%N
  = (Normal (et.mkElementTree (et.mkElement 0 "widget" ∅ None [])), 1%N).
Proof.
  refine (proj1 (parse_reads_from_first_tag
                   (host := {| readFileSync _ := Some ("  " +:+ "<" +:+ "widget/>");
                               parseXML := parseXML (Host := example_host) |})
                   "config.xml" "  " "widget/>" (et.Markup "widget" ∅ None []) 0%N
                   eq_refl _ eq_refl)).
  apply (bool_decide_unpack _). by vm_compute.
Defined.

(** ** Paths and fragments *)

(** X17: a resolved path never begins with [/] and the root tag, so
    resolving it once more changes nothing. *)
Theorem fixAbsoluteXPath_settles (doc : et.ElementTree) (path : option string) :
  let prefix := "/" +:+ et.tag (et.getroot doc) in
  (∀ rest, fixAbsoluteXPath doc path ≠ Some (prefix +:+ rest)) ∧
  fixAbsoluteXPath doc (fixAbsoluteXPath doc path) = fixAbsoluteXPath doc path.
Proof.
  intros prefix.
  assert (Hnot : ∀ rest, fixAbsoluteXPath doc path ≠ Some (prefix +:+ rest)).
  { intros rest. unfold fixAbsoluteXPath. fold prefix.
    destruct path as [[|c p]|]; [discriminate| |done].
    cbn [JsString.truthy andb].
    destruct (Z.eqb_spec (JsString.indexOf (String c p) prefix) 0) as [E|Hne].
    - apply StringFacts.indexOf_0 in E. rewrite StringFacts.replace_unfold, E.
      discriminate.
    - intros Hp. assert (String c p = prefix +:+ rest) as Hp' by congruence.
      apply Hne. rewrite Hp'.
      apply StringFacts.indexOf_0, StringFacts.startsWith_app. }
  split; [exact Hnot|].
  destruct (fixAbsoluteXPath doc path) as [q|] eqn:Hq; [|done].
  unfold fixAbsoluteXPath at 1. fold prefix.
  destruct (JsString.truthy (Some q)); [|done]. simpl.
  destruct (Z.eqb_spec (JsString.indexOf q prefix) 0) as [E|_]; [|done].
  apply StringFacts.indexOf_0, StringFacts.startsWith_inv in E.
  exfalso. apply (Hnot (JsString.skip (String.length prefix) q)).
  by f_equal.
Qed.

(** X18: a fragment added to the root under the guard [./tag], [tag] being
    the tag of the fragment, is added once: a second call with the same
    arguments returns and changes nothing. *)
Theorem addRawXML_guarded_once {host : Host} (raw name : string) (a : gmap string string)
    (x : option string) (ms : list et.markup) (w : world) :
  parseXML raw = Some (et.Markup name a x ms) → plain_name name = true →
  let w1 := (addRawXML raw None (Some ("./" +:+ name)) w).2 in
  (∃ e, et.find ("./" +:+ name) (_root (this w1)) = Some e) ∧
  addRawXML raw None (Some ("./" +:+ name)) w1 = (Normal tt, w1).
Proof.
  intros Hraw Hname w1.
  assert (Hfound : ∃ e, et.find ("./" +:+ name) (_root (this w1)) = Some e).
  { subst w1. rewrite RunFacts.addRawXML_run. cbv zeta.
    rewrite LoadFacts.fixAbsoluteXPath_relative.
    cbn [default from_option id].
    assert (JsString.truthy (Some ("./" +:+ name)) = true) as -> by done.
    cbn [JsString.truthy].
    destruct (et.find ("./" +:+ name) (_root (this w))) as [e|] eqn:E.
    - cbn [andb snd]. eauto.
    - cbn [andb snd]. rewrite Hraw, TreeFacts.update_self. cbn [snd].
      rewrite ElementFacts.find_child by done.
      cbn [with_root this _root _doc et.getroot].
      cbn [et.append et._children]. rewrite filter_app.
      rewrite ElementFacts.find_child in E by done.
      apply head_None in E. rewrite E. cbn [app].
      rewrite filter_cons, decide_True; [by eexists|].
      unfold et.has_tag. rewrite LoadFacts.build_tag. apply String.eqb_refl. }
  split; [exact Hfound|]. destruct Hfound as [e He].
  rewrite RunFacts.addRawXML_run. cbv zeta.
  rewrite LoadFacts.fixAbsoluteXPath_relative.
  cbn [default from_option id].
  assert (JsString.truthy (Some ("./" +:+ name)) = true) as -> by done.
  cbn [JsString.truthy]. by rewrite He.
Qed.

Lemma addRawXML_guarded_once_witness :
  let w1 := (addRawXML (host := example_host) "<foo/>" None (Some "./foo") empty_widget).2 in
  addRawXML (host := example_host) "<foo/>" None (Some "./foo") w1 = (Normal tt, w1).
Proof.
  refine (proj2 (addRawXML_guarded_once (host := example_host) "<foo/>" "foo" ∅ None []
                   empty_widget eq_refl eq_refl)).
Defined.


(** ** The scope of a preference *)

(** X20: a call of [setPreference] for a platform that has no node yet
    throws, but leaves an empty [platform] node behind, appended to the
    root; a further call for that platform finds this node, creates no
    second one and leaves the document as it is: it throws again, one
    more node created and dropped.  (The platform and the two names hold
    no double quote: the lookup paths are built by pasting them between
    two of them, lines 226 and 238.) *)
Theorem setPreference_leaves_platform_scope (name value name' value' platform : string)
    (w : world) :
  quote_free platform = true → quote_free name = true → quote_free name' = true →
  platform ≠ "" →
  et.children_with "platform" "name" platform (_root (this w)) = [] →
  let scope := et.mkElement (element_ids w) "platform" {["name" := platform]} None [] in
  let w1 := (setPreference name value (Some platform) w).2 in
  et._children (_root (this w1)) = et._children (_root (this w)) ++ [scope] ∧
  setPreference name' value' (Some platform) w1
  = (Throw (TypeError "append"), World (N.succ (element_ids w1)) (this w1)).
Proof.
  intros _ _ _ Hne Hnone scope w1. subst w1.
  rewrite setPreference_new_platform by done. cbn [snd]. split; [done|].
  assert (JsString.truthy (Some platform) = true) as Htruthy by (by destruct platform).
  unfold setPreference at 1.
  unfold root_append, doc_find, this_root, mutate, modify, gets, alloc,
    new_Element, et.Element_new, throw, platformElement_of, mbind, M_bind, mret, M_ret.
  rewrite Htruthy. cbv beta iota zeta. cbn [default from_option id].
  rewrite TreeFacts.find_platform_name.
  cbn [with_root this _root _doc et.getroot et.append et._children element_ids _file].
  unfold et.children_with in *. cbn [et.append et._children].
  rewrite filter_app, Hnone. cbn [app].
  rewrite filter_cons, decide_True.
  2:{ apply andb_true_iff. split; [done|]. apply bool_decide_eq_true.
      cbn [et.attrib]. apply lookup_singleton_eq. }
  cbn [head]. cbv beta iota zeta.
  rewrite TreeFacts.find_preference_name. unfold et.children_with.
  cbn [et._children]. rewrite filter_nil. reflexivity.
Qed.

Lemma setPreference_leaves_platform_scope_witness :
  let w1 := (setPreference "Fullscreen" "true" (Some "android") empty_widget).2 in
  et._children (_root (this w1))
  = [et.mkElement 1 "platform" {["name" := "android"]} None []] ∧
  setPreference "Orientation" "portrait" (Some "android") w1
  = (Throw (TypeError "append"), World 4 (this w1)).
Proof.
  apply (setPreference_leaves_platform_scope "Fullscreen" "true" "Orientation" "portrait"
           "android" empty_widget).
  - reflexivity.
  - reflexivity.
  - reflexivity.
  - discriminate.
  - reflexivity.
Defined.

(** ** The attributes of the root *)

(** X21: the four validated setters write four different attributes of
    the root and nothing else: called one after the other on values that
    pass their checks, in one order or in the opposite one, they all
    return and leave the same document, in which each attribute is the
    value given and the children of the root are those before. *)
Theorem validated_setters_independent (id version versionCode bundle : string) (w : world) :
  valid id_pattern id = true →
  valid version_pattern version = true →
  valid android_version_code_pattern versionCode = true →
  valid ios_bundle_version_pattern bundle = true →
  let calls := setID id ;; setVersion version ;; setAndroidVersionCode versionCode ;;
               setIOSBundleVersion bundle in
  let opposite := setIOSBundleVersion bundle ;; setAndroidVersionCode versionCode ;;
                  setVersion version ;; setID id in
  let root' := _root (this (calls w).2) in
  calls w = opposite w ∧
  (calls w).1 = Normal tt ∧
  et.getAttribute "id" root' = Some id ∧
  et.getAttribute "version" root' = Some version ∧
  et.getAttribute "android-versionCode" root' = Some versionCode ∧
  et.getAttribute "ios-CFBundleVersion" root' = Some bundle ∧
  et._children root' = et._children (_root (this w)).
Proof.
  intros H1 H2 H3 H4 calls opposite root'. subst calls opposite root'.
  rewrite !RunFacts.bind_run.
  rewrite RunFacts.setID_run, H1, RunFacts.bind_run, RunFacts.setVersion_run, H2,
    RunFacts.bind_run, RunFacts.setAndroidVersionCode_run, H3,
    RunFacts.setIOSBundleVersion_run, H4.
  rewrite RunFacts.setIOSBundleVersion_run, H4, RunFacts.bind_run,
    RunFacts.setAndroidVersionCode_run, H3, RunFacts.bind_run, RunFacts.setVersion_run, H2,
    RunFacts.setID_run, H1.
  clear H1 H2 H3 H4.
  unfold with_root, et.setAttribute, et.getAttribute.
  cbn [fst snd this _root _doc et.getroot element_ids _file
       et._id et.tag et.attrib et.text et._children].
  assert (Hmap : ∀ m : gmap string string,
    <["ios-CFBundleVersion" := bundle]>
      (<["android-versionCode" := versionCode]> (<["version" := version]> (<["id" := id]> m)))
    = <["id" := id]>
        (<["version" := version]>
           (<["android-versionCode" := versionCode]> (<["ios-CFBundleVersion" := bundle]> m)))).
  { intros m. apply map_eq. intros k.
    destruct (decide (k = "id")) as [->|?]; [by simplify_map_eq|].
    destruct (decide (k = "version")) as [->|?]; [by simplify_map_eq|].
    destruct (decide (k = "android-versionCode")) as [->|?]; [by simplify_map_eq|].
    destruct (decide (k = "ios-CFBundleVersion")) as [->|?]; by simplify_map_eq. }
  split; [by rewrite Hmap|].
  split; [done|]. by simplify_map_eq.
Qed.

Lemma validated_setters_independent_witness :
  let calls := setID "com.example.app" ;; setVersion "1.2.3" ;;
               setAndroidVersionCode "42" ;; setIOSBundleVersion "1.2" in
  et.attrib (_root (this (calls empty_widget).2))
  = {["id" := "com.example.app"; "version" := "1.2.3"; "android-versionCode" := "42";
      "ios-CFBundleVersion" := "1.2"]}.
Proof.
  destruct (validated_setters_independent "com.example.app" "1.2.3" "42" "1.2" empty_widget)
    as (_ & _ & _).
  - reflexivity.
  - reflexivity.
  - reflexivity.
  - reflexivity.
  - reflexivity.
Defined.
